(** * JobApplier: the AI service (aiService.js)

    A shallow embedding of the helpers of [aiService.js] (analysis and
    explanation of a match, scoring, ranking, remodeling of a resume,
    refining and improving of answers), of the parts of the routes that
    work on their results, and of the validation of the request body,
    with the properties of those functions.

    Modelling conventions.
    - A JavaScript string is a sequence of UTF-16 code units.  The
      model covers the strings whose code units are below 256
      (Latin-1), one [ascii] per code unit.
    - A JavaScript number is a double (IEEE 754 binary64).  A whole
      number below [2^53] in absolute value is an integer ([Z]):
      the doubles are exact there.  Any other number is the rational
      number the double stands for ([Q]), or a [number] (such a
      rational, an infinity or NaN); the sum, difference, product and
      quotient of two numbers is the double nearest to the exact
      result, the even one of two ([binary64]).
    - A job is an object whose [description] and [location] are strings
      and whose [postedDate] is a date, each present or missing
      ([isJobDescriptor]); the fields are read at these types.
    - [undefined]/[null] arguments are [None]; a function that throws
      returns [Throw].
    - The time of a call, [new Date()], is the parameter [now] of the
      function, in milliseconds; a date is its time in milliseconds.
    - A JavaScript [Set] is the list of its elements in insertion
      order; a plain object is a finite map from field names to
      values, or the list of its properties where the order of its
      keys counts. *)

From Stdlib Require Import ZArith QArith Qround Qminmax Qabs Qpower Lia Lqa.
From Stdlib Require Import Ascii String.
From Stdlib Require Import Permutation Sorted.
From stdpp Require Import base list strings gmap sorting pretty.

Local Open Scope Z_scope.
Local Close Scope Q_scope.

(** ** Characters and strings *)

Module JsString.

(** [\s] of a regular expression, and the characters [trim] removes. *)
Definition isSpace (c : ascii) : bool :=
  let n := N_of_ascii c in
  ((9 <=? n) && (n <=? 13) || (n =? 32) || (n =? 160))%N.

(** [\d] *)
Definition isDigit (c : ascii) : bool :=
  let n := N_of_ascii c in ((48 <=? n) && (n <=? 57))%N.

(** [[a-z]] *)
Definition isLowerAZ (c : ascii) : bool :=
  let n := N_of_ascii c in ((97 <=? n) && (n <=? 122))%N.

(** [[.!?]] *)
Definition isTerminal (c : ascii) : bool :=
  let n := N_of_ascii c in ((n =? 46) || (n =? 33) || (n =? 63))%N.

Definition toLowerChar (c : ascii) : ascii :=
  let n := N_of_ascii c in
  if ((65 <=? n) && (n <=? 90)
      || (192 <=? n) && (n <=? 222) && negb (n =? 215))%N
  then ascii_of_N (n + 32) else c.

(** [String.prototype.toLowerCase] *)
Fixpoint toLowerCase (s : string) : string :=
  match s with
  | EmptyString => EmptyString
  | String c s' => String (toLowerChar c) (toLowerCase s')
  end.

Fixpoint startsWith (s p : string) : bool :=
  match p, s with
  | EmptyString, _ => true
  | String _ _, EmptyString => false
  | String a p', String b s' => if decide (a = b) then startsWith s' p' else false
  end.

(** [String.prototype.includes] *)
Fixpoint includes (s sub : string) : bool :=
  startsWith s sub ||
  match s with
  | EmptyString => false
  | String _ s' => includes s' sub
  end.

Fixpoint dropSpaces (s : string) : string :=
  match s with
  | String c s' => if isSpace c then dropSpaces s' else s
  | EmptyString => EmptyString
  end.

Fixpoint allSpaces (s : string) : bool :=
  match s with
  | String c s' => isSpace c && allSpaces s'
  | EmptyString => true
  end.

Fixpoint trimEnd (s : string) : string :=
  match s with
  | EmptyString => EmptyString
  | String c s' => if allSpaces s then EmptyString else String c (trimEnd s')
  end.

(** [String.prototype.trim] *)
Definition trim (s : string) : string := trimEnd (dropSpaces s).

(** [s.split(",")]: the fields between the separators; the auxiliary
    function carries the field being read, reversed. *)
Fixpoint splitOn_go (sep : ascii) (cur : string) (s : string) : list string :=
  match s with
  | EmptyString => [String.rev cur]
  | String c s' =>
      if decide (c = sep) then String.rev cur :: splitOn_go sep EmptyString s'
      else splitOn_go sep (String c cur) s'
  end.

Definition splitOn (sep : ascii) (s : string) : list string :=
  splitOn_go sep EmptyString s.

(** [s.split(/\s+/)]: every maximal run of white space is one separator.
    [inSep] says that the previous character belonged to a separator. *)
Fixpoint splitSpaces_go (inSep : bool) (cur : string) (s : string) : list string :=
  match s with
  | EmptyString => [String.rev cur]
  | String c s' =>
      if isSpace c then
        if inSep then splitSpaces_go true cur s'
        else String.rev cur :: splitSpaces_go true EmptyString s'
      else splitSpaces_go false (String c cur) s'
  end.

Definition splitSpaces (s : string) : list string :=
  splitSpaces_go false EmptyString s.

(** [s.split(/(?<=[.!?])\s+/)]: a run of white space separates two
    sentences when the character before the run is one of [.!?]; the
    look-behind fails inside a run and at the start of the string.
    [prev] is the character before [s]. *)
Fixpoint splitSentences_go (prev : option ascii) (inSep : bool) (cur : string)
    (s : string) : list string :=
  match s with
  | EmptyString => [String.rev cur]
  | String c s' =>
      if isSpace c then
        if inSep then splitSentences_go (Some c) true cur s'
        else if from_option isTerminal false prev
             then String.rev cur :: splitSentences_go (Some c) true EmptyString s'
             else splitSentences_go (Some c) false (String c cur) s'
      else splitSentences_go (Some c) false (String c cur) s'
  end.

Definition splitSentences (s : string) : list string :=
  splitSentences_go None false EmptyString s.

(** [arr.join(" ")] *)
Definition joinSpace (l : list string) : string := String.concat " " l.

(** [s.replace(/\s+/g, " ")] *)
Fixpoint collapseSpaces_go (inRun : bool) (s : string) : string :=
  match s with
  | EmptyString => EmptyString
  | String c s' =>
      if isSpace c then
        if inRun then collapseSpaces_go true s'
        else String " " (collapseSpaces_go true s')
      else String c (collapseSpaces_go false s')
  end.

Definition collapseSpaces (s : string) : string := collapseSpaces_go false s.

(** [s.replace(/([.!?])\s*([a-z])/g, "$1 $2")].  After one of [.!?] the
    white space that follows is held back in [pend] (reversed): a lower-case
    letter replaces it by one space, any other character releases it
    unchanged.  Matches do not overlap, and a match ends with a letter, which
    starts no match. *)
Fixpoint spaceAfterTerminal_go (pend : option string) (s : string) : string :=
  match s with
  | EmptyString => from_option String.rev EmptyString pend
  | String c s' =>
      let next := if isTerminal c then Some EmptyString else None in
      match pend with
      | Some ws =>
          if isSpace c then spaceAfterTerminal_go (Some (String c ws)) s'
          else if isLowerAZ c
               then String " " (String c (spaceAfterTerminal_go None s'))
               else String.rev ws +:+ String c (spaceAfterTerminal_go next s')
      | None => String c (spaceAfterTerminal_go next s')
      end
  end.

Definition spaceAfterTerminal (s : string) : string :=
  spaceAfterTerminal_go None s.

(** The digits a string starts with, and what follows them. *)
Fixpoint takeDigits (s : string) : string * string :=
  match s with
  | String c s' =>
      if isDigit c then let '(d, r) := takeDigits s' in (String c d, r)
      else (EmptyString, s)
  | EmptyString => (EmptyString, EmptyString)
  end.

(** A literal of a regular expression with the [i] flag, at the start of
    [s]: what follows it.  [p] is given in lower case; a code unit above 127
    never matches an ASCII letter. *)
Fixpoint skipLiteralCI (p s : string) : option string :=
  match p, s with
  | EmptyString, _ => Some s
  | String _ _, EmptyString => None
  | String a p', String b s' =>
      if decide (toLowerChar b = a) then skipLiteralCI p' s' else None
  end.

(** [\s+] at the start of [s]: what follows it. *)
Definition skipSpaces1 (s : string) : option string :=
  match s with
  | String c s' => if isSpace c then Some (dropSpaces s') else None
  | EmptyString => None
  end.

(** [parseInt] of a string of decimal digits. *)
Definition digitValue (c : ascii) : Z := Z.of_N (N_of_ascii c) - 48.

Fixpoint parseDigits (acc : Z) (s : string) : Z :=
  match s with
  | EmptyString => acc
  | String c s' => parseDigits (10 * acc + digitValue c) s'
  end.

(** [parseInt(s)] of a string of digits that stands for a number below
    [2^53]. *)
Definition parseInt (s : string) : Z := parseDigits 0 s.

End JsString.

Import JsString.

(** ** Sets

    A [Set] iterates in insertion order: the list of the distinct elements,
    each at the place of its first insertion. *)

Module JsSet.
Section set.
Context {A : Type} `{EqDecision A}.

(** [s.add(x)] *)
Definition add (s : list A) (x : A) : list A :=
  if decide (x ∈ s) then s else s ++ [x].

(** [new Set(l)] *)
Definition from (l : list A) : list A := foldl add [] l.

(** [s.has(x)] *)
Definition has (s : list A) (x : A) : bool := bool_decide (x ∈ s).

(** [s.size] *)
Definition size (s : list A) : Z := Z.of_nat (length s).
End set.
End JsSet.

(** ** Numbers *)

Module JsNumber.

(** [Math.round] of a finite number: the nearest integer, a half rounded up. *)
Definition Math_round (q : Q) : Z := Qfloor (q + (1 # 2))%Q.

(** A number: a double, given by the rational number it stands for, an
    infinity or NaN.  The two zeros are one number. *)
Inductive number : Type :=
| Fin (q : Q)
| PInf
| NInf
| NaN.

Definition ofZ (z : Z) : number := Fin (inject_Z z).

Definition sign (q : Q) : comparison := (q ?= 0)%Q.

(** *** Doubles

    The doubles are the numbers of IEEE 754 binary64: the multiples [m * 2^e]
    of a power of two with [|m| < 2^53] and [-1074 <= e <= 971]. *)

(** [2^e] *)
Definition pow2 (e : Z) : Q := (2 ^ e)%Q.

(** The integer [e] with [2^e <= |q| < 2^(e+1)], for [q] other than 0. *)
Definition floorLog2 (q : Q) : Z :=
  let e := Z.log2 (Z.abs (Qnum q)) - Z.log2 (Zpos (Qden q)) in
  if Qle_bool (pow2 e) (Qabs q) then e else e - 1.

(** The integer nearest to [q], the even one of two. *)
Definition roundHalfEven (q : Q) : Z :=
  let f := Qfloor q in
  match (q - inject_Z f ?= 1 # 2)%Q with
  | Lt => f
  | Gt => f + 1
  | Eq => if Z.even f then f else f + 1
  end.

(** The double nearest to [q], the one with the even [m] of two: the
    multiple of [2^e] nearest to [q], where [2^e] is the distance from one
    double to the next at [q]; an infinity from [2^1024] on. *)
Definition binary64 (q : Q) : number :=
  if Qeq_bool q 0 then Fin 0
  else
    let e := Z.max (floorLog2 q - 52) (-1074) in
    let v := (inject_Z (roundHalfEven (q / pow2 e)) * pow2 e)%Q in
    if Qle_bool (pow2 1024) (Qabs v)
    then match sign v with Lt => NInf | _ => PInf end
    else Fin (Qred v).

(** [a + b] *)
Definition add (a b : number) : number :=
  match a, b with
  | NaN, _ | _, NaN => NaN
  | PInf, NInf | NInf, PInf => NaN
  | PInf, _ | _, PInf => PInf
  | NInf, _ | _, NInf => NInf
  | Fin x, Fin y => binary64 (x + y)
  end.

(** [a - b] *)
Definition sub (a b : number) : number :=
  match a, b with
  | NaN, _ | _, NaN => NaN
  | PInf, PInf | NInf, NInf => NaN
  | PInf, _ | _, NInf => PInf
  | NInf, _ | _, PInf => NInf
  | Fin x, Fin y => binary64 (x - y)
  end.

(** [q * Infinity]: the infinity with the sign of [q], and NaN for 0. *)
Definition infinity (q : Q) : number :=
  match sign q with Gt => PInf | Lt => NInf | Eq => NaN end.

(** [-a] of an infinity or NaN. *)
Definition opposite (a : number) : number :=
  match a with
  | PInf => NInf
  | NInf => PInf
  | _ => a
  end.

(** [a * b] *)
Definition mul (a b : number) : number :=
  match a, b with
  | NaN, _ | _, NaN => NaN
  | Fin x, Fin y => binary64 (x * y)
  | Fin x, PInf | PInf, Fin x => infinity x
  | Fin x, NInf | NInf, Fin x => opposite (infinity x)
  | PInf, PInf | NInf, NInf => PInf
  | PInf, NInf | NInf, PInf => NInf
  end.

(** [a / b]; a divisor 0 is [+0]: a sum of numbers that starts from [+0],
    the only divisor that can be 0, is never [-0]. *)
Definition div (a b : number) : number :=
  match a, b with
  | NaN, _ | _, NaN => NaN
  | Fin x, Fin y =>
      match sign y with
      | Eq => infinity x
      | _ => binary64 (x / y)
      end
  | Fin _, _ => Fin 0
  | PInf, Fin y => match sign y with Lt => NInf | _ => PInf end
  | NInf, Fin y => match sign y with Lt => PInf | _ => NInf end
  | _, _ => NaN
  end.

(** [Math.round(a)] *)
Definition round (a : number) : number :=
  match a with
  | Fin q => ofZ (Math_round q)
  | _ => a
  end.

(** [Math.max(a, b)] of a finite [a] and a [b] that is a finite number or
    [-Infinity]. *)
Definition Math_max (a : Q) (b : number) : Q :=
  match b with
  | Fin q => Qmax a q
  | _ => a
  end.

(** [a > 0] *)
Definition positive (a : number) : bool :=
  match a with
  | Fin q => match sign q with Gt => true | _ => false end
  | PInf => true
  | _ => false
  end.

End JsNumber.

Import JsNumber.

(** ** Arrays *)

Module JsArray.
Section sort.
Context {A : Type}.

(** [after a b] is [comparator(a, b) > 0]: [a] goes behind [b]. *)
Variable after : A → A → bool.

Fixpoint insert (x : A) (l : list A) : list A :=
  match l with
  | [] => [x]
  | y :: l' => if after x y then y :: insert x l' else x :: l
  end.

(** [arr.sort(comparator)]: the sort is stable, and for a comparator that
    orders the elements consistently every stable sort gives the same array.
    A comparator result that is NaN counts as 0. *)
Fixpoint sort (l : list A) : list A :=
  match l with
  | [] => []
  | x :: l' => insert x (sort l')
  end.
End sort.

(** [arr.findIndex(p)] *)
Definition findIndex {A : Type} (p : A → bool) (l : list A) : Z :=
  match list_find (λ x, p x = true) l with
  | Some (i, _) => Z.of_nat i
  | None => -1
  end.

(** [arr.join(sep)] *)
Definition join (sep : string) (l : list string) : string := String.concat sep l.
End JsArray.

(** ** Values and completions *)

(** How a call ends: with a value, or by throwing. *)
Inductive error : Type := TypeError.

Inductive completion (A : Type) : Type :=
| Return (a : A)
| Throw (e : error).
Arguments Return {A} a.
Arguments Throw {A} e.

Global Instance completion_ret : MRet completion := @Return.
Global Instance completion_bind : MBind completion := λ A B f c,
  match c with
  | Return a => f a
  | Throw e => Throw e
  end.

(** The values of the fields of an object. *)
#[warnings="-register-all"]
Inductive value : Type :=
| VUndefined
| VNull
| VBool (b : bool)
| VNumber (n : number)
| VString (s : string)
| VDate (ms : Z)
| VArray (items : list value)
| VObject (fields : list (string * value)).

(** [job.k] for a field that holds a string or is missing, [undefined] or
    [null]; [None] in the latter cases. *)
Definition stringField (o : gmap string value) (k : string) : option string :=
  match o !! k with
  | Some (VString s) => Some s
  | _ => None
  end.

(** [job.k] for a field that holds a date or is missing, [undefined] or
    [null]; [None] in the latter cases. *)
Definition dateField (o : gmap string value) (k : string) : option Z :=
  match o !! k with
  | Some (VDate ms) => Some ms
  | _ => None
  end.

(** [job.k] for a field that holds a number; a missing field subtracts as
    NaN. *)
Definition numberField (o : gmap string value) (k : string) : number :=
  match o !! k with
  | Some (VNumber n) => n
  | _ => NaN
  end.

(** ** Skill extraction and the match score *)

Definition KNOWN_SKILLS : list string :=
  [ "javascript"; "typescript"; "node"; "react"; "vue"; "angular"; "express";
    "mongo"; "mongodb"; "sql"; "postgres"; "mysql"; "python"; "django";
    "flask"; "java"; "c#"; "go"; "ruby"; "php"; "aws"; "gcp"; "azure";
    "docker"; "kubernetes"; "terraform"; "ci"; "cd"; "git"; "testing"; "jest";
    "cypress"; "playwright"; "html"; "css"; "sass"; "less"; "graphql"; "rest" ].

(** [(text || "").toLowerCase()]; a missing text is [None]. *)
Definition normalize' (text : option string) : string :=
  toLowerCase (default EmptyString text).

Definition normalize (text : string) : string := normalize' (Some text).

(** [Array.from(new Set(arr))] *)
Definition uniq (arr : list string) : list string := JsSet.from arr.

Definition extractJobSkills (jobDescription : option string) : list string :=
  let text := normalize' jobDescription in
  foldl (fun found skill => if includes text skill then JsSet.add found skill else found)
        [] KNOWN_SKILLS.

(** The quotient [matched / jobSet.size] and its product with 100 are
    doubles.  [jobSet] is not empty, so the product is a number, not NaN. *)
Definition computeScore (jobSkills resumeSkills : list string) : Z :=
  if bool_decide (length jobSkills = 0%nat) || bool_decide (length resumeSkills = 0%nat)
  then 0
  else
    let jobSet := JsSet.from (normalize <$> jobSkills) in
    let resumeSet := JsSet.from (normalize <$> resumeSkills) in
    let matched :=
      foldl (fun matched skill =>
               if JsSet.has resumeSet skill then matched + 1 else matched) 0 jobSet in
    match mul (div (ofZ matched) (ofZ (JsSet.size jobSet))) (ofZ 100) with
    | Fin percentage => Z.max 0 (Z.min 100 (Math_round percentage))
    | PInf => 100
    | _ => 0
    end.

(** The score [computeScore] gives when [m] of [n] distinct job skills are
    among the skills of the resume:
    [Math.max(0, Math.min(100, Math.round((m / n) * 100)))]. *)
Definition percentage (m n : Z) : Z :=
  match mul (div (ofZ m) (ofZ n)) (ofZ 100) with
  | Fin percentage => Z.max 0 (Z.min 100 (Math_round percentage))
  | PInf => 100
  | _ => 0
  end.

(** Forty skills. *)
Definition fortySkills : list string := (λ i, "skill " +:+ pretty i) <$> seqZ 1 40.

(** ** The four factors of the ranking *)

(** A string argument as a condition: [undefined], [null] and [""] are falsy. *)
Definition truthy (o : option string) : bool :=
  match o with
  | Some (String _ _) => true
  | _ => false
  end.

(** The quotient of the two lengths and its product with 100 are doubles;
    the product is a finite number, from 0 to 100. *)
Definition calculateSkillMatch (jobDescription : option string)
    (resumeSkills : option (list string)) : Z :=
  if negb (truthy jobDescription) || negb (bool_decide (is_Some resumeSkills))
     || bool_decide (length (default [] resumeSkills) = 0%nat)
  then 0
  else
    let jobSkills := extractJobSkills jobDescription in
    if bool_decide (length jobSkills = 0%nat) then 50
    else
      let matchedSkills :=
        filter (λ skill,
                  existsb (λ userSkill,
                             includes (normalize userSkill) (normalize skill)
                             || includes (normalize skill) (normalize userSkill))
                          (default [] resumeSkills) = true)
               jobSkills in
      match mul (div (ofZ (Z.of_nat (length matchedSkills)))
                     (ofZ (Z.of_nat (length jobSkills))))
                (ofZ 100) with
      | Fin percentage => Math_round percentage
      | _ => 0
      end.

(** *** The required years *)

(** [/(\d+)\+?\s*years?\s+of\s+experience/i] at the start of [s]: the digits
    of group 1.  Every quantifier is followed by a character it cannot match,
    so giving back what a greedy quantifier took never leads to a match. *)
Definition matchYearsOfExperience (s : string) : option string :=
  let '(digits, r) := takeDigits s in
  if decide (digits = EmptyString) then None
  else
    let r := match r with String "+" r' => r' | _ => r end in
    r ← skipLiteralCI "year" (dropSpaces r);
    let r := match r with
             | String c r' => if decide (toLowerChar c = "s"%char) then r' else r
             | EmptyString => r
             end in
    r ← skipSpaces1 r;
    r ← skipLiteralCI "of" r;
    r ← skipSpaces1 r;
    _ ← skipLiteralCI "experience" r;
    Some digits.

(** [s.match(re)] without the [g] flag: the first position with a match. *)
Fixpoint firstMatch (re : string → option string) (s : string) : option string :=
  match re s with
  | Some g => Some g
  | None =>
      match s with
      | EmptyString => None
      | String _ s' => firstMatch re s'
      end
  end.

(** The first character of [s] satisfies [P]. *)
Definition headIs (P : ascii → bool) (s : string) : bool :=
  match s with
  | String c _ => P c
  | EmptyString => false
  end.

Fixpoint allDigits (s : string) : bool :=
  match s with
  | String c s' => isDigit c && allDigits s'
  | EmptyString => true
  end.

(** [text] is a string that [(\d+)\+?\s*years?\s+of\s+experience] matches,
    without regard to the case of the letters, and [digits] is its group 1. *)
Definition YearsOfExperience (digits text : string) : Prop :=
  ∃ plus ws1 year s ws2 of_ ws3 experience,
    text = digits +:+ plus +:+ ws1 +:+ year +:+ s +:+ ws2 +:+ of_ +:+ ws3 +:+ experience
    ∧ digits ≠ EmptyString ∧ allDigits digits = true
    ∧ (plus = EmptyString ∨ plus = "+")
    ∧ allSpaces ws1 = true
    ∧ toLowerCase year = "year"
    ∧ (s = EmptyString ∨ toLowerCase s = "s")
    ∧ ws2 ≠ EmptyString ∧ allSpaces ws2 = true
    ∧ toLowerCase of_ = "of"
    ∧ ws3 ≠ EmptyString ∧ allSpaces ws3 = true
    ∧ toLowerCase experience = "experience".





(** The parameter [yearsOfExperience] is a whole number of years.  The whole
    numbers are those below [2^53] in absolute value, where the doubles of
    the code are exact; this holds for the required years too. *)
Definition calculateExperienceFit (jobDescription : option string)
    (yearsOfExperience : Z) : completion Z :=
  match jobDescription with
  | None => Throw TypeError
  | Some description =>
      let yearMatch := firstMatch matchYearsOfExperience description in
      let requiredYears := from_option parseInt 0 yearMatch in
      if bool_decide (requiredYears = 0) then Return 75
      else if bool_decide (yearsOfExperience >= requiredYears) then Return 100
      else if bool_decide (yearsOfExperience >= requiredYears - 1) then Return 85
      else if bool_decide (yearsOfExperience >= requiredYears - 2) then Return 70
      else Return (Z.max 30 (100 - (requiredYears - yearsOfExperience) * 15))
  end.

(** [arr[i]] is [undefined] past the end of [arr], and [undefined === undefined]
    holds: the comparison of two elements is the comparison of two lookups. *)
Definition calculateLocationMatch (jobLocation userLocation : option string) : Z :=
  if negb (truthy jobLocation) || negb (truthy userLocation) then 50
  else
    let jobLoc := normalize' jobLocation in
    let userLoc := normalize' userLocation in
    if includes jobLoc "remote" || includes userLoc "remote" then 80
    else if bool_decide (jobLoc = userLoc) then 100
    else if bool_decide (splitOn "," jobLoc !! 0%nat = splitOn "," userLoc !! 0%nat)
         then 100
    else if bool_decide (splitOn "," jobLoc !! 1%nat = splitOn "," userLoc !! 1%nat)
         then 70
    else 40.

(** [Math.floor((now - posted) / (1000 * 60 * 60 * 24))]; a date is its time
    in milliseconds. *)
Definition daysSince (now posted : Z) : Z := (now - posted) `div` (1000 * 60 * 60 * 24).

(** [now] is the time [new Date()] gives; [jobPostedDate] is a date or
    missing.  The result is the rational number the double of the code stands
    for; [100 - daysSincePosted / 3] is at most 100 there, or [-Infinity]. *)
Definition calculateRecency (now : Z) (jobPostedDate : option Z) : Q :=
  match jobPostedDate with
  | None => 50%Q
  | Some posted =>
      let daysSincePosted := daysSince now posted in
      if bool_decide (daysSincePosted ≤ 7) then 100%Q
      else if bool_decide (daysSincePosted ≤ 30) then 85%Q
      else if bool_decide (daysSincePosted ≤ 60) then 70%Q
      else if bool_decide (daysSincePosted ≤ 90) then 50%Q
      else Math_max 20 (sub (ofZ 100) (div (ofZ daysSincePosted) (ofZ 3)))
  end.

(** ** Ranking *)

(** A field of a job that is missing, [undefined], [null], or a string
    (with [strings]) or a date (without). *)
Definition fieldOk (strings : bool) (v : option value) : bool :=
  match v with
  | None | Some VUndefined | Some VNull => true
  | Some (VString _) => strings
  | Some (VDate _) => negb strings
  | _ => false
  end.

(** The jobs [rankJobs] is written for: [description] and [location] are
    strings, [postedDate] is a date, and each of them may be missing. *)
Definition isJobDescriptor (job : gmap string value) : bool :=
  fieldOk true (job !! "description") && fieldOk true (job !! "location")
  && fieldOk false (job !! "postedDate").

(** The fields of a resume the service reads; [None] is a missing field. *)
Record Resume : Type := {
  summary : option string;
  parsedSkills : option (list string);
  yearsOfExperience : option Z;
}.

(** One entry per factor of the ranking. *)
Record Factors (A : Type) : Type := {
  skillMatch : A;
  experienceFit : A;
  location : A;
  recency : A;
}.
Arguments skillMatch {A} _.
Arguments experienceFit {A} _.
Arguments location {A} _.
Arguments recency {A} _.

Definition defaultWeights : Factors Q :=
  {| skillMatch := 0.4; experienceFit := 0.25; location := 0.2; recency := 0.15 |}%Q.

(** [{ ...defaults, ...customWeights }] *)
Definition mergeWeights (customWeights : Factors (option Q)) : Factors Q :=
  {| skillMatch := default (skillMatch defaultWeights) (skillMatch customWeights);
     experienceFit := default (experienceFit defaultWeights) (experienceFit customWeights);
     location := default (location defaultWeights) (location customWeights);
     recency := default (recency defaultWeights) (recency customWeights) |}.

(** [Object.values(weights).reduce((a, b) => a + b, 0)]; a weight is given
    by the decimal number written and is the double nearest to it. *)
Definition weightSum (weights : Factors Q) : number :=
  add (add (add (add (ofZ 0) (binary64 (skillMatch weights)))
                (binary64 (experienceFit weights)))
           (binary64 (location weights)))
      (binary64 (recency weights)).

Definition normalizeWeights (weights : Factors Q) : Factors number :=
  let sum := weightSum weights in
  {| skillMatch := div (binary64 (skillMatch weights)) sum;
     experienceFit := div (binary64 (experienceFit weights)) sum;
     location := div (binary64 (location weights)) sum;
     recency := div (binary64 (recency weights)) sum |}.

(** The empty object of overrides. *)
Definition noOverrides : Factors (option Q) :=
  {| skillMatch := None; experienceFit := None; location := None; recency := None |}.

(** The overrides that set every weight to 0. *)
Definition zeroWeights : Factors (option Q) :=
  {| skillMatch := Some 0%Q; experienceFit := Some 0%Q;
     location := Some 0%Q; recency := Some 0%Q |}.

(** The sum of the four effective weights. *)
Definition totalWeight (w : Factors number) : number :=
  add (add (add (skillMatch w) (experienceFit w)) (location w)) (recency w).

(** [/(\d+)\+?\s*years?/] at the start of [s]; no [i] flag. *)
Definition matchYears (s : string) : option string :=
  let '(digits, r) := takeDigits s in
  if decide (digits = EmptyString) then None
  else
    let r := match r with String "+" r' => r' | _ => r end in
    if startsWith (dropSpaces r) "year" then Some digits else None.

(** [totalScore]: the rounded weighted sum of the four scores. *)
Definition weightedScore (w : Factors number) (skillScore expScore locScore : Z)
    (recScore : Q) : number :=
  round (add (add (add (mul (ofZ skillScore) (skillMatch w))
                       (mul (ofZ expScore) (experienceFit w)))
                  (mul (ofZ locScore) (location w)))
             (mul (Fin recScore) (recency w))).

(** The array [explanations].  The gap of experience reads
    [job.description] itself, not [job.description || ""]. *)
Definition explain (now : Z) (job : gmap string value) (yearsOfExp : Z)
    (skillScore expScore locScore : Z) (recScore : Q) : completion (list string) :=
  let skillNote :=
    if bool_decide (80 ≤ skillScore)
    then "Strong skill match (" +:+ pretty skillScore
         +:+ "% of job skills found in your resume)"
    else if bool_decide (60 ≤ skillScore)
    then "Good skill match (" +:+ pretty skillScore +:+ "% of job skills)"
    else if bool_decide (40 ≤ skillScore)
    then "Some relevant skills (" +:+ pretty skillScore +:+ "%)"
    else "Limited skill overlap (" +:+ pretty skillScore +:+ "%)" in
  expNote ←
    (if bool_decide (90 ≤ expScore)
     then Return "Your experience meets or exceeds job requirements"
     else if bool_decide (70 ≤ expScore)
     then Return "Your experience is close to job requirements"
     else match stringField job "description" with
          | None => Throw TypeError
          | Some description =>
              let required := from_option parseInt 0 (firstMatch matchYears description) in
              Return ("Experience gap of " +:+ pretty (Z.abs (yearsOfExp - required))
                      +:+ " years")
          end);
  let locNote :=
    if bool_decide (locScore = 100) then ["Perfect location match"]
    else if bool_decide (70 ≤ locScore) then ["Good location fit"]
    else if bool_decide (40 ≤ locScore) then ["Location may require relocation"]
    else [] in
  let recNote :=
    if Qle_bool 85 recScore then ["Recently posted - high priority"]
    else if negb (Qle_bool 40 recScore)
    then ["Posted "
          +:+ from_option (λ posted, pretty (daysSince now posted))
                          "NaN" (dateField job "postedDate")
          +:+ " days ago"]
    else [] in
  Return ([skillNote; expNote] ++ locNote ++ recNote).

(** An object with the four keys of the ranking. *)
Definition factorsObject (f : Factors number) : value :=
  VObject [("skillMatch", VNumber (skillMatch f));
           ("experienceFit", VNumber (experienceFit f));
           ("location", VNumber (location f));
           ("recency", VNumber (recency f))].

(** The fields [rankJobs] adds to a job or overwrites. *)
Definition rankingFields : list string :=
  ["rankingScore"; "scoreBreakdown"; "weights"; "explanation"; "rank"].

(** The callback of the first [map] of [rankJobs], for a job that is a job
    descriptor. *)
Definition scoreJob (now : Z) (normalizedWeights : Factors number)
    (resumeSkills : list string) (yearsOfExp : Z) (userLocation : option string)
    (job : gmap string value) : completion (gmap string value) :=
  let description := Some (default EmptyString (stringField job "description")) in
  let skillScore := calculateSkillMatch description (Some resumeSkills) in
  expScore ← calculateExperienceFit description yearsOfExp;
  let locScore :=
    calculateLocationMatch (Some (default EmptyString (stringField job "location")))
                           userLocation in
  let recScore := calculateRecency now (dateField job "postedDate") in
  let totalScore := weightedScore normalizedWeights skillScore expScore locScore recScore in
  explanations ← explain now job yearsOfExp skillScore expScore locScore recScore;
  let explanation := JsArray.join " • " explanations in
  Return (<["rank" := VNumber (ofZ 0)]>
          (<["explanation" := VString explanation]>
          (<["weights" := factorsObject normalizedWeights]>
          (<["scoreBreakdown" :=
               factorsObject {| skillMatch := ofZ skillScore;
                                experienceFit := ofZ expScore;
                                location := ofZ locScore;
                                recency := Fin recScore |}]>
          (<["rankingScore" := VNumber totalScore]> job))))).

(** [(a, b) => b.rankingScore - a.rankingScore], as the test [> 0]. *)
Definition byRankingScore (a b : gmap string value) : bool :=
  positive (sub (numberField b "rankingScore") (numberField a "rankingScore")).

(** The callback of the second [map] of [rankJobs]. *)
Definition setRank (index : nat) (job : gmap string value) : gmap string value :=
  <["rank" := VNumber (ofZ (Z.of_nat index + 1))]> job.

(** [userLocation] is [Some ""] when the caller leaves it out (the default
    of the parameter) and [None] when the caller passes [null].
    [customWeights] holds numbers under the four keys of the ranking, each
    present or not, as the decimal numbers written. *)
Definition rankJobs (now : Z) (jobs : list (gmap string value)) (userResume : Resume)
    (userLocation : option string) (customWeights : Factors (option Q))
  : completion (list (gmap string value)) :=
  if bool_decide (length jobs = 0%nat) then Return []
  else
    let weights := mergeWeights customWeights in
    let normalizedWeights := normalizeWeights weights in
    let resumeSkills := default [] (parsedSkills userResume) in
    let yearsOfExp := default 0 (yearsOfExperience userResume) in
    scored ← mapM (scoreJob now normalizedWeights resumeSkills yearsOfExp userLocation) jobs;
    Return (imap setRank (JsArray.sort byRankingScore scored)).

(** *** The order of the ranked list *)

(** The elements of an array with their positions. *)
Definition indexedFrom {A : Type} (start : nat) (l : list A) : list (nat * A) :=
  zip (seq start (length l)) l.

(** The comparator [after] on elements with their positions. *)
Definition afterIndexed {A : Type} (after : A → A → bool) (p q : nat * A) : bool :=
  after p.2 q.2.

(** [p] may stand before [q]: [p] need not go behind [q], and [p] came
    first when [q] need not go behind [p] either. *)
Definition inOrder {A : Type} (after : A → A → bool) (p q : nat * A) : Prop :=
  after p.2 q.2 = false ∧ (after q.2 p.2 = false → (p.1 < q.1)%nat).

(** [a > b] on numbers; it fails when [a - b] is NaN. *)
Definition greater (a b : number) : bool := positive (sub a b).


Definition rankingScoreOf (job : gmap string value) : number :=
  numberField job "rankingScore".

(** The ranking scores of the jobs, in the order of the jobs: the
    [rankingScore] the first [map] of [rankJobs] gives each job. *)
Definition rankingScores (now : Z) (jobs : list (gmap string value))
    (userResume : Resume) (userLocation : option string)
    (customWeights : Factors (option Q)) : list number :=
  match mapM (scoreJob now (normalizeWeights (mergeWeights customWeights))
                (default [] (parsedSkills userResume))
                (default 0 (yearsOfExperience userResume)) userLocation) jobs with
  | Return scored => rankingScoreOf <$> scored
  | Throw _ => []
  end.

Definition isNaN (a : number) : bool :=
  match a with
  | NaN => true
  | _ => false
  end.

(** The numbers can be compared with one another: none of them is NaN, or
    all of them are, and [a - b] is NaN for all of them. *)
Definition comparable (scores : list number) : bool :=
  forallb (λ a, negb (isNaN a)) scores || forallb isNaN scores.

(** A whole number or an infinity: what [Math.round] gives, NaN apart. *)
Definition isWhole (a : number) : Prop := a = PInf ∨ a = NInf ∨ ∃ z, a = ofZ z.

(** The place of a whole number or an infinity in the order of the numbers. *)
Definition level (a : number) : Z * Z :=
  match a with
  | NInf => (-1, 0)
  | Fin q => (0, Qfloor q)
  | PInf => (1, 0)
  | NaN => (0, 0)
  end.

(** An effective weight that is finite and not negative. *)
Definition properWeight (w : number) : bool :=
  match w with
  | Fin q => Qle_bool 0 q
  | _ => false
  end.

(** The four effective weights are finite and not negative, as those of the
    default weights are. *)
Definition properWeights (w : Factors number) : bool :=
  properWeight (skillMatch w) && properWeight (experienceFit w)
  && properWeight (location w) && properWeight (recency w).

(** The four effective weights are finite and not negative, and sum to at
    most [1 + 2^-30]: to 1 up to the rounding of the quotients, as those of
    the default weights do. *)
Definition unitWeights (w : Factors number) : bool :=
  match skillMatch w, experienceFit w, location w, recency w with
  | Fin a, Fin b, Fin c, Fin d =>
      Qle_bool 0 a && Qle_bool 0 b && Qle_bool 0 c && Qle_bool 0 d
      && Qle_bool (a + b + c + d) (1 + pow2 (-30))
  | _, _, _, _ => false
  end.

(** *** An example of a ranking

    Three jobs and a candidate, ranked by the skill match alone: jobs A and B
    name five skills of which the candidate has four, job C names five of
    which the candidate has three. *)

Definition exampleJob (title description : string) : gmap string value :=
  {[ "title" := VString title; "description" := VString description ]}.

Definition jobA : gmap string value :=
  exampleJob "A" "React, Node, Python, Docker and AWS".
Definition jobB : gmap string value :=
  exampleJob "B" "React, Node, Python, Docker and AWS".
Definition jobC : gmap string value :=
  exampleJob "C" "React, Node, Python, GCP and Azure".

Definition exampleResume : Resume :=
  {| summary := None;
     parsedSkills := Some ["React"; "Node"; "Python"; "Docker"];
     yearsOfExperience := Some 3 |}.

Definition skillOnly : Factors (option Q) :=
  {| skillMatch := Some 1%Q; experienceFit := Some 0%Q;
     location := Some 0%Q; recency := Some 0%Q |}.

(** Twice the skill match and three times the recency. *)
Definition skillAndRecency : Factors (option Q) :=
  {| skillMatch := Some 2%Q; experienceFit := Some 0%Q;
     location := Some 0%Q; recency := Some 3%Q |}.

(** The titles and the ranking scores of a ranked list. *)
Definition titlesAndScores (ranked : completion (list (gmap string value)))
  : list (option value * number * option value) :=
  match ranked with
  | Return jobs => (λ job, (job !! "title", rankingScoreOf job, job !! "rank")) <$> jobs
  | Throw _ => []
  end.

(** ** Responses *)

(** [formatAIResponse]: the fourth argument its callers pass is not a parameter
    of the function and is dropped.  [timestamp] is the time of the call. *)
Record AIResponse (D : Type) : Type := {
  type : string;
  message : string;
  data : D;
  timestamp : Z;
  suggestedActions : list string;
  context : list (string * value);
}.
Arguments type {D} _.
Arguments message {D} _.
Arguments data {D} _.
Arguments timestamp {D} _.
Arguments suggestedActions {D} _.
Arguments context {D} _.

Definition formatAIResponse {D : Type} (now : Z) (type : string) (data : D)
    (message : string) : AIResponse D :=
  {| type := type; message := message; data := data; timestamp := now;
     suggestedActions := []; context := [] |}.

(** ** Remodeling a resume *)

Record SkillsChanges : Type := {
  original : list string;
  remodeled : list string;
  reordered : bool;
  highlighted : list string;
  added : list string;
  removed : list string;
}.

Record Changes : Type := {
  skillsReordered : bool;
  skillsHighlighted : list string;
  sectionsReordered : list string;
}.

(** The summary and the skills of the response of [remodelResume]; the
    experience entries are copied field by field and are left out. *)
Record Remodel : Type := {
  remodeledSummary : string;
  originalSkills : list string;
  remodeledSkills : list string;
  skillsChanges : SkillsChanges;
  sectionsOrder : list string * list string;
  diffSummary : string;
}.

Definition generateChangeSummary (changes : Changes) : string :=
  let parts :=
    (if skillsReordered changes
     then ["Prioritized " +:+ pretty (Z.of_nat (length (skillsHighlighted changes)))
           +:+ " job-relevant skills"]
     else [])
    ++ (if bool_decide (0 < length (sectionsReordered changes))%nat
        then ["Reordered sections for ATS optimization"]
        else []) in
  if bool_decide (length parts = 0%nat)
  then "No changes needed - resume already optimized"
  else JsArray.join "; " parts.

(** The key of the comparator of [remodelResume]: the place of the skill
    among the job skills, 999 when it is not one of them. *)
Definition jobSkillIndex (jobSkills : list string) (a : string) : Z :=
  let ai := JsArray.findIndex (λ s, bool_decide (normalize s = normalize a)) jobSkills in
  if bool_decide (ai = -1) then 999 else ai.

Definition byJobSkill (jobSkills : list string) (a b : string) : bool :=
  bool_decide (jobSkillIndex jobSkills a - jobSkillIndex jobSkills b > 0).

(** [parsedSkills] is [None] when the field is not an array; the default of
    [jobDescription] is [""]. *)
Definition remodelResume (now : Z) (resume : Resume) (jobDescription : option string)
  : AIResponse Remodel :=
  let summary := trim (default EmptyString (summary resume)) in
  let originalSkills := from_option uniq [] (parsedSkills resume) in
  let skills := originalSkills in
  let jobSkills := extractJobSkills jobDescription in
  let orderedSkills :=
    if bool_decide (length jobSkills ≠ 0%nat)
    then JsArray.sort (byJobSkill jobSkills) skills
    else skills in
  let skillsReordered := bool_decide (orderedSkills ≠ originalSkills) in
  let skillsHighlighted :=
    if skillsReordered
    then filter (λ s, normalize s ∈ normalize <$> orderedSkills) jobSkills
    else [] in
  let sectionsReordered :=
    if bool_decide (0 < length jobSkills)%nat
    then ["summary"; "skills (job-prioritized)"; "experience"]
    else ["summary"; "skills"; "experience"] in
  let changes := {| skillsReordered := skillsReordered;
                    skillsHighlighted := skillsHighlighted;
                    sectionsReordered := sectionsReordered |} in
  formatAIResponse now "remodel"
    {| remodeledSummary := summary;
       originalSkills := originalSkills;
       remodeledSkills := orderedSkills;
       skillsChanges := {| original := originalSkills;
                           remodeled := orderedSkills;
                           reordered := skillsReordered;
                           highlighted := skillsHighlighted;
                           added := [];
                           removed := [] |};
       sectionsOrder := (["summary"; "skills"; "experience"], sectionsReordered);
       diffSummary := generateChangeSummary changes |}
    "Resume reordered for ATS optimization using existing data only.".

(** ** Improving an answer *)

Record Improvement : Type := {
  originalText : string;
  improved : string;
  mentionedJobSkills : list string;
  confidence : Z;
  changes : list string;
  note : string;
}.

Inductive ImproveResult : Type :=
| NoImprovement (improved : string) (confidence : Z) (changes : list string)
    (note : string)
| Improved (response : AIResponse Improvement).

(** The variables [improved], [changes] and [confidence] of [improveAnswer]. *)
Record Draft : Type := {
  draftText : string;
  draftChanges : list string;
  draftConfidence : Z;
}.

(** Step 1: the job skills the answer mentions. *)
Definition mentionedSkills (answer : string) (jobDescription : option string)
  : list string :=
  let jobSkills := extractJobSkills jobDescription in
  let answerLower := normalize answer in
  filter (λ skill, includes answerLower (normalize skill) = true) jobSkills.

Definition baseConfidence (mentioned : list string) : Z :=
  let n := Z.of_nat (length mentioned) in
  if bool_decide (n > 0) then 50 + Z.min 20 (n * 5) else 50.

(** Step 2: the sentences that mention a job skill first. *)
Definition reorderSentences (answer : string) (mentioned : list string) (d : Draft)
  : Draft :=
  let sentences := splitSentences answer in
  if bool_decide (1 < length sentences)%nat then
    let skillSentences :=
      filter (λ s, existsb (λ skill, includes (normalize s) (normalize skill)) mentioned
                   = true) sentences in
    let otherSentences := filter (λ s, s ∉ skillSentences) sentences in
    if bool_decide (0 < length skillSentences)%nat
       && bool_decide (length skillSentences < length sentences)%nat
    then {| draftText := joinSpace (skillSentences ++ otherSentences);
            draftChanges :=
              draftChanges d
              ++ ["Reordered sentences to highlight "
                  +:+ pretty (Z.of_nat (length mentioned))
                  +:+ " job-relevant skill(s) first"];
            draftConfidence := draftConfidence d + 10 |}
    else d
  else d.

(** Step 3: white space and punctuation. *)
Definition cleanUp (answer : string) (d : Draft) : Draft :=
  let improved := spaceAfterTerminal (collapseSpaces (trim (draftText d))) in
  {| draftText := improved;
     draftChanges :=
       if bool_decide (improved ≠ answer)
       then draftChanges d ++ ["Cleaned up formatting and spacing"]
       else draftChanges d;
     draftConfidence := draftConfidence d |}.

(** Step 4: the confidence, by the number of job skills mentioned. *)
Definition assessRelevance (mentioned : list string) (d : Draft) : Draft :=
  if bool_decide (length mentioned = 0%nat)
  then {| draftText := draftText d;
          draftChanges := draftChanges d ++ ["No job skills mentioned - improvement limited"];
          draftConfidence := Z.max 30 (draftConfidence d - 20) |}
  else if bool_decide (3 ≤ length mentioned)%nat
  then {| draftText := draftText d;
          draftChanges := draftChanges d ++ ["Answer is highly relevant to job description"];
          draftConfidence := Z.min 95 (draftConfidence d + 15) |}
  else d.

(** The state of [improveAnswer] before the safety check. *)
Definition draftAnswer (answer : string) (jobDescription : option string) : Draft :=
  let mentioned := mentionedSkills answer jobDescription in
  assessRelevance mentioned
    (cleanUp answer
       (reorderSentences answer mentioned
          {| draftText := answer; draftChanges := [];
             draftConfidence := baseConfidence mentioned |})).

Definition allWordsExist (answer improved : string) : bool :=
  let originalWords := JsSet.from (splitSpaces (normalize answer)) in
  let improvedWords := JsSet.from (splitSpaces (normalize improved)) in
  forallb (λ word, bool_decide (String.length word < 2)%nat
                   || JsSet.has originalWords word)
          improvedWords.

(** The safety check: the draft is given up when it has a word the answer
    does not have. *)
Definition safetyCheck (answer : string) (d : Draft) : Draft :=
  if negb (allWordsExist answer (draftText d))
  then {| draftText := answer;
          draftChanges := draftChanges d ++ ["Safety check: minimal modification applied"];
          draftConfidence := Z.max 20 (draftConfidence d - 30) |}
  else d.

Definition noChanges (d : Draft) : Draft :=
  if bool_decide (length (draftChanges d) = 0%nat)
  then {| draftText := draftText d;
          draftChanges := draftChanges d ++ ["Answer is already well-optimized"];
          draftConfidence := Z.min 100 (draftConfidence d + 10) |}
  else d.

(** [originalAnswer] is [None] when the argument is not a string. *)
Definition improveAnswer (now : Z) (originalAnswer jobDescription : option string)
  : ImproveResult :=
  if negb (truthy originalAnswer)
  then NoImprovement (default EmptyString originalAnswer) 0 [] "No improvement needed"
  else
    let answer := trim (default EmptyString originalAnswer) in
    let d := noChanges (safetyCheck answer (draftAnswer answer jobDescription)) in
    Improved
      (formatAIResponse now "improvement"
         {| originalText := answer;
            improved := draftText d;
            mentionedJobSkills := mentionedSkills answer jobDescription;
            confidence := Z.max 0 (Z.min 100 (draftConfidence d));
            changes := draftChanges d;
            note := "Tone and relevance improved without adding new claims" |}
         ("Answer improved. Confidence: " +:+ pretty (draftConfidence d) +:+ "%")).

(** The words of a text: the pieces between white space, in lower case. *)
Definition tokens (text : string) : list string := splitSpaces (toLowerCase text).

(** Every word of [improved] with two characters or more is a word of the
    trimmed [original]. *)
Definition tokenSubset (original improved : string) : Prop :=
  ∀ word, word ∈ tokens improved → (2 ≤ String.length word)%nat →
          word ∈ tokens (trim original).

(** ** Analysing and explaining a match *)

(** An entry of the experience of a resume; [None] is a missing field. *)
Record Role : Type := {
  title : option string;
  company : option string;
  startDate : option string;
  endDate : option string;
  bullets : option (list string);
}.

(** The fields of a resume that [analyzeJob] and [explainMatch] read:
    [originalParsedSkills] is an array of strings, [parsedExperience] an
    array of roles, and each is [None] when the field is not an array. *)
Record ResumeProfile : Type := {
  originalParsedSkills : option (list string);
  parsedExperience : option (list Role);
}.

Module Analysis.
Record t : Type := {
  score : Z;
  matchedSkills : list string;
  missingSkills : list string;
  jobSkills : list string;
  resumeSkills : list string;
}.
End Analysis.

(** The suggestions [analyzeJob] collects are given to [formatAIResponse] as
    a fourth argument and are not part of the response. *)
Definition analyzeJob (now : Z) (jobDescription : option string)
    (resume : ResumeProfile) : AIResponse Analysis.t :=
  let jobSkills := extractJobSkills jobDescription in
  let resumeSkills := default [] (originalParsedSkills resume) in
  let normalizedResume := normalize <$> resumeSkills in
  let matchedSkills := filter (λ s, normalize s ∈ normalizedResume) jobSkills in
  let missingSkills := filter (λ s, normalize s ∉ normalizedResume) jobSkills in
  let score := computeScore jobSkills resumeSkills in
  formatAIResponse now "analysis"
    {| Analysis.score := score;
       Analysis.matchedSkills := uniq matchedSkills;
       Analysis.missingSkills := uniq missingSkills;
       Analysis.jobSkills := uniq jobSkills;
       Analysis.resumeSkills := uniq resumeSkills |}
    ("Match score: " +:+ pretty score +:+ "%. Found "
     +:+ pretty (Z.of_nat (length matchedSkills)) +:+ " matching skills.").

Module Explanation.
Record t : Type := {
  explanation : string;
  score : Z;
  matchedSkills : list string;
  missingSkills : list string;
}.
End Explanation.

(** [arr.filter(Boolean)] on strings that may be missing. *)
Definition filterBoolean (arr : list (option string)) : list string :=
  omap (λ o, if truthy o then o else None) arr.

(** The first sentence of the explanation. *)
Definition matchLevel (score : Z) : string :=
  if bool_decide (70 ≤ score)
  then "Great match! Your resume aligns well with this position."
  else if bool_decide (40 ≤ score)
  then "Moderate match. You have some relevant skills for this role."
  else "Limited match based on the skills detected.".

Definition explainMatch (now : Z) (jobDescription : option string)
    (resume : ResumeProfile) : AIResponse Explanation.t :=
  let analysis := analyzeJob now jobDescription resume in
  let score := Analysis.score (data analysis) in
  let matchedSkills := Analysis.matchedSkills (data analysis) in
  let missingSkills := Analysis.missingSkills (data analysis) in
  let matched :=
    if bool_decide (0 < length matchedSkills)%nat
    then ["Your resume shows experience with: "
          +:+ JsArray.join ", " matchedSkills +:+ "."]
    else [] in
  let missing :=
    if bool_decide (0 < length missingSkills)%nat
       && bool_decide (length missingSkills ≤ 5)%nat
    then ["The job mentions: " +:+ JsArray.join ", " missingSkills
          +:+ ", which aren't highlighted in your current resume."]
    else if bool_decide (5 < length missingSkills)%nat
    then ["The job mentions several skills ("
          +:+ JsArray.join ", " (take 3 missingSkills)
          +:+ ", and more) that aren't currently highlighted."]
    else [] in
  let exp := default [] (parsedExperience resume) in
  let background :=
    if bool_decide (0 < length exp)%nat then
      let titles := filterBoolean (title <$> exp) in
      if bool_decide (0 < length titles)%nat
      then ["Based on your background as " +:+ default EmptyString (head titles)
            +:+ (if bool_decide (1 < length titles)%nat
                 then " and related roles" else EmptyString)
            +:+ "."]
      else []
    else [] in
  let explanation := JsArray.join " " ([matchLevel score] ++ matched ++ missing ++ background) in
  formatAIResponse now "explanation"
    {| Explanation.explanation := explanation;
       Explanation.score := score;
       Explanation.matchedSkills := matchedSkills;
       Explanation.missingSkills := missingSkills |}
    explanation.

(** ** Refining application answers *)

(** A value as a condition: [undefined], [null], [false], [0], [NaN] and
    [""] are falsy. *)
Definition toBoolean (v : value) : bool :=
  match v with
  | VUndefined | VNull => false
  | VBool b => b
  | VNumber (Fin q) => negb (Qeq_bool q 0)
  | VNumber NaN => false
  | VNumber _ => true
  | VString s => truthy (Some s)
  | VDate _ | VArray _ | VObject _ => true
  end.

(** [normalize(v || "")] for a value [v] of any type: a truthy value that is
    not a string has no method [toLowerCase], and the call throws. *)
Definition normalizeValue (v : value) : completion string :=
  if toBoolean v then
    match v with
    | VString s => Return (normalize s)
    | _ => Throw TypeError
    end
  else Return (normalize EmptyString).

(** A plain object is the list of its own properties in the order of
    [Object.keys]; every key occurs once, and no key is [__proto__] (an
    assignment to that key sets no own property). *)
Definition isPlainObject (o : list (string * value)) : Prop :=
  NoDup o.*1 ∧ "__proto__" ∉ o.*1.

(** [o[k]] *)
Fixpoint getProperty (o : list (string * value)) (k : string) : value :=
  match o with
  | [] => VUndefined
  | (k', v) :: o' => if decide (k' = k) then v else getProperty o' k
  end.

(** [o[k] = v] *)
Fixpoint setProperty (o : list (string * value)) (k : string) (v : value)
  : list (string * value) :=
  match o with
  | [] => [(k, v)]
  | (k', v') :: o' =>
      if decide (k' = k) then (k', v) :: o' else (k', v') :: setProperty o' k v
  end.

(** [arr.sort(comparator)] for a comparator that may throw: the sort ends
    with the first exception.  With two elements or more every element is
    given to the comparator at least once, whatever the order of the
    comparisons. *)
Module SortWith.
Section sort.
Context {A : Type}.
Variable after : A → A → completion bool.

Fixpoint insert (x : A) (l : list A) : completion (list A) :=
  match l with
  | [] => Return [x]
  | y :: l' =>
      behind ← after x y;
      if behind : bool then (rest ← insert x l'; Return (y :: rest))
      else Return (x :: l)
  end.

Fixpoint sort (l : list A) : completion (list A) :=
  match l with
  | [] => Return []
  | x :: l' => sorted ← sort l'; insert x sorted
  end.
End sort.
End SortWith.

Module Refined.
Record t : Type := {
  orderedKeys : list string;
  answers : list (string * value);
  jobSkills : list string;
  note : string;
}.
End Refined.

(** [typeof v === "string" ? v.trim() : v] *)
Definition trimAnswer (v : value) : value :=
  match v with
  | VString s => VString (trim s)
  | _ => v
  end.

(** The comparator of [refineApplicationAnswers], as the test [> 0]. *)
Definition byJobSkillOverlap (normalizedJobSkills : list string)
    (refined : list (string * value)) (a b : string) : completion bool :=
  aval ← normalizeValue (getProperty refined a);
  bval ← normalizeValue (getProperty refined b);
  let aScore := if existsb (λ s, includes aval s) normalizedJobSkills then 1 else 0 in
  let bScore := if existsb (λ s, includes bval s) normalizedJobSkills then 1 else 0 in
  Return (bool_decide (bScore - aScore > 0)).

(** [answers] is [None] when the argument is missing or [null]. *)
Definition refineApplicationAnswers (answers : option (list (string * value)))
    (jobDescription : option string) : completion Refined.t :=
  let jobSkills := extractJobSkills jobDescription in
  let normalizedJobSkills := normalize <$> jobSkills in
  let keys := (default [] answers).*1 in
  let refined :=
    foldl (λ refined key,
             setProperty refined key (trimAnswer (getProperty (default [] answers) key)))
          [] keys in
  orderedKeys ← SortWith.sort (byJobSkillOverlap normalizedJobSkills refined) keys;
  Return {| Refined.orderedKeys := orderedKeys;
            Refined.answers := refined;
            Refined.jobSkills := jobSkills;
            Refined.note := "Answers are trimmed and reordered by overlap with job skills; no new answers or claims added." |}.

(** The text of an answer that the comparator reads after the trimming. *)
Definition answerText (v : value) : string :=
  match v with
  | VString s => trim s
  | _ => EmptyString
  end.

(** The answers the comparator accepts: strings and falsy values. *)
Definition isTextOrFalsy (v : value) : bool :=
  match v with
  | VString _ => true
  | _ => negb (toBoolean v)
  end.

(** ** The routes that call the service *)

(** [POST /remodel-preview]: the list of changes shown with the preview,
    from the response of [remodelResume]. *)
Definition changeList (result : Remodel) : list string :=
  let reorderedNotes :=
    if reordered (skillsChanges result)
    then ["✓ Reordered "
          +:+ pretty (Z.of_nat (length (highlighted (skillsChanges result))))
          +:+ " job-relevant skills to the top";
          "  Highlighted: " +:+ JsArray.join ", " (highlighted (skillsChanges result))]
    else [] in
  let sectionNotes :=
    if bool_decide (JsArray.join "," (sectionsOrder result).1
                    ≠ JsArray.join "," (sectionsOrder result).2)
    then ["✓ Optimized section order for ATS scanning"]
    else [] in
  let changes := reorderedNotes ++ sectionNotes in
  (if bool_decide (length changes = 0%nat)
   then ["✓ No changes needed - your resume is already well-structured"]
   else changes)
  ++ ["• No skills added or removed";
      "• No experience fabricated";
      "• Only reordering of existing content"].

(** [a >= b] *)
Definition geq (a b : number) : bool :=
  match a, b with
  | NaN, _ | _, NaN => false
  | PInf, _ | _, NInf => true
  | NInf, _ | _, PInf => false
  | Fin x, Fin y => Qle_bool y x
  end.

(** [Object.keys(customWeights).length === 0] *)
Definition noKeys (customWeights : Factors (option Q)) : bool :=
  match skillMatch customWeights, experienceFit customWeights,
        location customWeights, recency customWeights with
  | None, None, None, None => true
  | _, _, _, _ => false
  end.

(** [GET /jobs] for a user with a resume: the jobs found are ranked, the
    ranked jobs below the minimum score are removed, and the list is sorted
    again when no weight was given.  [userLocation] is [req.user.location],
    [customWeights] holds the weights given in the query, each the decimal
    number [parseFloat] reads, and [minScore] is [Number(req.query.minScore)], or [None] when
    the query has no minimum score. *)
Definition rankedForUser (now : Z) (jobs : list (gmap string value)) (resume : Resume)
    (userLocation : option string) (customWeights : Factors (option Q))
    (minScore : option number) : completion (list (gmap string value)) :=
  ranked ← rankJobs now jobs resume
             (Some (default EmptyString userLocation)) customWeights;
  let filtered :=
    match minScore with
    | Some min => filter (λ job, geq (rankingScoreOf job) min = true) ranked
    | None => ranked
    end in
  Return (if noKeys customWeights then JsArray.sort byRankingScore filtered
          else filtered).

(** [POST /improve-answer]: the improved answer is stored as a new version
    of the answer when the confidence is 50 or more and the text differs
    from the stored text. *)
Definition applied (improvement : Improvement) (currentText : string) : bool :=
  bool_decide (50 ≤ confidence improvement)
  && bool_decide (improved improvement ≠ currentText).

(** ** Validation of a request body (securityMiddleware.js) *)

(** The rules of a field that the routes give: [required], [type],
    [minLength], [maxLength] and [enum] (an array of strings); a rule that is
    not given is [None] ([false] for [required]).  No route gives a
    [pattern]. *)
Module Rules.
Record t : Type := {
  required : bool;
  type : option string;
  minLength : option Z;
  maxLength : option Z;
  enum : option (list string);
}.
End Rules.

(** [typeof v] *)
Definition typeOf (v : value) : string :=
  match v with
  | VUndefined => "undefined"
  | VBool _ => "boolean"
  | VNumber _ => "number"
  | VString _ => "string"
  | VNull | VDate _ | VArray _ | VObject _ => "object"
  end.

(** [value === undefined || value === null]; a missing field reads as
    [undefined]. *)
Definition isNullish (value : option value) : bool :=
  match value with
  | None | Some VUndefined | Some VNull => true
  | Some _ => false
  end.

(** A length of the rules as a condition: a rule that is not given and the
    number 0 are falsy. *)
Definition given (n : option Z) : bool :=
  match n with
  | Some n => negb (n =? 0)
  | None => false
  end.

(** The checks of one field: the message of the error thrown, or [None]
    when the field passes. *)
Definition validateField (field : string) (rules : Rules.t) (value : option value)
  : option string :=
  if Rules.required rules
     && (isNullish value
         || match value with Some (VString EmptyString) => true | _ => false end)
  then Some (field +:+ " is required")
  else if isNullish value then None
  else
    let v := default VUndefined value in
    let length := match v with VString s => Z.of_nat (String.length s) | _ => 0 end in
    let isString := bool_decide (typeOf v = "string") in
    if bool_decide (Rules.type rules = Some "string") && negb isString
    then Some (field +:+ " must be a string")
    else if bool_decide (Rules.type rules = Some "number")
            && negb (bool_decide (typeOf v = "number"))
    then Some (field +:+ " must be a number")
    else if bool_decide (Rules.type rules = Some "boolean")
            && negb (bool_decide (typeOf v = "boolean"))
    then Some (field +:+ " must be a boolean")
    else if given (Rules.minLength rules) && isString
            && bool_decide (length < default 0 (Rules.minLength rules))
    then Some (field +:+ " must be at least "
               +:+ pretty (default 0 (Rules.minLength rules)) +:+ " characters")
    else if given (Rules.maxLength rules) && isString
            && bool_decide (default 0 (Rules.maxLength rules) < length)
    then Some (field +:+ " must be at most "
               +:+ pretty (default 0 (Rules.maxLength rules)) +:+ " characters")
    else match Rules.enum rules with
         | Some allowed =>
             if match v with
                | VString s => bool_decide (s ∈ allowed)
                | _ => false
                end
             then None
             else Some (field +:+ " must be one of: " +:+ JsArray.join ", " allowed)
         | None => None
         end.

(** [validateInput(schema)] on a request with the body [body] ([None] when
    the request has none): the message of the error thrown at the first
    field that fails, in the order of the schema, or [None] when the
    request is passed on. *)
Definition validateInput (schema : list (string * Rules.t))
    (body : option (gmap string value)) : option string :=
  let body := default ∅ body in
  foldr (λ '(field, rules) rest,
           match validateField field rules (body !! field) with
           | Some message => Some message
           | None => rest
           end)
        None schema.

(** The schema of the routes that take a job description. *)
Definition jobDescriptionSchema : list (string * Rules.t) :=
  [("jobDescription",
    {| Rules.required := true; Rules.type := Some "string";
       Rules.minLength := Some 50; Rules.maxLength := Some 50000;
       Rules.enum := None |})].

(** * Properties *)

(** ** Sets *)

Section set_facts.
Context {A : Type} `{EqDecision A}.
Implicit Types (l acc : list A) (x : A).

Lemma elem_of_add acc x y : y ∈ JsSet.add acc x ↔ y ∈ acc ∨ y = x.
Proof.
  unfold JsSet.add. case_decide as Hin.
  - split; [by left | intros [?| ->]; done].
  - rewrite elem_of_app, list_elem_of_singleton. done.
Qed.

Lemma NoDup_add acc x : NoDup acc → NoDup (JsSet.add acc x).
Proof.
  intros Hnd. unfold JsSet.add. case_decide as Hin; [done|].
  apply NoDup_app. split_and!; [done| |apply NoDup_singleton].
  intros y Hy ->%list_elem_of_singleton. done.
Qed.

Lemma elem_of_foldl_add l acc y :
  y ∈ foldl JsSet.add acc l ↔ y ∈ acc ∨ y ∈ l.
Proof.
  revert acc. induction l as [|x l IH]; intros acc; simpl.
  - rewrite elem_of_nil. tauto.
  - rewrite IH, elem_of_add, elem_of_cons. tauto.
Qed.

Lemma NoDup_foldl_add l acc : NoDup acc → NoDup (foldl JsSet.add acc l).
Proof.
  revert acc. induction l as [|x l IH]; intros acc Hnd; simpl; [done|].
  by apply IH, NoDup_add.
Qed.

Lemma foldl_add_fresh l acc :
  NoDup l → (∀ x, x ∈ l → x ∉ acc) → foldl JsSet.add acc l = acc ++ l.
Proof.
  revert acc. induction l as [|x l IH]; intros acc Hnd Hfresh; simpl.
  - by rewrite app_nil_r.
  - apply NoDup_cons in Hnd as [Hx Hnd].
    unfold JsSet.add at 2. rewrite decide_False by (apply Hfresh; left).
    rewrite IH, <- app_assoc; [done|done|].
    intros y Hy [Hin| ->%list_elem_of_singleton]%elem_of_app; [|done].
    by apply (Hfresh y); [right|].
Qed.

(** The elements of [new Set(l)] are those of [l]. *)
Lemma elem_of_from l y : y ∈ JsSet.from l ↔ y ∈ l.
Proof. unfold JsSet.from. rewrite elem_of_foldl_add, elem_of_nil. tauto. Qed.

Lemma NoDup_from l : NoDup (JsSet.from l).
Proof. apply NoDup_foldl_add, NoDup_nil_2. Qed.

(** A list without repetition is its own set. *)
Lemma from_NoDup l : NoDup l → JsSet.from l = l.
Proof.
  intros Hnd. unfold JsSet.from. rewrite foldl_add_fresh; [done|done|].
  intros x _. apply not_elem_of_nil.
Qed.

Lemma has_true s x : JsSet.has s x = true ↔ x ∈ s.
Proof. unfold JsSet.has. apply bool_decide_eq_true. Qed.
End set_facts.

Lemma from_to_gset (l : list string) :
  list_to_set (C:=gset string) (JsSet.from l) = list_to_set l.
Proof.
  apply set_eq. intros x. by rewrite !elem_of_list_to_set, elem_of_from.
Qed.

Lemma size_from (l : list string) :
  JsSet.size (JsSet.from l) = Z.of_nat (size (list_to_set (C:=gset string) l)).
Proof.
  unfold JsSet.size. rewrite <- from_to_gset, size_list_to_set; [done|].
  apply NoDup_from.
Qed.

(** The loop of [computeScore] counts the members of the job set that the
    resume set has. *)
Lemma count_loop (resumeSet : list string) (jobSet : list string) (start : Z) :
  foldl (fun matched skill =>
           if JsSet.has resumeSet skill then matched + 1 else matched) start jobSet
  = start + Z.of_nat (length (filter (λ x, x ∈ resumeSet) jobSet)).
Proof.
  revert start. induction jobSet as [|x l IH]; intros start; simpl; [lia|].
  rewrite IH, filter_cons. unfold JsSet.has.
  case_bool_decide; case_decide; try done; simpl; lia.
Qed.

Lemma size_inter_filter (l r : list string) :
  NoDup l →
  size (list_to_set (C:=gset string) l ∩ list_to_set r)
  = length (filter (λ x, x ∈ r) l).
Proof.
  intros Hnd.
  rewrite <- (size_list_to_set (C:=gset string) (filter (λ x, x ∈ r) l))
    by by apply NoDup_filter.
  f_equal. apply set_eq. intros x.
  rewrite elem_of_intersection, !elem_of_list_to_set, list_elem_of_filter. tauto.
Qed.

Lemma size_inter_from (l r : list string) :
  size (list_to_set (C:=gset string) l ∩ list_to_set r)
  = length (filter (λ x, x ∈ JsSet.from r) (JsSet.from l)).
Proof.
  rewrite <- (from_to_gset l), <- (from_to_gset r).
  apply size_inter_filter, NoDup_from.
Qed.

(** ** Rounding *)

(** [Math_round q] is the integer nearest to [q], the upper one of two. *)
Lemma Math_round_nearest (q : Q) :
  (inject_Z (Math_round q) - (1 # 2) <= q)%Q
  ∧ (q < inject_Z (Math_round q) + (1 # 2))%Q.
Proof.
  unfold Math_round.
  pose proof (Qfloor_le (q + (1 # 2))) as Hle.
  pose proof (Qlt_floor (q + (1 # 2))) as Hlt.
  rewrite inject_Z_plus in Hlt. change (inject_Z 1) with 1%Q in Hlt.
  split; lra.
Qed.

Lemma Math_round_proper (p q : Q) : (p == q)%Q → Math_round p = Math_round q.
Proof. intros Heq. unfold Math_round. by rewrite Heq. Qed.

Lemma Math_round_Z (z : Z) : Math_round (inject_Z z) = z.
Proof.
  unfold Math_round. apply Z.le_antisymm.
  - apply Z.lt_succ_r. rewrite Zlt_Qlt.
    eapply Qle_lt_trans; [apply Qfloor_le|].
    rewrite <- Z.add_1_r, inject_Z_plus. change (inject_Z 1) with 1%Q. lra.
  - rewrite <- (Qfloor_Z z) at 1. apply Qfloor_resp_le. lra.
Qed.

Lemma Math_round_bounds (lo hi : Z) (q : Q) :
  (inject_Z lo <= q <= inject_Z hi)%Q → lo ≤ Math_round q ≤ hi.
Proof.
  intros [Hlo Hhi]. unfold Math_round. split.
  - rewrite <- (Qfloor_Z lo). apply Qfloor_resp_le. lra.
  - apply Z.lt_succ_r. rewrite Zlt_Qlt.
    eapply Qle_lt_trans; [apply Qfloor_le|].
    rewrite <- Z.add_1_r, inject_Z_plus. change (inject_Z 1) with 1%Q. lra.
Qed.

(** ** Doubles *)

Lemma pow2_pos (e : Z) : (0 < pow2 e)%Q.
Proof. unfold pow2. apply Qpower_0_lt. reflexivity. Qed.

Lemma pow2_add (a b : Z) : (pow2 (a + b) == pow2 a * pow2 b)%Q.
Proof. unfold pow2. apply Qpower_plus. discriminate. Qed.

Lemma pow2_Z (e : Z) : 0 ≤ e → (pow2 e == inject_Z (2 ^ e))%Q.
Proof. intros He. unfold pow2. by rewrite Zpower_Qpower. Qed.

Lemma pow2_opp (e : Z) : (pow2 (- e) == / pow2 e)%Q.
Proof. unfold pow2. apply Qpower_opp. Qed.

Lemma pow2_le (a b : Z) : a ≤ b → (pow2 a <= pow2 b)%Q.
Proof.
  intros Hab. replace b with (a + (b - a)) by lia. rewrite pow2_add.
  assert (pow2 (b - a) == inject_Z (2 ^ (b - a)))%Q as -> by (apply pow2_Z; lia).
  assert (1 <= inject_Z (2 ^ (b - a)))%Q as H1.
  { change 1%Q with (inject_Z 1). rewrite <- Zle_Qle.
    pose proof (Z.pow_pos_nonneg 2 (b - a)). lia. }
  pose proof (pow2_pos a). nra.
Qed.

Lemma roundHalfEven_cases (q : Q) :
  roundHalfEven q = Qfloor q ∨ (roundHalfEven q = Qfloor q + 1 ∧ (inject_Z (Qfloor q) < q)%Q).
Proof.
  unfold roundHalfEven. cbv zeta.
  destruct (q - inject_Z (Qfloor q) ?= 1 # 2)%Q eqn:Hc.
  - apply Qeq_alt in Hc. destruct (Z.even (Qfloor q)); [by left|].
    right. split; [done|]. lra.
  - by left.
  - apply Qgt_alt in Hc. right. split; [done|]. lra.
Qed.

(** Rounding does not cross an integer. *)
Lemma roundHalfEven_le (q : Q) (k : Z) : (q <= inject_Z k)%Q → roundHalfEven q ≤ k.
Proof.
  intros Hq.
  assert (Qfloor q ≤ k) as Hfloor.
  { rewrite <- (Qfloor_Z k). by apply Qfloor_resp_le. }
  destruct (roundHalfEven_cases q) as [-> | [-> Hlt]]; [done|].
  assert (inject_Z (Qfloor q) < inject_Z k)%Q as Hk by lra.
  rewrite <- Zlt_Qlt in Hk. lia.
Qed.

Lemma roundHalfEven_ge (q : Q) (k : Z) : (inject_Z k <= q)%Q → k ≤ roundHalfEven q.
Proof.
  intros Hq.
  assert (k ≤ Qfloor q) as Hfloor.
  { rewrite <- (Qfloor_Z k). by apply Qfloor_resp_le. }
  destruct (roundHalfEven_cases q) as [-> | [-> Hlt]]; lia.
Qed.

Lemma floorLog2_le (q : Q) : ¬ (q == 0)%Q → (pow2 (floorLog2 q) <= Qabs q)%Q.
Proof.
  intros Hq. unfold floorLog2. cbv zeta.
  destruct (Qle_bool _ _) eqn:Htest; [by apply Qle_bool_iff|]. clear Htest.
  destruct q as [n d]. cbn [Qnum Qden].
  assert (n ≠ 0) as Hn.
  { intros ->. apply Hq. reflexivity. }
  set (a := Z.log2 (Z.abs n)). set (b := Z.log2 (Z.pos d)).
  assert (0 ≤ a) by apply Z.log2_nonneg. assert (0 ≤ b) by apply Z.log2_nonneg.
  assert (2 ^ a ≤ Z.abs n) as Ha by (apply Z.log2_spec; lia).
  assert (Z.pos d < 2 ^ (b + 1)) as Hb.
  { unfold b. replace (Z.log2 (Z.pos d) + 1) with (Z.succ (Z.log2 (Z.pos d))) by lia.
    apply Z.log2_spec. lia. }
  replace (a - b - 1) with (a + - (b + 1)) by lia.
  rewrite pow2_add, pow2_opp.
  assert (pow2 a == inject_Z (2 ^ a))%Q as -> by (apply pow2_Z; lia).
  assert (pow2 (b + 1) == inject_Z (2 ^ (b + 1)))%Q as -> by (apply pow2_Z; lia).
  assert (Qabs (n # d) == inject_Z (Z.abs n) / inject_Z (Z.pos d))%Q as ->.
  { unfold Qabs. rewrite (Qmake_Qdiv (Z.abs n) d). reflexivity. }
  assert (0 < inject_Z (Z.pos d))%Q as Hd by (change 0%Q with (inject_Z 0); rewrite <- Zlt_Qlt; lia).
  assert (inject_Z (Z.pos d) < inject_Z (2 ^ (b + 1)))%Q as Hb' by (by rewrite <- Zlt_Qlt).
  assert (inject_Z (2 ^ a) <= inject_Z (Z.abs n))%Q as Ha' by (by rewrite <- Zle_Qle).
  assert (0 < inject_Z (2 ^ a))%Q as Hpa.
  { change 0%Q with (inject_Z 0). rewrite <- Zlt_Qlt. apply Z.pow_pos_nonneg; lia. }
  revert Hd Hb' Ha' Hpa.
  generalize (inject_Z (Z.pos d)) (inject_Z (2 ^ (b + 1))) (inject_Z (2 ^ a)) (inject_Z (Z.abs n)).
  intros D B A N HD HB HA HpA.
  apply Qle_shift_div_l; [done|].
  unfold Qdiv. rewrite <- Qmult_assoc.
  assert (/ B * D <= 1)%Q as Hfrac.
  { rewrite Qmult_comm. apply Qle_shift_div_r; lra. }
  nra.
Qed.

Lemma sign_Eq (q : Q) : sign q = Eq ↔ (q == 0)%Q.
Proof. unfold sign. symmetry. apply Qeq_alt. Qed.

Lemma sign_Gt (q : Q) : sign q = Gt ↔ (0 < q)%Q.
Proof. unfold sign. rewrite <- Qgt_alt. done. Qed.

Lemma sign_Lt (q : Q) : sign q = Lt ↔ (q < 0)%Q.
Proof. unfold sign. rewrite <- Qlt_alt. done. Qed.

Lemma pow2_cancel (e : Z) : (pow2 e * pow2 (- e) == 1)%Q.
Proof. rewrite <- pow2_add, Z.add_opp_diag_r. reflexivity. Qed.

(** The multiple of [2^e] nearest to [q] is not above a number [z * 2^-k]
    above [q] with [z] of fewer than 54 bits, when [e] is the exponent
    [binary64] takes: [z * 2^-k] is a double. *)
Lemma nearest_le_dyadic (q : Q) (z k : Z) :
  ¬ (q == 0)%Q → 0 ≤ k ≤ 1074 → - 2 ^ 53 < z < 2 ^ 53 →
  (q <= inject_Z z * pow2 (- k))%Q →
  let e := Z.max (floorLog2 q - 52) (-1074) in
  (inject_Z (roundHalfEven (q / pow2 e)) * pow2 e <= inject_Z z * pow2 (- k))%Q.
Proof.
  intros Hq Hk Hz Hle e.
  pose proof (pow2_pos e) as Hpos. pose proof (pow2_cancel e) as Hcancel.
  pose proof (pow2_pos (- k)) as Hposk.
  destruct (Z.le_gt_cases e (- k)) as [He|He].
  - assert (pow2 (- k - e) == inject_Z (2 ^ (- k - e)))%Q as Hinv by (apply pow2_Z; lia).
    assert (pow2 (- k) == pow2 (- k - e) * pow2 e)%Q as Hsplit.
    { rewrite <- pow2_add. by replace (- k - e + e) with (- k) by lia. }
    assert (roundHalfEven (q / pow2 e) ≤ z * 2 ^ (- k - e)) as Hm.
    { apply roundHalfEven_le. rewrite inject_Z_mult, <- Hinv.
      apply Qle_shift_div_r; [done|].
      rewrite <- Qmult_assoc, <- Hsplit. done. }
    rewrite Zle_Qle, inject_Z_mult, <- Hinv in Hm.
    rewrite Hsplit.
    revert Hm. generalize (inject_Z (roundHalfEven (q / pow2 e))). intros m Hm.
    rewrite Qmult_assoc. revert Hm. generalize (inject_Z z * pow2 (- k - e))%Q.
    intros b Hm. nra.
  - assert (e = floorLog2 q - 52) as He' by lia.
    pose proof (floorLog2_le q Hq) as Hlog.
    replace (floorLog2 q) with (e + 52) in Hlog by lia.
    rewrite pow2_add in Hlog.
    assert (pow2 52 == inject_Z (2 ^ 52))%Q as H52 by (by apply pow2_Z).
    assert (pow2 (1 - k) <= pow2 e)%Q as H1 by (apply pow2_le; lia).
    assert (pow2 (1 - k) == 2 * pow2 (- k))%Q as H1k.
    { replace (1 - k) with (1 + - k) by lia. by rewrite pow2_add. }
    rewrite H1k in H1.
    assert (inject_Z z < inject_Z (2 ^ 53))%Q as Hz1 by (rewrite <- Zlt_Qlt; lia).
    assert (inject_Z (- 2 ^ 53) < inject_Z z)%Q as Hz2 by (rewrite <- Zlt_Qlt; lia).
    assert (inject_Z (2 ^ 53) == 2 * inject_Z (2 ^ 52))%Q as H53 by reflexivity.
    assert (inject_Z (- 2 ^ 53) == - (2 * inject_Z (2 ^ 52)))%Q as H53' by reflexivity.
    assert (inject_Z (- 2 ^ 52) == - inject_Z (2 ^ 52))%Q as H52' by reflexivity.
    assert (0 < inject_Z (2 ^ 52))%Q as Hp52 by reflexivity.
    rewrite H52 in Hlog. rewrite H53 in Hz1. rewrite H53' in Hz2.
    assert (roundHalfEven (q / pow2 e) ≤ - 2 ^ 52) as Hm.
    { apply roundHalfEven_le. apply Qle_shift_div_r; [done|]. rewrite H52'.
      revert Hlog Hz1 Hz2 Hp52 Hle. generalize (inject_Z (2 ^ 52)) (inject_Z z).
      intros B Z Hlog Hz1 Hz2 HB Hle.
      assert (q < 0)%Q as Hneg.
      { destruct (Qlt_le_dec q 0) as [|Hnn]; [done|exfalso].
        rewrite Qabs_pos in Hlog by done. nra. }
      rewrite Qabs_neg in Hlog by lra. lra. }
    rewrite Zle_Qle, H52' in Hm.
    revert Hm Hz1 Hz2 Hp52. generalize (inject_Z (roundHalfEven (q / pow2 e))).
    generalize (inject_Z (2 ^ 52)) (inject_Z z). intros B Z m Hm Hz1 Hz2 HB. nra.
Qed.

Lemma nearest_ge (q : Q) (z : Z) :
  ¬ (q == 0)%Q → - 2 ^ 53 < z < 2 ^ 53 → (inject_Z z <= q)%Q →
  let e := Z.max (floorLog2 q - 52) (-1074) in
  (inject_Z z <= inject_Z (roundHalfEven (q / pow2 e)) * pow2 e)%Q.
Proof.
  intros Hq Hz Hle e.
  pose proof (pow2_pos e) as Hpos. pose proof (pow2_cancel e) as Hcancel.
  destruct (Z.le_gt_cases e 0) as [He|He].
  - assert (pow2 (- e) == inject_Z (2 ^ (- e)))%Q as Hinv by (apply pow2_Z; lia).
    assert (z * 2 ^ (- e) ≤ roundHalfEven (q / pow2 e)) as Hm.
    { apply roundHalfEven_ge. rewrite inject_Z_mult, <- Hinv.
      apply Qle_shift_div_l; [done|].
      rewrite <- Qmult_assoc, (Qmult_comm (pow2 (- e))), Hcancel. lra. }
    rewrite Zle_Qle, inject_Z_mult, <- Hinv in Hm.
    revert Hm. generalize (inject_Z (roundHalfEven (q / pow2 e))). intros m Hm.
    assert (inject_Z z * pow2 (- e) * pow2 e <= m * pow2 e)%Q as Hv by nra.
    rewrite <- Qmult_assoc, (Qmult_comm (pow2 (- e))), Hcancel in Hv. lra.
  - assert (e = floorLog2 q - 52) as He' by lia.
    pose proof (floorLog2_le q Hq) as Hlog.
    replace (floorLog2 q) with (e + 52) in Hlog by lia.
    rewrite pow2_add in Hlog.
    assert (pow2 52 == inject_Z (2 ^ 52))%Q as H52 by (by apply pow2_Z).
    assert (pow2 1 <= pow2 e)%Q as H1 by (apply pow2_le; lia).
    change (pow2 1) with 2%Q in H1.
    assert (inject_Z z < inject_Z (2 ^ 53))%Q as Hz1 by (rewrite <- Zlt_Qlt; lia).
    assert (inject_Z (- 2 ^ 53) < inject_Z z)%Q as Hz2 by (rewrite <- Zlt_Qlt; lia).
    assert (inject_Z (2 ^ 53) == 2 * inject_Z (2 ^ 52))%Q as H53 by reflexivity.
    assert (inject_Z (- 2 ^ 53) == - (2 * inject_Z (2 ^ 52)))%Q as H53' by reflexivity.
    assert (0 < inject_Z (2 ^ 52))%Q as Hp52 by reflexivity.
    rewrite H52 in Hlog. rewrite H53 in Hz1. rewrite H53' in Hz2.
    assert (2 ^ 52 ≤ roundHalfEven (q / pow2 e)) as Hm.
    { apply roundHalfEven_ge. apply Qle_shift_div_l; [done|].
      revert Hlog Hz1 Hz2 Hp52. generalize (inject_Z (2 ^ 52)). intros B Hlog Hz1 Hz2 HB.
      assert (0 < q)%Q as Hneg.
      { destruct (Qlt_le_dec 0 q) as [|Hnn]; [done|exfalso].
        rewrite Qabs_neg in Hlog by done. nra. }
      rewrite Qabs_pos in Hlog by lra. lra. }
    rewrite Zle_Qle in Hm.
    revert Hm Hz1 Hz2 Hp52. generalize (inject_Z (roundHalfEven (q / pow2 e))).
    generalize (inject_Z (2 ^ 52)). intros B m Hm Hz1 Hz2 HB. nra.
Qed.

(** [binary64] gives a number, and an infinity for a number too large. *)
Lemma binary64_cases (q : Q) :
  binary64 q = PInf ∨ binary64 q = NInf ∨ ∃ v, binary64 q = Fin v.
Proof.
  unfold binary64. cbv zeta. repeat case_match; eauto.
Qed.

Lemma floorLog2_lt (q : Q) : ¬ (q == 0)%Q → (Qabs q < pow2 (floorLog2 q + 1))%Q.
Proof.
  intros Hq. unfold floorLog2. cbv zeta.
  destruct (Qle_bool _ _) eqn:Htest.
  - clear Htest. destruct q as [n d]. cbn [Qnum Qden].
    assert (n ≠ 0) as Hn.
    { intros ->. apply Hq. reflexivity. }
    set (a := Z.log2 (Z.abs n)). set (b := Z.log2 (Z.pos d)).
    assert (0 ≤ a) by apply Z.log2_nonneg. assert (0 ≤ b) by apply Z.log2_nonneg.
    assert (Z.abs n < 2 ^ (a + 1)) as Ha.
    { unfold a. replace (Z.log2 (Z.abs n) + 1) with (Z.succ (Z.log2 (Z.abs n))) by lia.
      apply Z.log2_spec. lia. }
    assert (2 ^ b ≤ Z.pos d) as Hb by (apply Z.log2_spec; lia).
    replace (a - b + 1) with (a + 1 + - b) by lia.
    rewrite pow2_add, pow2_opp.
    assert (pow2 (a + 1) == inject_Z (2 ^ (a + 1)))%Q as -> by (apply pow2_Z; lia).
    assert (pow2 b == inject_Z (2 ^ b))%Q as -> by (apply pow2_Z; lia).
    assert (Qabs (n # d) == inject_Z (Z.abs n) / inject_Z (Z.pos d))%Q as ->.
    { unfold Qabs. rewrite (Qmake_Qdiv (Z.abs n) d). reflexivity. }
    assert (0 < inject_Z (2 ^ b))%Q as Hpb.
    { change 0%Q with (inject_Z 0). rewrite <- Zlt_Qlt. apply Z.pow_pos_nonneg; lia. }
    assert (inject_Z (2 ^ b) <= inject_Z (Z.pos d))%Q as Hb' by (by rewrite <- Zle_Qle).
    assert (inject_Z (Z.abs n) < inject_Z (2 ^ (a + 1)))%Q as Ha' by (by rewrite <- Zlt_Qlt).
    assert (0 <= inject_Z (Z.abs n))%Q as Hn0.
    { change 0%Q with (inject_Z 0). rewrite <- Zle_Qle. lia. }
    revert Hpb Hb' Ha' Hn0.
    generalize (inject_Z (Z.pos d)) (inject_Z (2 ^ b)) (inject_Z (2 ^ (a + 1)))
               (inject_Z (Z.abs n)).
    intros D B A N HB HD HA HN.
    apply Qlt_shift_div_r; [lra|].
    unfold Qdiv. rewrite <- Qmult_assoc.
    assert (1 <= / B * D)%Q as Hfrac.
    { rewrite Qmult_comm. apply Qle_shift_div_l; lra. }
    nra.
  - apply Qnot_le_lt. intros Hle. apply Qle_bool_iff in Hle.
    replace (Z.log2 (Z.abs (Qnum q)) - Z.log2 (Z.pos (Qden q)) - 1 + 1)
      with (Z.log2 (Z.abs (Qnum q)) - Z.log2 (Z.pos (Qden q))) in Hle by lia.
    congruence.
Qed.

(** [roundHalfEven q] is an integer nearest to [q]. *)
Lemma roundHalfEven_nearest (q : Q) : (Qabs (inject_Z (roundHalfEven q) - q) <= 1 # 2)%Q.
Proof.
  pose proof (Qfloor_le q) as Hle. pose proof (Qlt_floor q) as Hlt.
  rewrite inject_Z_plus in Hlt. change (inject_Z 1) with 1%Q in Hlt.
  unfold roundHalfEven. cbv zeta.
  destruct (q - inject_Z (Qfloor q) ?= 1 # 2)%Q eqn:Hc.
  - apply Qeq_alt in Hc. destruct (Z.even (Qfloor q)).
    + apply Qabs_Qle_condition. split; lra.
    + rewrite inject_Z_plus. change (inject_Z 1) with 1%Q.
      apply Qabs_Qle_condition. split; lra.
  - apply Qlt_alt in Hc. apply Qabs_Qle_condition. split; lra.
  - apply Qgt_alt in Hc. rewrite inject_Z_plus. change (inject_Z 1) with 1%Q.
    apply Qabs_Qle_condition. split; lra.
Qed.

(** A double that [binary64] gives for [q] is a multiple of [2^e] and at
    most half of [2^e] away from [q], where [2^e] is the distance from one
    double to the next at [q]: [|q|] is below [2^(e+53)], and from
    [2^(e+52)] on unless [e] is the least exponent. *)
Lemma binary64_nearest (q v : Q) :
  ¬ (q == 0)%Q → binary64 q = Fin v →
  let e := Z.max (floorLog2 q - 52) (-1074) in
  (∃ m : Z, v == inject_Z m * pow2 e)%Q
  ∧ (Qabs (v - q) <= (1 # 2) * pow2 e)%Q
  ∧ (Qabs q < pow2 (e + 53))%Q
  ∧ (e = -1074 ∨ (pow2 (e + 52) <= Qabs q)%Q).
Proof.
  intros Hq Hv e. unfold binary64 in Hv.
  destruct (Qeq_bool q 0) eqn:Hzero.
  { apply Qeq_bool_iff in Hzero. done. }
  cbv zeta in Hv. fold e in Hv.
  destruct (Qle_bool _ _); [by destruct (sign _)|].
  injection Hv as <-. pose proof (pow2_pos e) as Hpos.
  split_and!.
  - exists (roundHalfEven (q / pow2 e)). apply Qred_correct.
  - rewrite Qred_correct.
    pose proof (roundHalfEven_nearest (q / pow2 e)) as Hnear.
    assert (inject_Z (roundHalfEven (q / pow2 e)) * pow2 e - q
            == (inject_Z (roundHalfEven (q / pow2 e)) - q / pow2 e) * pow2 e)%Q as ->.
    { field. lra. }
    rewrite Qabs_Qmult, (Qabs_pos (pow2 e)) by lra.
    apply Qmult_le_compat_r; [done|lra].
  - eapply Qlt_le_trans; [by apply floorLog2_lt|]. apply pow2_le. lia.
  - destruct (decide (e = -1074)) as [|He]; [by left|right].
    assert (e = floorLog2 q - 52) as -> by lia.
    replace (floorLog2 q - 52 + 52) with (floorLog2 q) by lia.
    by apply floorLog2_le.
Qed.

(** A double does not lie on the other side of a double [z * 2^-k] than
    the number it stands for. *)
Lemma binary64_le_dyadic (q : Q) (z k : Z) :
  0 ≤ k ≤ 1074 → - 2 ^ 53 < z < 2 ^ 53 → (q <= inject_Z z * pow2 (- k))%Q →
  binary64 q = NInf ∨ ∃ v, binary64 q = Fin v ∧ (v <= inject_Z z * pow2 (- k))%Q.
Proof.
  intros Hk Hz Hle.
  assert (inject_Z z * pow2 (- k) < pow2 1024)%Q as Hsmall.
  { assert (pow2 (- k) <= pow2 0)%Q as H1 by (apply pow2_le; lia).
    change (pow2 0) with 1%Q in H1. pose proof (pow2_pos (- k)) as Hpos.
    assert (inject_Z z < inject_Z (2 ^ 53))%Q as Hz1 by (rewrite <- Zlt_Qlt; lia).
    assert (inject_Z (2 ^ 53) < pow2 1024)%Q as Hbig by reflexivity.
    assert (0 < inject_Z (2 ^ 53))%Q as Hp by reflexivity.
    revert Hz1 Hbig Hp. generalize (inject_Z (2 ^ 53)) (pow2 1024) (inject_Z z).
    intros B T Z Hz1 Hbig Hp.
    destruct (Qlt_le_dec Z 0) as [Hneg|Hnn]; nra. }
  unfold binary64.
  destruct (Qeq_bool q 0) eqn:Hzero.
  - apply Qeq_bool_iff in Hzero. right. exists 0%Q. split; [done|]. lra.
  - assert (¬ (q == 0)%Q) as Hq.
    { intros Heq. apply Qeq_bool_iff in Heq. congruence. }
    pose proof (nearest_le_dyadic q z k Hq Hk Hz Hle) as Hv. cbv zeta in *.
    revert Hv. generalize (inject_Z (roundHalfEven (q / pow2 (Z.max (floorLog2 q - 52) (-1074))))
                           * pow2 (Z.max (floorLog2 q - 52) (-1074)))%Q.
    intros v Hv.
    destruct (Qle_bool (pow2 1024) (Qabs v)) eqn:Hover.
    + apply Qle_bool_iff in Hover.
      destruct (sign v) eqn:Hs; [exfalso|by left|exfalso].
      * apply sign_Eq in Hs. rewrite Hs in Hover. by vm_compute in Hover.
      * apply (proj1 (sign_Gt _)) in Hs. rewrite Qabs_pos in Hover by lra. lra.
    + right. exists (Qred v). split; [done|]. by rewrite Qred_correct.
Qed.

Lemma binary64_le (q : Q) (z : Z) :
  - 2 ^ 53 < z < 2 ^ 53 → (q <= inject_Z z)%Q →
  binary64 q = NInf ∨ ∃ v, binary64 q = Fin v ∧ (v <= inject_Z z)%Q.
Proof.
  intros Hz Hle.
  assert (inject_Z z * pow2 (- 0) == inject_Z z)%Q as Hone
    by (change (pow2 (- 0)) with 1%Q; ring).
  destruct (binary64_le_dyadic q z 0) as [Hv | (v & Hv & Hv')]; [lia|done|..].
  - by rewrite Hone.
  - by left.
  - right. exists v. split; [done|]. by rewrite <- Hone.
Qed.

Lemma binary64_ge (q : Q) (z : Z) :
  - 2 ^ 53 < z < 2 ^ 53 → (inject_Z z <= q)%Q →
  binary64 q = PInf ∨ ∃ v, binary64 q = Fin v ∧ (inject_Z z <= v)%Q.
Proof.
  intros Hz Hle. unfold binary64.
  destruct (Qeq_bool q 0) eqn:Hzero.
  - apply Qeq_bool_iff in Hzero. right. exists 0%Q. split; [done|]. lra.
  - assert (¬ (q == 0)%Q) as Hq.
    { intros Heq. apply Qeq_bool_iff in Heq. congruence. }
    pose proof (nearest_ge q z Hq Hz Hle) as Hv. cbv zeta in *.
    revert Hv. generalize (inject_Z (roundHalfEven (q / pow2 (Z.max (floorLog2 q - 52) (-1074))))
                           * pow2 (Z.max (floorLog2 q - 52) (-1074)))%Q.
    intros v Hv.
    destruct (Qle_bool (pow2 1024) (Qabs v)) eqn:Hover.
    + apply Qle_bool_iff in Hover.
      destruct (sign v) eqn:Hs; [exfalso| |by left].
      * apply sign_Eq in Hs. rewrite Hs in Hover. by vm_compute in Hover.
      * exfalso. apply (proj1 (sign_Lt _)) in Hs. rewrite Qabs_neg in Hover by lra.
        assert (inject_Z (- 2 ^ 53) < inject_Z z)%Q as Hz1 by (rewrite <- Zlt_Qlt; lia).
        assert (- pow2 1024 < inject_Z (- 2 ^ 53))%Q as Hbig by reflexivity.
        lra.
    + right. exists (Qred v). split; [done|]. by rewrite Qred_correct.
Qed.

(** A share [m / n] of a non-empty whole, as a percentage. *)
Lemma percentage_bounds (m n : Z) :
  0 ≤ m ≤ n → 0 < n →
  (inject_Z 0 <= inject_Z m / inject_Z n * 100 <= inject_Z 100)%Q.
Proof.
  intros [Hm Hmn] Hn.
  assert (0 < inject_Z n)%Q as Hn' by (by rewrite (Zlt_Qlt 0 n) in Hn).
  assert (0 <= inject_Z m)%Q as Hm' by (by rewrite (Zle_Qle 0 m) in Hm).
  assert (inject_Z m <= inject_Z n)%Q as Hmn' by (by rewrite Zle_Qle in Hmn).
  assert (0 <= inject_Z m / inject_Z n <= 1)%Q as [H0 H1].
  { split.
    - apply Qle_shift_div_l; [done|]. lra.
    - apply Qle_shift_div_r; [done|]. lra. }
  change (inject_Z 0) with 0%Q. change (inject_Z 100) with 100%Q. lra.
Qed.

Lemma sign_inject_Z_pos (z : Z) : 0 < z → sign (inject_Z z) = Gt.
Proof. intros Hz. apply sign_Gt. by rewrite (Zlt_Qlt 0 z) in Hz. Qed.

(** ** The match score *)

Lemma computeScore_empty (jobSkills resumeSkills : list string) :
  jobSkills = [] ∨ resumeSkills = [] → computeScore jobSkills resumeSkills = 0.
Proof.
  intros [-> | ->]; unfold computeScore; simpl; [done|].
  by rewrite orb_true_r.
Qed.

(** A double that lies between two integers of fewer than 54 bits is finite. *)
Lemma binary64_between (q : Q) (lo hi : Z) :
  - 2 ^ 53 < lo → hi < 2 ^ 53 → (inject_Z lo <= q <= inject_Z hi)%Q →
  ∃ v, binary64 q = Fin v ∧ (inject_Z lo <= v <= inject_Z hi)%Q.
Proof.
  intros Hlo Hhi [Hq1 Hq2].
  assert (lo ≤ hi) as Hle by (rewrite Zle_Qle; lra).
  assert (- 2 ^ 53 < lo < 2 ^ 53) as Hlo' by lia.
  assert (- 2 ^ 53 < hi < 2 ^ 53) as Hhi' by lia.
  destruct (binary64_ge q lo Hlo' Hq1) as [Hv | (v & Hv & Hge)],
    (binary64_le q hi Hhi' Hq2) as [Hv' | (v' & Hv' & Hle')]; try congruence.
  exists v. split; [done|]. split; [done|].
  assert (v' = v) as <- by congruence. done.
Qed.

(** A double between 0 and a dyadic bound is finite. *)
Lemma binary64_below (q : Q) (z k : Z) :
  0 ≤ k ≤ 1074 → z < 2 ^ 53 → (0 <= q <= inject_Z z * pow2 (- k))%Q →
  ∃ v, binary64 q = Fin v ∧ (0 <= v <= inject_Z z * pow2 (- k))%Q.
Proof.
  intros Hk Hz [Hq0 Hq1].
  assert (0 ≤ z) as Hz0.
  { destruct (Z.lt_ge_cases z 0) as [Hneg|]; [exfalso|done].
    pose proof (pow2_pos (- k)) as Hpos.
    assert (inject_Z z < 0)%Q as Hz' by (change 0%Q with (inject_Z 0); by rewrite <- Zlt_Qlt).
    nra. }
  destruct (binary64_ge q 0) as [Hv | (v & Hv & Hge)]; [done|done|..];
    destruct (binary64_le_dyadic q z k) as [Hv' | (v' & Hv' & Hle')];
    try done; try lia; try congruence.
  exists v. split; [done|]. split; [done|].
  assert (v' = v) as <- by congruence. done.
Qed.

(** The share [m / n] of a non-empty whole as a percentage, in doubles:
    a finite number from 0 to 100. *)
Lemma share_bounds (m n : Z) :
  0 ≤ m ≤ n → 0 < n →
  ∃ p, mul (div (ofZ m) (ofZ n)) (ofZ 100) = Fin p ∧ (0 <= p <= 100)%Q.
Proof.
  intros [Hm Hmn] Hn. unfold div, ofZ. rewrite (sign_inject_Z_pos n Hn).
  assert (0 < inject_Z n)%Q as Hn' by (by rewrite (Zlt_Qlt 0 n) in Hn).
  assert (0 <= inject_Z m)%Q as Hm' by (by rewrite (Zle_Qle 0 m) in Hm).
  assert (inject_Z m <= inject_Z n)%Q as Hmn' by (by rewrite Zle_Qle in Hmn).
  destruct (binary64_between (inject_Z m / inject_Z n) 0 1) as (y & -> & Hy0 & Hy1);
    [done|done| |].
  { split.
    - apply Qle_shift_div_l; [done|]. change (inject_Z 0) with 0%Q. lra.
    - apply Qle_shift_div_r; [done|]. change (inject_Z 1) with 1%Q. lra. }
  change (inject_Z 0) with 0%Q in Hy0. change (inject_Z 1) with 1%Q in Hy1.
  unfold mul.
  destruct (binary64_between (y * inject_Z 100) 0 100) as (p & -> & Hp);
    [done|done| |by exists p].
  change (inject_Z 0) with 0%Q. change (inject_Z 100) with 100%Q. lra.
Qed.

(** In doubles the percentage rounds to the integer the exact percentage
    rounds to, for every share of at most 39. *)
Lemma share_exact (m n : Z) :
  0 ≤ m ≤ n → 0 < n ≤ 39 →
  ∃ p, mul (div (ofZ m) (ofZ n)) (ofZ 100) = Fin p
       ∧ Math_round p = Math_round (inject_Z m / inject_Z n * 100)%Q.
Proof.
  intros Hm Hn.
  assert (forallb (λ n, forallb (λ m,
                     match mul (div (ofZ m) (ofZ n)) (ofZ 100) with
                     | Fin p => Math_round p
                                =? Math_round (inject_Z m / inject_Z n * 100)%Q
                     | _ => false
                     end) (seqZ 0 (n + 1)))
                  (seqZ 1 39) = true) as Hall by (by vm_compute).
  rewrite forallb_forall in Hall.
  assert (In n (seqZ 1 39)) as Hin
    by (apply list_elem_of_In, elem_of_seqZ; lia).
  specialize (Hall n Hin). rewrite forallb_forall in Hall.
  assert (In m (seqZ 0 (n + 1))) as Hin'
    by (apply list_elem_of_In, elem_of_seqZ; lia).
  specialize (Hall m Hin').
  destruct (mul (div (ofZ m) (ofZ n)) (ofZ 100)) as [p| | |]; try done.
  exists p. split; [done|]. by apply Z.eqb_eq.
Qed.

(** The score of [computeScore] is the exact percentage, rounded, for every
    share of at most 39 job skills. *)
Lemma percentage_exact (m n : Z) :
  0 ≤ m ≤ n → 0 < n ≤ 39 →
  percentage m n = Math_round (inject_Z m / inject_Z n * 100)%Q.
Proof.
  intros Hm Hn. unfold percentage.
  destruct (share_exact m n Hm Hn) as (p & -> & ->).
  pose proof (Math_round_bounds 0 100 _ (percentage_bounds m n Hm (proj1 Hn))).
  lia.
Qed.

Lemma computeScore_counts (jobSkills resumeSkills : list string) :
  jobSkills ≠ [] → resumeSkills ≠ [] →
  ∃ m n : Z,
    m = Z.of_nat (size (list_to_set (C:=gset string) (normalize <$> jobSkills)
                        ∩ list_to_set (normalize <$> resumeSkills))) ∧
    n = Z.of_nat (size (list_to_set (C:=gset string) (normalize <$> jobSkills))) ∧
    0 ≤ m ≤ n ∧ 0 < n ∧
    computeScore jobSkills resumeSkills = percentage m n.
Proof.
  intros Hj Hr. eexists _, _. split; [reflexivity|]. split; [reflexivity|].
  split_and!.
  - lia.
  - apply inj_le, subseteq_size. apply intersection_subseteq_l.
  - destruct jobSkills as [|j js]; [done|]. clear.
    apply (inj_lt 0), Nat.neq_0_lt_0, size_non_empty_iff.
    rewrite fmap_cons, list_to_set_cons. intros Hempty.
    apply (not_elem_of_empty (C:=gset string) (normalize j)).
    rewrite <- Hempty. apply elem_of_union_l, elem_of_singleton_2. reflexivity.
  - unfold computeScore, percentage.
    destruct jobSkills as [|j js], resumeSkills as [|r rs]; try done.
    rewrite !bool_decide_eq_false_2 by done. simpl orb. cbv iota zeta.
    by rewrite count_loop, size_from, size_inter_from, Z.add_0_l.
Qed.

(** The product [(m / n) * 100] of [computeScore] is a number, not NaN. *)
Lemma percentage_number (m n : Z) :
  n ≠ 0 → mul (div (ofZ m) (ofZ n)) (ofZ 100) ≠ NaN.
Proof.
  intros Hn. unfold div, ofZ.
  assert (sign (inject_Z n) ≠ Eq) as Hs.
  { rewrite sign_Eq. intros Hz. apply Hn.
    unfold Qeq in Hz. simpl in Hz. lia. }
  destruct (sign (inject_Z n)); [done|..];
    destruct (binary64_cases (inject_Z m / inject_Z n)) as [-> | [-> | [v ->]]];
    try done; unfold mul;
    by destruct (binary64_cases (v * inject_Z 100)) as [-> | [-> | [w ->]]].
Qed.

(** C7, the claim as stated fails: with 23 of 40 job skills among the skills
    of the resume, [(23 / 40) * 100] is 57.49999999999999 in doubles and the
    score is 57, where [round(100 * 23 / 40)], the rounded 57.5, is 58. *)
Lemma computeScore_binary64 :
  computeScore fortySkills (take 23 fortySkills) = 57
  ∧ size (list_to_set (C:=gset string) (normalize <$> fortySkills)) = 40%nat
  ∧ size (list_to_set (C:=gset string) (normalize <$> fortySkills)
          ∩ list_to_set (normalize <$> take 23 fortySkills)) = 23%nat
  ∧ Math_round (100 * inject_Z 23 / inject_Z 40)%Q = 58.
Proof.
  split; [by vm_compute|]. split; [|split; [|by vm_compute]].
  - apply Nat2Z.inj. rewrite <- size_from. by vm_compute.
  - rewrite size_inter_from. by vm_compute.
Qed.

(** C7, amended.  [computeScore] is 0 when either list is empty; otherwise
    it is [Math.round((|J ∩ R| / |J|) * 100)] in doubles, between 0 and 100,
    where [J] and [R] are the sets of the lower-cased job skills and
    candidate skills: the denominator counts the distinct job skills.  With
    at most 39 distinct job skills this is [round(100 * |J ∩ R| / |J|)].  Job
    skills react, node against candidate skills react, python give 50. *)
Theorem computeScore_formula (jobSkills resumeSkills : list string) :
  let J : gset string := list_to_set (normalize <$> jobSkills) in
  let R : gset string := list_to_set (normalize <$> resumeSkills) in
  computeScore jobSkills resumeSkills
  = (if bool_decide (jobSkills = [] ∨ resumeSkills = []) then 0
     else percentage (Z.of_nat (size (J ∩ R))) (Z.of_nat (size J)))
  ∧ ((size J ≤ 39)%nat →
     computeScore jobSkills resumeSkills
     = (if bool_decide (jobSkills = [] ∨ resumeSkills = []) then 0
        else Math_round (100 * inject_Z (Z.of_nat (size (J ∩ R)))
                         / inject_Z (Z.of_nat (size J)))%Q))
  ∧ computeScore ["react"; "node"] ["react"; "python"] = 50
  ∧ computeScore ["React"; "react"; "REACT"; "node"] ["react"] = 50.
Proof.
  intros J R. split; [|split; [|by vm_compute]].
  - case_bool_decide as Hempty.
    + by apply computeScore_empty.
    + assert (jobSkills ≠ [] ∧ resumeSkills ≠ []) as [Hj Hr] by tauto.
      by destruct (computeScore_counts _ _ Hj Hr) as (m & n & -> & -> & _ & _ & ->).
  - intros Hsize. case_bool_decide as Hempty.
    + by apply computeScore_empty.
    + assert (jobSkills ≠ [] ∧ resumeSkills ≠ []) as [Hj Hr] by tauto.
      destruct (computeScore_counts _ _ Hj Hr) as (m & n & Hm & Hn & Hmn & Hpos & ->).
      fold J in Hn, Hm. fold R in Hm. rewrite <- Hm, <- Hn.
      rewrite percentage_exact by lia.
      apply Math_round_proper. field.
      intros Hz. rewrite (Zlt_Qlt 0 n) in Hpos. rewrite Hz in Hpos.
      by apply Qlt_irrefl in Hpos.
Qed.

(** Two of three job skills are among the skills of the resume: the score
    is 67. *)
Lemma computeScore_formula_witness :
  (size (list_to_set (C:=gset string) (normalize <$> ["react"; "node"; "python"]))
   ≤ 39)%nat
  ∧ computeScore ["react"; "node"; "python"] ["react"; "python"; "go"]
    = Math_round (100 * inject_Z 2 / inject_Z 3)%Q
  ∧ Math_round (100 * inject_Z 2 / inject_Z 3)%Q = 67.
Proof.
  assert (size (list_to_set (C:=gset string) (normalize <$> ["react"; "node"; "python"]))
          ≤ 39)%nat as Hsize.
  { apply Nat2Z.inj_le. rewrite <- size_from. by vm_compute. }
  split; [exact Hsize|]. split; [|reflexivity].
  destruct (computeScore_formula ["react"; "node"; "python"] ["react"; "python"; "go"])
    as (_ & Hscore & _).
  rewrite (Hscore Hsize). reflexivity.
Defined.

(** ** Location fit *)

(** The cases of [calculateLocationMatch], in the order of the code. *)
Lemma calculateLocationMatch_cases (jobLocation userLocation : option string) :
  let jobLoc := normalize' jobLocation in
  let userLoc := normalize' userLocation in
  calculateLocationMatch jobLocation userLocation
  = if negb (truthy jobLocation) || negb (truthy userLocation) then 50
    else if includes jobLoc "remote" || includes userLoc "remote" then 80
    else if bool_decide (jobLoc = userLoc
                         ∨ splitOn "," jobLoc !! 0%nat = splitOn "," userLoc !! 0%nat)
         then 100
    else if bool_decide (splitOn "," jobLoc !! 1%nat = splitOn "," userLoc !! 1%nat)
         then 70
    else 40.
Proof.
  intros jobLoc userLoc. unfold calculateLocationMatch. fold jobLoc userLoc.
  repeat case_bool_decide; repeat case_match; try done; tauto.
Qed.

(** C5.  Two different locations without a comma and without "remote" do not
    score 40: neither has a second field, the two missing fields are equal,
    and the score is 70.  "San Francisco, CA" against "San Francisco, NY"
    scores 100. *)
Theorem calculateLocationMatch_no_comma :
  calculateLocationMatch (Some "Paris") (Some "London") = 70
  ∧ splitOn "," (normalize "Paris") !! 1%nat = None
  ∧ splitOn "," (normalize "London") !! 1%nat = None
  ∧ calculateLocationMatch (Some "San Francisco, CA") (Some "San Francisco, NY") = 100.
Proof. by vm_compute. Qed.

(** The second field is what stands between the first two commas. *)
Example calculateLocationMatch_second_field :
  calculateLocationMatch (Some "Austin, TX, USA") (Some "Dallas, TX") = 70
  ∧ calculateLocationMatch (Some "Austin, TX") (Some "Dallas, OK") = 40
  ∧ calculateLocationMatch (Some "Paris") (Some "London, UK") = 40.
Proof. by vm_compute. Qed.

(** ** Missing arguments *)

Lemma neutral_defaults (skills : list string) (other : option string) (now : Z) :
  computeScore [] skills = 0
  ∧ computeScore skills [] = 0
  ∧ calculateSkillMatch None (Some skills) = 0
  ∧ calculateLocationMatch None other = 50
  ∧ calculateLocationMatch other None = 50
  ∧ calculateRecency now None = 50%Q.
Proof.
  split_and!; try done.
  - apply computeScore_empty. by right.
  - unfold calculateLocationMatch. by rewrite orb_true_r.
Qed.

(** C9.  [calculateExperienceFit] does not return for a missing job
    description: it calls [match] on [undefined] and throws. *)
Theorem calculateExperienceFit_undefined (years : Z) :
  calculateExperienceFit None years = Throw TypeError.
Proof. reflexivity. Qed.

(** ** Weights *)

(** C3.  When every weight is overridden by 0 the sum of the weights is 0,
    every effective weight is 0 / 0 = NaN, and their sum is NaN, not 1; the
    ranking score of a job is NaN as well. *)
Theorem normalizeWeights_zero :
  weightSum (mergeWeights zeroWeights) = ofZ 0
  ∧ normalizeWeights (mergeWeights zeroWeights)
    = {| skillMatch := NaN; experienceFit := NaN; location := NaN; recency := NaN |}
  ∧ totalWeight (normalizeWeights (mergeWeights zeroWeights)) = NaN
  ∧ titlesAndScores (rankJobs 0 [jobA] exampleResume (Some EmptyString) zeroWeights)
    = [(Some (VString "A"), NaN, Some (VNumber (ofZ 1)))].
Proof. by vm_compute. Qed.

(** ** Bounds of the scores *)

Lemma computeScore_bounds (jobSkills resumeSkills : list string) :
  0 ≤ computeScore jobSkills resumeSkills ≤ 100.
Proof. unfold computeScore. repeat case_match; lia. Qed.

Lemma calculateSkillMatch_bounds (jobDescription : option string)
    (resumeSkills : option (list string)) :
  0 ≤ calculateSkillMatch jobDescription resumeSkills ≤ 100.
Proof.
  unfold calculateSkillMatch. case_match; [lia|]. clear.
  case_bool_decide as Hlen; [lia|]. cbv zeta.
  match goal with
  | |- context [mul (div (ofZ ?m) (ofZ ?n)) _] =>
      destruct (share_bounds m n) as (p & -> & Hp)
  end.
  - split; [lia|]. apply inj_le, length_filter.
  - lia.
  - by apply Math_round_bounds.
Qed.

Lemma calculateExperienceFit_bounds (description : string) (years : Z) :
  ∃ s, calculateExperienceFit (Some description) years = Return s ∧ 30 ≤ s ≤ 100.
Proof.
  unfold calculateExperienceFit. repeat case_bool_decide; eexists; (split; [done|lia]).
Qed.

Lemma calculateLocationMatch_bounds (jobLocation userLocation : option string) :
  40 ≤ calculateLocationMatch jobLocation userLocation ≤ 100.
Proof. unfold calculateLocationMatch. repeat case_match; lia. Qed.

(** [100 - days / 3] in doubles is at most 100, or [-Infinity] when
    [days / 3] is too large for a double. *)
Lemma recency_decay (days : Z) :
  0 ≤ days →
  sub (ofZ 100) (div (ofZ days) (ofZ 3)) = NInf
  ∨ ∃ v, sub (ofZ 100) (div (ofZ days) (ofZ 3)) = Fin v ∧ (v <= 100)%Q.
Proof.
  intros Hdays. unfold div, ofZ. rewrite (sign_inject_Z_pos 3) by done.
  destruct (binary64_ge (inject_Z days / inject_Z 3) 0) as [-> | (y & -> & Hy)];
    [done| |by left|].
  { apply Qle_shift_div_l; [done|]. rewrite Zle_Qle in Hdays.
    change (inject_Z 0) with 0%Q in *. lra. }
  unfold sub. apply (binary64_le _ 100); [done|].
  change (inject_Z 0) with 0%Q in Hy. change (inject_Z 100) with 100%Q. lra.
Qed.

Lemma calculateRecency_cases (now : Z) (jobPostedDate : option Z) :
  (∃ z : Z, z ∈ [50; 100; 85; 70] ∧ calculateRecency now jobPostedDate = inject_Z z)
  ∨ (∃ posted, jobPostedDate = Some posted ∧ 90 < daysSince now posted
               ∧ calculateRecency now jobPostedDate
                 = Math_max 20 (sub (ofZ 100)
                                    (div (ofZ (daysSince now posted)) (ofZ 3)))).
Proof.
  destruct jobPostedDate as [posted|]; simpl.
  - repeat case_bool_decide;
      [left; eexists; (split; [|reflexivity]); set_solver..|].
    right. exists posted. split_and!; [done|lia|done].
  - left. exists 50. split; [set_solver|done].
Qed.

Lemma calculateRecency_bounds (now : Z) (jobPostedDate : option Z) :
  (20 <= calculateRecency now jobPostedDate <= 100)%Q.
Proof.
  destruct (calculateRecency_cases now jobPostedDate)
    as [(z & Hz & ->)|(posted & _ & Hdays & ->)].
  - rewrite !elem_of_cons, elem_of_nil in Hz.
    destruct Hz as [->|[->|[->|[->|[]]]]]; split; by vm_compute.
  - destruct (recency_decay (daysSince now posted)) as [-> | (v & -> & Hv)]; [lia|..].
    + split; by vm_compute.
    + cbn [Math_max]. split; [apply Q.le_max_l|].
      apply Q.max_lub; [by vm_compute|done].
Qed.

(** C4, the claim as stated fails: 91 days after the posting the recency
    score is the double of [100 - 91 / 3], 69.66666666666667, which is no
    integer. *)
Lemma calculateRecency_not_integer :
  calculateRecency (91 * 86400000) (Some 0) = (4902355844377259 # 70368744177664)%Q
  ∧ ¬ ∃ z : Z, Qeq (calculateRecency (91 * 86400000) (Some 0)) (inject_Z z).
Proof.
  assert (calculateRecency (91 * 86400000) (Some 0)
          = (4902355844377259 # 70368744177664)%Q) as ->
    by by vm_compute.
  split; [done|]. intros [z Hz].
  unfold Qeq in Hz. simpl in Hz. lia.
Qed.

(** C4, amended.  [computeScore], [calculateSkillMatch],
    [calculateExperienceFit] (of a job description that is a string and whole
    years) and [calculateLocationMatch] return an integer between 0 and 100.
    [calculateRecency] returns a number between 0 and 100: one of the
    integers 50, 100, 85 and 70 up to 90 days after the posting, and
    [max(20, 100 - days/3)] in doubles, which need not be an integer, after
    that. *)
Theorem score_bounds (jobSkills resumeSkills : list string)
    (jobDescription : option string) (skills : option (list string))
    (description : string) (years : Z) (jobLocation userLocation : option string)
    (now : Z) (jobPostedDate : option Z) :
  0 ≤ computeScore jobSkills resumeSkills ≤ 100
  ∧ 0 ≤ calculateSkillMatch jobDescription skills ≤ 100
  ∧ (∃ s : Z, calculateExperienceFit (Some description) years = Return s
              ∧ 0 ≤ s ≤ 100)
  ∧ 0 ≤ calculateLocationMatch jobLocation userLocation ≤ 100
  ∧ (0 <= calculateRecency now jobPostedDate <= 100)%Q
  ∧ ((∃ z : Z, z ∈ [50; 100; 85; 70]
               ∧ calculateRecency now jobPostedDate = inject_Z z)
     ∨ (∃ posted, jobPostedDate = Some posted ∧ 90 < daysSince now posted
                  ∧ calculateRecency now jobPostedDate
                    = Math_max 20 (sub (ofZ 100)
                                       (div (ofZ (daysSince now posted)) (ofZ 3))))).
Proof.
  split_and!.
  - apply computeScore_bounds.
  - apply computeScore_bounds.
  - apply calculateSkillMatch_bounds.
  - apply calculateSkillMatch_bounds.
  - destruct (calculateExperienceFit_bounds description years) as (s & Hs & ?).
    exists s. split; [done|lia].
  - pose proof (calculateLocationMatch_bounds jobLocation userLocation). lia.
  - pose proof (calculateLocationMatch_bounds jobLocation userLocation). lia.
  - pose proof (calculateRecency_bounds now jobPostedDate) as [? ?]. lra.
  - apply calculateRecency_bounds.
  - apply calculateRecency_cases.
Qed.

(** ** Sorting *)

Section sort_facts.
Context {A : Type} (after : A → A → bool).

Lemma insert_Permutation (x : A) (l : list A) :
  JsArray.insert after x l ≡ₚ x :: l.
Proof.
  induction l as [|y l IH]; simpl; [done|].
  destruct (after x y); [|done].
  rewrite IH. apply Permutation_swap.
Qed.

Lemma sort_Permutation (l : list A) : JsArray.sort after l ≡ₚ l.
Proof.
  induction l as [|x l IH]; simpl; [done|].
  by rewrite insert_Permutation, IH.
Qed.
End sort_facts.

(** ** Remodeling *)

Lemma originalSkills_eq (now : Z) (resume : Resume) (jobDescription : option string) :
  originalSkills (data (remodelResume now resume jobDescription))
  = from_option uniq [] (parsedSkills resume).
Proof. reflexivity. Qed.

Lemma remodeledSkills_eq (now : Z) (resume : Resume) (jobDescription : option string) :
  remodeledSkills (data (remodelResume now resume jobDescription))
  = if bool_decide (length (extractJobSkills jobDescription) ≠ 0%nat)
    then JsArray.sort (byJobSkill (extractJobSkills jobDescription))
                      (from_option uniq [] (parsedSkills resume))
    else from_option uniq [] (parsedSkills resume).
Proof. reflexivity. Qed.

(** C2, the claim as stated fails: a skill that is listed twice is kept
    once, so the result is no permutation of the list given. *)
Lemma remodelResume_drops_duplicates :
  let resume := {| summary := None; parsedSkills := Some ["react"; "react"];
                   yearsOfExperience := None |} in
  remodeledSkills (data (remodelResume 0 resume (Some "React developer"))) = ["react"]
  ∧ ¬ (remodeledSkills (data (remodelResume 0 resume (Some "React developer")))
       ≡ₚ ["react"; "react"]).
Proof.
  split; [by vm_compute|].
  assert (remodeledSkills
            (data (remodelResume 0
                     {| summary := None; parsedSkills := Some ["react"; "react"];
                        yearsOfExperience := None |} (Some "React developer")))
          = ["react"]) as -> by by vm_compute.
  intros Hperm. by apply Permutation_length in Hperm.
Qed.

(** C2, amended.  The skill list [remodelResume] produces is a permutation of
    the input skill list without its repeated entries (each skill at its
    first place): it has the skills of the input and no other, each once;
    for an input without repeated entries it is a permutation of the input;
    when no job skill is extracted it is the input without its repeated
    entries, in the same order. *)
Theorem remodelResume_permutation (now : Z) (resume : Resume)
    (jobDescription : option string) :
  let input := default [] (parsedSkills resume) in
  let result := data (remodelResume now resume jobDescription) in
  remodeledSkills result ≡ₚ uniq input
  ∧ originalSkills result = uniq input
  ∧ NoDup (remodeledSkills result)
  ∧ (∀ skill, skill ∈ remodeledSkills result ↔ skill ∈ input)
  ∧ (NoDup input → remodeledSkills result ≡ₚ input)
  ∧ (extractJobSkills jobDescription = [] → remodeledSkills result = uniq input).
Proof.
  intros input result.
  assert (originalSkills result = uniq input) as Horig.
  { unfold result, input. rewrite originalSkills_eq.
    by destruct (parsedSkills resume). }
  assert (remodeledSkills result ≡ₚ uniq input) as Hperm.
  { rewrite <- Horig. unfold result. rewrite remodeledSkills_eq, originalSkills_eq.
    case_bool_decide; [apply sort_Permutation|done]. }
  split_and!; try done.
  - rewrite Hperm. apply NoDup_from.
  - intros skill. rewrite Hperm. apply elem_of_from.
  - intros Hnd. rewrite Hperm. unfold uniq. by rewrite from_NoDup.
  - intros Hnone. rewrite <- Horig. unfold result.
    rewrite remodeledSkills_eq, originalSkills_eq, Hnone.
    by rewrite bool_decide_eq_false_2 by (simpl; lia).
Qed.

(** A resume with a skill listed twice, remodeled for a job and without a
    job description. *)
Example remodelResume_examples :
  let resume := {| summary := None;
                   parsedSkills := Some ["Python"; "react"; "SQL"; "react"; "Node"];
                   yearsOfExperience := None |} in
  remodeledSkills (data (remodelResume 0 resume (Some "node and React, sql")))
  = ["Node"; "react"; "SQL"; "Python"]
  ∧ remodeledSkills (data (remodelResume 0 resume None))
    = ["Python"; "react"; "SQL"; "Node"]
  ∧ extractJobSkills None = [].
Proof. by vm_compute. Qed.

(** ** Improving an answer *)

Lemma allWordsExist_tokens (answer improved : string) :
  allWordsExist answer improved = true ↔
  ∀ word, word ∈ tokens improved → (2 ≤ String.length word)%nat →
          word ∈ tokens answer.
Proof.
  unfold allWordsExist, tokens, normalize, normalize'. simpl.
  rewrite forallb_forall. split.
  - intros Hall word Hin Hlen.
    specialize (Hall word). rewrite <- list_elem_of_In, (elem_of_from _ word) in Hall.
    apply Hall in Hin. apply orb_true_iff in Hin as [Hshort|Hhas].
    + apply bool_decide_eq_true in Hshort. lia.
    + apply has_true in Hhas. by apply (proj1 (elem_of_from _ _)) in Hhas.
  - intros Hall word Hin. apply list_elem_of_In, (proj1 (elem_of_from _ _)) in Hin.
    apply orb_true_iff.
    destruct (decide (String.length word < 2)%nat) as [Hshort|Hlong].
    + left. by apply bool_decide_eq_true.
    + right. apply has_true, (proj2 (elem_of_from _ _)). apply Hall; [done|lia].
Qed.

Lemma draftConfidence_bounds (answer : string) (jobDescription : option string) :
  30 ≤ draftConfidence (draftAnswer answer jobDescription) ≤ 95.
Proof.
  unfold draftAnswer.
  set (mentioned := mentionedSkills answer jobDescription).
  assert (50 ≤ baseConfidence mentioned ≤ 70) as Hbase.
  { unfold baseConfidence. case_bool_decide; lia. }
  set (d0 := {| draftText := answer; draftChanges := [];
                draftConfidence := baseConfidence mentioned |}).
  assert (50 ≤ draftConfidence (reorderSentences answer mentioned d0) ≤ 80) as Hre.
  { unfold reorderSentences. repeat case_match; simpl; lia. }
  unfold assessRelevance, cleanUp. repeat case_bool_decide; simpl; lia.
Qed.

(** The safety check leaves a text whose words are words of the answer. *)
Lemma safetyCheck_tokens (answer : string) (d : Draft) :
  ∀ word, word ∈ tokens (draftText (safetyCheck answer d)) →
          (2 ≤ String.length word)%nat → word ∈ tokens answer.
Proof.
  unfold safetyCheck.
  destruct (allWordsExist answer (draftText d)) eqn:Hall; simpl.
  - by apply allWordsExist_tokens.
  - done.
Qed.

Lemma safetyCheck_cases (answer : string) (d : Draft) :
  allWordsExist answer (draftText d) = true ∧ safetyCheck answer d = d
  ∨ allWordsExist answer (draftText d) = false
    ∧ safetyCheck answer d
      = {| draftText := answer;
           draftChanges := draftChanges d ++ ["Safety check: minimal modification applied"];
           draftConfidence := Z.max 20 (draftConfidence d - 30) |}.
Proof.
  unfold safetyCheck. destruct (allWordsExist answer (draftText d)); [by left|by right].
Qed.

Lemma noChanges_text (d : Draft) : draftText (noChanges d) = draftText d.
Proof. unfold noChanges. by case_bool_decide. Qed.

Lemma noChanges_changed (d : Draft) : draftChanges d ≠ [] → noChanges d = d.
Proof.
  intros Hchanges. unfold noChanges. case_bool_decide as Hlen; [|done].
  by apply nil_length_inv in Hlen.
Qed.

(** What [improveAnswer] returns for an answer that is not empty. *)
Lemma improveAnswer_data (now : Z) (c : ascii) (rest : string)
    (jobDescription : option string) :
  ∃ response,
    improveAnswer now (Some (String c rest)) jobDescription = Improved response
    ∧ originalText (data response) = trim (String c rest)
    ∧ improved (data response)
      = draftText (noChanges (safetyCheck (trim (String c rest))
                                (draftAnswer (trim (String c rest)) jobDescription)))
    ∧ confidence (data response)
      = Z.max 0 (Z.min 100
          (draftConfidence (noChanges (safetyCheck (trim (String c rest))
                              (draftAnswer (trim (String c rest)) jobDescription))))).
Proof. eexists. split; [reflexivity|]. by split_and!. Qed.

(** C1.  The improved text [improveAnswer] returns for an answer that is a
    string has the token-subset property: each of its words of two characters
    or more, in lower case, is a word of the trimmed original in lower case.
    When the text the pipeline has produced lacks the property, the improved
    text is the original of the response and the confidence is the
    confidence before the check minus 30, at least 20. *)
Theorem improveAnswer_no_fabrication (now : Z) (originalAnswer : string)
    (jobDescription : option string) :
  match improveAnswer now (Some originalAnswer) jobDescription with
  | NoImprovement improved _ _ _ =>
      originalAnswer = EmptyString ∧ improved = EmptyString
      ∧ tokenSubset originalAnswer improved
  | Improved response =>
      let result := data response in
      let draft := draftAnswer (trim originalAnswer) jobDescription in
      originalText result = trim originalAnswer
      ∧ tokenSubset originalAnswer (improved result)
      ∧ (tokenSubset originalAnswer (draftText draft)
         ∧ improved result = draftText draft
         ∨ ¬ tokenSubset originalAnswer (draftText draft)
           ∧ improved result = originalText result
           ∧ confidence result = Z.max 20 (draftConfidence draft - 30))
  end.
Proof.
  destruct originalAnswer as [|c rest].
  { change (improveAnswer now (Some EmptyString) jobDescription)
      with (NoImprovement EmptyString 0 [] "No improvement needed").
    split_and!; [done..|]. intros word Hin Hlen.
    change (tokens EmptyString) with [EmptyString] in Hin.
    apply list_elem_of_singleton in Hin as ->. simpl in Hlen. lia. }
  destruct (improveAnswer_data now c rest jobDescription)
    as (response & -> & Horiginal & Himproved & Hconfidence).
  cbv zeta. rewrite Horiginal, Himproved, Hconfidence.
  set (answer := trim (String c rest)).
  set (draft := draftAnswer answer jobDescription).
  rewrite noChanges_text.
  split_and!; [done|exact (safetyCheck_tokens answer draft)|].
  unfold tokenSubset. fold answer.
  destruct (safetyCheck_cases answer draft) as [[Hall ->]|[Hall ->]].
  - left. split; [|done]. by apply allWordsExist_tokens.
  - right. split_and!; [|done|].
    + intros Hsub. apply allWordsExist_tokens in Hsub. congruence.
    + rewrite noChanges_changed by (by destruct (draftChanges draft)).
      pose proof (draftConfidence_bounds answer jobDescription) as Hc.
      fold draft in Hc. cbn [draftConfidence]. lia.
Qed.

(** ** Stability of the sort *)

Section sort_stable.
Context {A : Type} (after : A → A → bool) (ok : A → Prop).

(** The comparator orders the elements that are [ok] consistently. *)
Hypothesis after_asym : ∀ x y, ok x → ok y → after x y = true → after y x = false.
Hypothesis after_negtrans : ∀ x y z, ok x → ok y → ok z →
  after x y = false → after y z = false → after x z = false.

Local Abbreviation afterIndexed := (afterIndexed after).
Local Abbreviation inOrder := (inOrder after).

Lemma afterIndexed_eq (p q : nat * A) : afterIndexed p q = after p.2 q.2.
Proof. reflexivity. Qed.

Lemma insert_indexed (p : nat * A) (s : list (nat * A)) :
  (JsArray.insert afterIndexed p s).*2 = JsArray.insert after p.2 (s.*2).
Proof.
  induction s as [|q s IH]; simpl; [done|].
  rewrite afterIndexed_eq. destruct (after p.2 q.2); simpl; [|done].
  f_equal. apply IH.
Qed.

Lemma sort_indexed (start : nat) (l : list A) :
  (JsArray.sort afterIndexed (indexedFrom start l)).*2 = JsArray.sort after l.
Proof.
  revert start. induction l as [|x l IH]; intros start; simpl; [done|].
  change (indexedFrom start (x :: l)) with ((start, x) :: indexedFrom (S start) l).
  simpl. rewrite insert_indexed. f_equal. apply IH.
Qed.

Lemma insert_inOrder (p : nat * A) (s : list (nat * A)) :
  ok p.2 → Forall (λ q, (p.1 < q.1)%nat ∧ ok q.2) s →
  StronglySorted inOrder s →
  StronglySorted inOrder (JsArray.insert afterIndexed p s).
Proof.
  intros Hp. induction s as [|q s IH]; intros Hs Hsorted; simpl.
  - repeat constructor.
  - apply Forall_cons in Hs as [[Hlt Hq] Hs].
    apply StronglySorted_inv in Hsorted as [Hsorted Hqs].
    rewrite afterIndexed_eq. destruct (after p.2 q.2) eqn:Hafter.
    + constructor; [by apply IH|].
      rewrite insert_Permutation. constructor; [|done].
      split; [by apply after_asym|]. congruence.
    + constructor; [by constructor|].
      constructor; [done|].
      rewrite Forall_forall in Hs, Hqs |- *. intros r Hr.
      destruct (Hs r Hr) as [Hpr Hok], (Hqs r Hr) as [Hqr _].
      split; [by apply (after_negtrans _ q.2)|done].
Qed.

Lemma indexedFrom_bounds (start : nat) (l : list A) :
  Forall ok l →
  Forall (λ q, (start ≤ q.1)%nat ∧ ok q.2) (indexedFrom start l).
Proof.
  revert start. induction l as [|x l IH]; intros start Hl.
  - constructor.
  - apply Forall_cons in Hl as [Hx Hl].
    change (indexedFrom start (x :: l)) with ((start, x) :: indexedFrom (S start) l).
    constructor; [done|].
    eapply Forall_impl; [by apply IH|]. simpl. intros q [? ?]. split; [lia|done].
Qed.

(** The sorted array, with the positions the elements had before. *)
Lemma sort_inOrder (start : nat) (l : list A) :
  Forall ok l →
  StronglySorted inOrder (JsArray.sort afterIndexed (indexedFrom start l)).
Proof.
  revert start. induction l as [|x l IH]; intros start Hl.
  - constructor.
  - apply Forall_cons in Hl as [Hx Hl].
    change (indexedFrom start (x :: l)) with ((start, x) :: indexedFrom (S start) l).
    simpl. apply insert_inOrder; [done| |by apply IH].
    rewrite sort_Permutation.
    eapply Forall_impl; [by apply (indexedFrom_bounds (S start))|].
    simpl. intros q [? ?]. split; [lia|done].
Qed.
End sort_stable.

(** ** The ranking score *)

Lemma positive_Fin (q : Q) : positive (Fin q) = true ↔ (0 < q)%Q.
Proof.
  simpl. rewrite <- sign_Gt. destruct (sign q); split; congruence.
Qed.

(** The difference of two whole numbers in doubles is positive when the
    difference is. *)
Lemma positive_sub_ofZ (x y : Z) : positive (sub (ofZ y) (ofZ x)) = true ↔ x < y.
Proof.
  unfold sub, ofZ. split.
  - intros Hpos. destruct (Z.lt_ge_cases x y) as [|Hge]; [done|exfalso].
    destruct (binary64_le (inject_Z y - inject_Z x) 0) as [Hv | (v & Hv & Hle)];
      [done| |by rewrite Hv in Hpos|].
    { rewrite Zle_Qle in Hge. change (inject_Z 0) with 0%Q. lra. }
    rewrite Hv, positive_Fin in Hpos. change (inject_Z 0) with 0%Q in Hle. lra.
  - intros Hlt.
    destruct (binary64_ge (inject_Z y - inject_Z x) 1) as [-> | (v & -> & Hle)];
      [done| |done|].
    { assert (x + 1 ≤ y) as Hle by lia.
      rewrite Zle_Qle, inject_Z_plus in Hle. lra. }
    apply positive_Fin. change (inject_Z 1) with 1%Q in Hle. lra.
Qed.

Lemma round_whole (a : number) : round a = NaN ∨ isWhole (round a).
Proof.
  unfold isWhole. destruct a as [q| | |]; simpl; eauto.
Qed.

(** A ranking score is a whole number, an infinity or NaN. *)
Lemma weightedScore_whole (w : Factors number) (s e l : Z) (r : Q) :
  weightedScore w s e l r = NaN ∨ isWhole (weightedScore w s e l r).
Proof. apply round_whole. Qed.

(** On whole numbers and infinities [greater] is the order of the numbers. *)
Lemma greater_level (a b : number) :
  isWhole a → isWhole b →
  greater a b = true
  ↔ (level b).1 < (level a).1 ∨ (level b).1 = (level a).1 ∧ (level b).2 < (level a).2.
Proof.
  unfold greater.
  intros [-> | [-> | [x ->]]] [-> | [-> | [y ->]]];
    try (rewrite positive_sub_ofZ; cbn [level ofZ fst snd]; rewrite !Qfloor_Z; lia);
    cbn [level ofZ sub positive fst snd];
    try (split; [done|lia]); (split; [lia|done]).
Qed.

Lemma greater_NaN (a b : number) : a = NaN ∨ b = NaN → greater a b = false.
Proof.
  unfold greater. intros [-> | ->]; [done|]. by destruct a.
Qed.

Lemma byRankingScore_greater (a b : gmap string value) :
  byRankingScore a b = greater (rankingScoreOf b) (rankingScoreOf a).
Proof. reflexivity. Qed.

(** Numbers that can be compared are ordered consistently by [greater]. *)
Lemma greater_consistent (comparableScores : bool) :
  let ok a := if comparableScores then isWhole a else a = NaN in
  (∀ a b, ok a → ok b → greater a b = true → greater b a = false)
  ∧ (∀ a b c, ok a → ok b → ok c →
       greater b a = false → greater c b = false → greater c a = false).
Proof.
  destruct comparableScores; cbv zeta; split.
  - intros a b Ha Hb Hab. apply not_true_is_false.
    rewrite greater_level in Hab |- * by done. lia.
  - intros a b c Ha Hb Hc Hab Hbc. apply not_true_is_false.
    apply not_true_iff_false in Hab, Hbc.
    rewrite greater_level in Hab, Hbc |- * by done. lia.
  - intros a b Ha Hb _. apply greater_NaN. by right.
  - intros a b c Ha Hb Hc _ _. apply greater_NaN. by right.
Qed.

Lemma completion_bind_Return {A B : Type} (a : A) (f : A → completion B) :
  (Return a ≫= f) = f a.
Proof. reflexivity. Qed.

Lemma mapM_Return {A B : Type} (f : A → completion B) (l : list A) :
  (∀ x, ∃ y, f x = Return y) →
  ∃ ys, mapM f l = Return ys ∧ Forall2 (λ x y, f x = Return y) l ys.
Proof.
  intros Hf. induction l as [|x l (ys & IH & Hys)]; simpl.
  - exists []. split; [done|constructor].
  - destruct (Hf x) as [y Hy]. exists (y :: ys).
    rewrite Hy, completion_bind_Return, IH, completion_bind_Return.
    split; [done|by constructor].
Qed.

(** ** Scoring one job *)

Lemma explain_returns (now : Z) (job : gmap string value) (yearsOfExp : Z)
    (skillScore expScore locScore : Z) (recScore : Q) :
  (expScore < 70 → is_Some (stringField job "description")) →
  ∃ explanations,
    explain now job yearsOfExp skillScore expScore locScore recScore
    = Return explanations.
Proof.
  intros Hdescription. unfold explain. cbv zeta.
  repeat case_bool_decide; rewrite ?completion_bind_Return; try by eexists.
  all: destruct Hdescription as [description ->]; [lia|].
  all: rewrite completion_bind_Return; by eexists.
Qed.

(** The first callback of [rankJobs] returns: it adds the five fields of the
    ranking to the job and leaves the other fields as they are. *)
Lemma scoreJob_returns (now : Z) (normalizedWeights : Factors number)
    (resumeSkills : list string) (yearsOfExp : Z) (userLocation : option string)
    (job : gmap string value) :
  ∃ (scored : gmap string value) (s e l : Z) (r : Q),
    scoreJob now normalizedWeights resumeSkills yearsOfExp userLocation job
    = Return scored
    ∧ 0 ≤ s ∧ 0 < e ∧ 0 < l ∧ (0 < r)%Q
    ∧ rankingScoreOf scored = weightedScore normalizedWeights s e l r
    ∧ (∀ key, key ∉ rankingFields → scored !! key = job !! key)
    ∧ (∀ key, key ∈ rankingFields → is_Some (scored !! key)).
Proof.
  unfold scoreJob. cbv zeta.
  set (description := default EmptyString (stringField job "description")).
  destruct (calculateExperienceFit_bounds description yearsOfExp) as (e & He & Hbounds).
  rewrite He, completion_bind_Return.
  set (s := calculateSkillMatch (Some description) (Some resumeSkills)).
  set (l := calculateLocationMatch _ userLocation).
  set (r := calculateRecency now (dateField job "postedDate")).
  destruct (explain_returns now job yearsOfExp s e l r) as [explanations ->].
  { intros Hlow. destruct (stringField job "description") as [d|] eqn:Hd; [done|].
    exfalso. assert (Return e = Return (A:=Z) 75) as [= ->]; [|lia].
    by rewrite <- He. }
  rewrite completion_bind_Return.
  eexists _, s, e, l, r. split; [reflexivity|].
  split_and!.
  - apply calculateSkillMatch_bounds.
  - lia.
  - pose proof (calculateLocationMatch_bounds
                  (Some (default EmptyString (stringField job "location")))
                  userLocation). unfold l. lia.
  - pose proof (calculateRecency_bounds now (dateField job "postedDate")) as [? _].
    unfold r. lra.
  - unfold rankingScoreOf, numberField.
    by rewrite !lookup_insert_ne, lookup_insert_eq by done.
  - intros key Hkey. unfold rankingFields in Hkey.
    rewrite !not_elem_of_cons in Hkey.
    destruct Hkey as (? & ? & ? & ? & ? & _).
    by rewrite !lookup_insert_ne by done.
  - intros key Hkey. unfold rankingFields in Hkey.
    rewrite !elem_of_cons, elem_of_nil in Hkey.
    destruct Hkey as [->|[->|[->|[->|[->|[]]]]]];
      rewrite ?lookup_insert_eq, ?lookup_insert_ne by done;
      rewrite ?lookup_insert_eq, ?lookup_insert_ne by done;
      rewrite ?lookup_insert_eq, ?lookup_insert_ne by done;
      rewrite ?lookup_insert_eq, ?lookup_insert_ne by done;
      rewrite ?lookup_insert_eq by done; by eexists.
Qed.

Lemma setRank_frame (index : nat) (job : gmap string value) :
  rankingScoreOf (setRank index job) = rankingScoreOf job
  ∧ setRank index job !! "rank" = Some (VNumber (ofZ (Z.of_nat index + 1)))
  ∧ (∀ key, key ≠ "rank" → setRank index job !! key = job !! key).
Proof.
  unfold setRank, rankingScoreOf, numberField. split_and!.
  - by rewrite lookup_insert_ne.
  - by rewrite lookup_insert_eq.
  - intros key Hkey. by rewrite lookup_insert_ne.
Qed.

(** ** The ranked list *)

Lemma StronglySorted_lookup {A : Type} (R : A → A → Prop) (l : list A)
    (k k' : nat) (x y : A) :
  StronglySorted R l → (k < k')%nat → l !! k = Some x → l !! k' = Some y → R x y.
Proof.
  intros Hsorted. revert k k'.
  induction Hsorted as [|z l Hsorted IH Hz]; intros k k' Hlt Hx Hy; [done|].
  destruct k' as [|k']; [lia|]. destruct k as [|k]; simpl in *.
  - injection Hx as ->. rewrite Forall_forall in Hz.
    apply Hz. by eapply list_elem_of_lookup_2.
  - apply (IH k k'); [lia|done..].
Qed.

Lemma elem_of_indexedFrom {A : Type} (l : list A) (i : nat) (x : A) :
  (i, x) ∈ indexedFrom 0 l ↔ l !! i = Some x.
Proof.
  unfold indexedFrom. rewrite list_elem_of_lookup. split.
  - intros [k Hk]. apply lookup_zip_Some in Hk as [Hi Hx].
    apply lookup_seq in Hi as [-> _]. done.
  - intros Hx. exists i. apply lookup_zip_Some. split; [|done].
    apply lookup_seq. split; [done|]. by eapply lookup_lt_Some.
Qed.

Lemma indexedFrom_positions {A : Type} (l : list A) :
  (indexedFrom 0 l).*1 = seq 0 (length l).
Proof. unfold indexedFrom. apply fst_zip. by rewrite length_seq. Qed.

(** The first [map] of [rankJobs] returns. *)
Lemma scoreJobs_return (now : Z) (normalizedWeights : Factors number)
    (resumeSkills : list string) (yearsOfExp : Z) (userLocation : option string)
    (jobs : list (gmap string value)) :
  ∃ scored,
    mapM (scoreJob now normalizedWeights resumeSkills yearsOfExp userLocation) jobs
    = Return scored
    ∧ Forall2 (λ job s, scoreJob now normalizedWeights resumeSkills yearsOfExp
                          userLocation job = Return s) jobs scored.
Proof.
  apply mapM_Return. intros job.
  destruct (scoreJob_returns now normalizedWeights resumeSkills yearsOfExp
              userLocation job) as (s & _ & _ & _ & _ & Hs & _).
  by exists s.
Qed.

(** The ranking score of a scored job is a whole number, an infinity or NaN. *)
Lemma scored_whole (now : Z) (normalizedWeights : Factors number)
    (resumeSkills : list string) (yearsOfExp : Z) (userLocation : option string)
    (jobs scored : list (gmap string value)) :
  Forall2 (λ job s, scoreJob now normalizedWeights resumeSkills yearsOfExp
                      userLocation job = Return s) jobs scored →
  Forall (λ s, rankingScoreOf s = NaN ∨ isWhole (rankingScoreOf s)) scored.
Proof.
  intros Hscored.
  induction Hscored as [|job s jobs scored Hs _ IH]; constructor; [|done].
  destruct (scoreJob_returns now normalizedWeights resumeSkills yearsOfExp
              userLocation job)
    as (s' & sk & e & l & r & Hs' & _ & _ & _ & _ & Hscore & _).
  rewrite Hs in Hs'. injection Hs' as <-. rewrite Hscore.
  apply weightedScore_whole.
Qed.

(** Scored jobs whose ranking scores can be compared are consistently
    ordered by their ranking scores. *)
Lemma scored_consistent (scored : list (gmap string value)) :
  Forall (λ s, rankingScoreOf s = NaN ∨ isWhole (rankingScoreOf s)) scored →
  comparable (rankingScoreOf <$> scored) = true →
  ∃ ok : gmap string value → Prop,
    Forall ok scored
    ∧ (∀ x y, ok x → ok y → byRankingScore x y = true → byRankingScore y x = false)
    ∧ (∀ x y z, ok x → ok y → ok z → byRankingScore x y = false →
                byRankingScore y z = false → byRankingScore x z = false).
Proof.
  intros Hwhole Hcomparable. unfold comparable in Hcomparable.
  apply orb_true_iff in Hcomparable as [Hnone|Hall];
    rewrite forallb_forall in *.
  - destruct (greater_consistent true) as [Hasym Hneg]. cbv zeta in Hasym, Hneg.
    exists (λ s, isWhole (rankingScoreOf s)). split_and!.
    + rewrite Forall_forall in Hwhole |- *. intros s Hs.
      destruct (Hwhole s Hs) as [Hnan|]; [exfalso|done].
      assert (In (rankingScoreOf s) (rankingScoreOf <$> scored)) as Hin
        by (apply list_elem_of_In, list_elem_of_fmap; eauto).
      specialize (Hnone _ Hin). by rewrite Hnan in Hnone.
    + intros x y Hx Hy. rewrite !byRankingScore_greater. by apply Hasym.
    + intros x y z Hx Hy Hz. rewrite !byRankingScore_greater. by apply Hneg.
  - destruct (greater_consistent false) as [Hasym Hneg]. cbv zeta in Hasym, Hneg.
    exists (λ s, rankingScoreOf s = NaN). split_and!.
    + apply Forall_forall. intros s Hs.
      assert (In (rankingScoreOf s) (rankingScoreOf <$> scored)) as Hin
        by (apply list_elem_of_In, list_elem_of_fmap; eauto).
      specialize (Hall _ Hin). by destruct (rankingScoreOf s).
    + intros x y Hx Hy. rewrite !byRankingScore_greater. by apply Hasym.
    + intros x y z Hx Hy Hz. rewrite !byRankingScore_greater. by apply Hneg.
Qed.

(** [rankJobs] returns the scored jobs, sorted, each with its rank; when the
    ranking scores can be compared, no job stands before a job with a greater
    score, nor before an earlier job of the input with the same score. *)
Lemma rankJobs_spec (now : Z) (jobs : list (gmap string value)) (userResume : Resume)
    (userLocation : option string) (customWeights : Factors (option Q)) :
  jobs ≠ [] →
  ∃ (scored : list (gmap string value)) (sorted : list (nat * gmap string value)),
    Forall2 (λ job s,
               scoreJob now (normalizeWeights (mergeWeights customWeights))
                 (default [] (parsedSkills userResume))
                 (default 0 (yearsOfExperience userResume)) userLocation job
               = Return s) jobs scored
    ∧ rankingScores now jobs userResume userLocation customWeights
      = rankingScoreOf <$> scored
    ∧ sorted ≡ₚ indexedFrom 0 scored
    ∧ (comparable (rankingScoreOf <$> scored) = true →
       StronglySorted (inOrder byRankingScore) sorted)
    ∧ rankJobs now jobs userResume userLocation customWeights
      = Return (imap setRank sorted.*2).
Proof.
  intros Hjobs. unfold rankJobs, rankingScores.
  rewrite bool_decide_eq_false_2 by (by destruct jobs).
  cbv zeta.
  destruct (scoreJobs_return now (normalizeWeights (mergeWeights customWeights))
              (default [] (parsedSkills userResume))
              (default 0 (yearsOfExperience userResume)) userLocation jobs)
    as (scored & -> & Hscored).
  rewrite completion_bind_Return.
  exists scored, (JsArray.sort (afterIndexed byRankingScore) (indexedFrom 0 scored)).
  split_and!.
  - done.
  - done.
  - apply sort_Permutation.
  - intros Hcomparable.
    destruct (scored_consistent scored) as (ok & Hok & Hasym & Hneg);
      [by eapply scored_whole|done|].
    by apply (sort_inOrder byRankingScore ok).
  - by rewrite sort_indexed.
Qed.

Lemma ranked_lookup (scored : list (gmap string value))
    (sorted : list (nat * gmap string value)) (k i : nat) :
  sorted ≡ₚ indexedFrom 0 scored → sorted.*1 !! k = Some i →
  ∃ s, sorted !! k = Some (i, s) ∧ scored !! i = Some s
       ∧ imap setRank sorted.*2 !! k = Some (setRank k s).
Proof.
  intros Hperm Hk. apply list_lookup_fmap_Some in Hk as ([i' s] & -> & Hk).
  exists s. split_and!; [done| |].
  - apply elem_of_indexedFrom. rewrite <- Hperm. by eapply list_elem_of_lookup_2.
  - by rewrite list_lookup_imap, list_lookup_fmap, Hk.
Qed.

Example rankJobs_example :
  titlesAndScores (rankJobs 0 [jobA; jobB; jobC] exampleResume (Some EmptyString) skillOnly)
  = [(Some (VString "A"), ofZ 80, Some (VNumber (ofZ 1)));
     (Some (VString "B"), ofZ 80, Some (VNumber (ofZ 2)));
     (Some (VString "C"), ofZ 60, Some (VNumber (ofZ 3)))]
  ∧ titlesAndScores (rankJobs 0 [jobC; jobB; jobA] exampleResume (Some EmptyString) skillOnly)
  = [(Some (VString "B"), ofZ 80, Some (VNumber (ofZ 1)));
     (Some (VString "A"), ofZ 80, Some (VNumber (ofZ 2)));
     (Some (VString "C"), ofZ 60, Some (VNumber (ofZ 3)))].
Proof. by vm_compute. Qed.



(** C10.  Every entry [rankJobs] returns has the fields of the job of the
    input it stands for, with the values they have there; only the fields
    [rankingScore], [scoreBreakdown], [weights], [explanation] and [rank] are
    added or overwritten, and no other field is added.  [order] lists, for
    every position of the output, the position the job had in the input. *)
Theorem rankJobs_frame (now : Z) (jobs : list (gmap string value))
    (userResume : Resume) (userLocation : option string)
    (customWeights : Factors (option Q)) :
  forallb isJobDescriptor jobs = true →
  ∃ (ranked : list (gmap string value)) (order : list nat),
    rankJobs now jobs userResume userLocation customWeights = Return ranked
    ∧ order ≡ₚ seq 0 (length jobs)
    ∧ length ranked = length jobs
    ∧ (∀ i job, jobs !! i = Some job →
         ∃ k entry, order !! k = Some i ∧ ranked !! k = Some entry
                    ∧ (∀ key, key ∉ rankingFields → entry !! key = job !! key)
                    ∧ (∀ key, key ∈ rankingFields → is_Some (entry !! key))).
Proof.
  intros _. destruct (decide (jobs = [])) as [->|Hjobs].
  { exists [], []. split_and!; try done. }
  destruct (rankJobs_spec now jobs userResume userLocation customWeights Hjobs)
    as (scored & sorted & Hscored & _ & Hperm & _ & ->).
  exists (imap setRank sorted.*2), sorted.*1.
  assert (length scored = length jobs) as Hlen
    by (symmetry; by eapply Forall2_length).
  split_and!; [done| | |].
  - by rewrite Hperm, indexedFrom_positions, Hlen.
  - rewrite length_imap, length_fmap, Hperm.
    unfold indexedFrom. rewrite length_zip, length_seq. lia.
  - intros i job Hjob.
    assert (i ∈ sorted.*1) as [k Hk]%list_elem_of_lookup.
    { rewrite Hperm, indexedFrom_positions, Hlen. apply elem_of_seq.
      apply lookup_lt_Some in Hjob. lia. }
    destruct (ranked_lookup scored sorted k i Hperm Hk) as (s & _ & Hs & Hentry).
    exists k, (setRank k s). split; [done|]. split; [done|].
    pose proof (Forall2_lookup_lr _ _ _ _ _ _ Hscored Hjob Hs) as Hreturn.
    destruct (scoreJob_returns now (normalizeWeights (mergeWeights customWeights))
                (default [] (parsedSkills userResume))
                (default 0 (yearsOfExperience userResume)) userLocation job)
      as (s' & _ & _ & _ & _ & Hs' & _ & _ & _ & _ & _ & Hframe & Hadded).
    simpl in Hreturn. rewrite Hreturn in Hs'. injection Hs' as <-.
    destruct (setRank_frame k s) as (_ & Hrank & Hother).
    split.
    + intros key Hkey. rewrite Hother; [by apply Hframe|].
      intros ->. apply Hkey. unfold rankingFields. set_solver.
    + intros key Hkey. destruct (decide (key = "rank")) as [->|Hne].
      * by rewrite Hrank.
      * rewrite Hother by done. by apply Hadded.
Qed.

(** The fields of the jobs C and A of the example after the ranking. *)
Lemma rankJobs_frame_witness :
  forallb isJobDescriptor [jobC; jobA] = true
  ∧ ∃ ranked order,
      rankJobs 0 [jobC; jobA] exampleResume (Some EmptyString) skillOnly = Return ranked
      ∧ order ≡ₚ seq 0 2
      ∧ ∀ i job, [jobC; jobA] !! i = Some job →
          ∃ k entry, order !! k = Some i ∧ ranked !! k = Some entry
                     ∧ (∀ key, key ∉ rankingFields → entry !! key = job !! key)
                     ∧ (∀ key, key ∈ rankingFields → is_Some (entry !! key)).
Proof.
  split; [reflexivity|].
  destruct (rankJobs_frame 0 [jobC; jobA] exampleResume (Some EmptyString) skillOnly)
    as (ranked & order & Hranked & Horder & _ & Hframe).
  - reflexivity.
  - exists ranked, order. split; [exact Hranked|]. split; [exact Horder|exact Hframe].
Defined.

(** The safety check at work: the punctuation step splits "a.b" into "a."
    and "b", "a." is no word of the answer, and the answer is returned as it
    was; without such a word the reordered text is returned. *)
Example improveAnswer_reverts :
  draftText (draftAnswer "a.b cd" None) = "a. b cd"
  ∧ draftConfidence (draftAnswer "a.b cd" None) = 30
  ∧ allWordsExist "a.b cd" "a. b cd" = false
  ∧ (∃ response, improveAnswer 0 (Some " a.b cd") None = Improved response
                 ∧ originalText (data response) = "a.b cd"
                 ∧ improved (data response) = "a.b cd"
                 ∧ confidence (data response) = 20)
  ∧ (∃ response,
       improveAnswer 0 (Some "I led a team.   I know React well!")
                     (Some "React developer") = Improved response
       ∧ improved (data response) = "I know React well! I led a team."
       ∧ confidence (data response) = 65).
Proof. split_and!; try (by vm_compute); eexists; by vm_compute. Qed.

(** ** The matcher of the required years and the regular expression *)

Lemma append_nil (b : string) : EmptyString +:+ b = b.
Proof. reflexivity. Qed.

Lemma append_cons (c : ascii) (a b : string) : String c a +:+ b = String c (a +:+ b).
Proof. reflexivity. Qed.

Lemma append_assoc (a b c : string) : (a +:+ b) +:+ c = a +:+ b +:+ c.
Proof.
  induction a as [|x a IH]; [done|]. by rewrite !append_cons, IH.
Qed.

Lemma headIs_append (P : ascii → bool) (a b : string) :
  headIs P (a +:+ b) = if decide (a = EmptyString) then headIs P b else headIs P a.
Proof. by destruct a. Qed.

Lemma takeDigits_spec (s : string) :
  s = (takeDigits s).1 +:+ (takeDigits s).2
  ∧ allDigits (takeDigits s).1 = true
  ∧ headIs isDigit (takeDigits s).2 = false.
Proof.
  induction s as [|c s (IH1 & IH2 & IH3)]; [done|]. simpl.
  destruct (isDigit c) eqn:Hc.
  - destruct (takeDigits s) as [d r]. simpl in *.
    rewrite append_cons, Hc, <- IH1. done.
  - simpl. by rewrite Hc.
Qed.

Lemma takeDigits_append (d r : string) :
  allDigits d = true → headIs isDigit r = false → takeDigits (d +:+ r) = (d, r).
Proof.
  intros Hd Hr. induction d as [|c d IH].
  - rewrite append_nil. destruct r as [|c r]; [done|]. simpl in *. by rewrite Hr.
  - simpl in Hd. apply andb_true_iff in Hd as [Hc Hd].
    rewrite append_cons. simpl. by rewrite Hc, IH.
Qed.

Lemma dropSpaces_spec (s : string) :
  ∃ ws, s = ws +:+ dropSpaces s ∧ allSpaces ws = true
        ∧ headIs isSpace (dropSpaces s) = false.
Proof.
  induction s as [|c s (ws & IH1 & IH2 & IH3)].
  - by exists EmptyString.
  - simpl. destruct (isSpace c) eqn:Hc.
    + exists (String c ws). rewrite append_cons, <- IH1. simpl. by rewrite Hc.
    + exists EmptyString. rewrite append_nil. simpl. by rewrite Hc.
Qed.

Lemma dropSpaces_append (ws r : string) :
  allSpaces ws = true → headIs isSpace r = false → dropSpaces (ws +:+ r) = r.
Proof.
  intros Hws Hr. induction ws as [|c ws IH].
  - rewrite append_nil. destruct r as [|c r]; [done|]. simpl in *. by rewrite Hr.
  - simpl in Hws. apply andb_true_iff in Hws as [Hc Hws].
    rewrite append_cons. simpl. rewrite Hc. by apply IH.
Qed.

Lemma skipLiteralCI_spec (p s r : string) :
  skipLiteralCI p s = Some r → ∃ l, s = l +:+ r ∧ toLowerCase l = p.
Proof.
  revert s. induction p as [|a p IH]; intros s Hskip; simpl in *.
  - exists EmptyString. by injection Hskip as ->.
  - destruct s as [|b s]; [done|]. case_decide as Hb; [|done].
    destruct (IH s Hskip) as (l & -> & <-). exists (String b l).
    rewrite append_cons. simpl. by rewrite Hb.
Qed.

Lemma skipLiteralCI_append (l r : string) :
  skipLiteralCI (toLowerCase l) (l +:+ r) = Some r.
Proof.
  induction l as [|b l IH]; [done|].
  rewrite append_cons. simpl. by rewrite decide_True.
Qed.

Lemma skipSpaces1_spec (s r : string) :
  skipSpaces1 s = Some r →
  ∃ ws, s = ws +:+ r ∧ ws ≠ EmptyString ∧ allSpaces ws = true
        ∧ headIs isSpace r = false.
Proof.
  unfold skipSpaces1. destruct s as [|c s]; [done|].
  destruct (isSpace c) eqn:Hc; [|done]. intros [= <-].
  destruct (dropSpaces_spec s) as (ws & Hs & Hws & Hhead).
  exists (String c ws). rewrite append_cons, <- Hs. simpl. by rewrite Hc.
Qed.

Lemma skipSpaces1_append (ws r : string) :
  ws ≠ EmptyString → allSpaces ws = true → headIs isSpace r = false →
  skipSpaces1 (ws +:+ r) = Some r.
Proof.
  intros Hne Hws Hr. destruct ws as [|c ws]; [done|]. simpl in Hws.
  apply andb_true_iff in Hws as [Hc Hws].
  rewrite append_cons. simpl. by rewrite Hc, dropSpaces_append.
Qed.

Lemma char_classes (c : ascii) :
  (isSpace c = true → isDigit c = false ∧ c ≠ "+"%char ∧ toLowerChar c ≠ "s"%char)
  ∧ (toLowerChar c = "y"%char → isDigit c = false ∧ c ≠ "+"%char ∧ isSpace c = false)
  ∧ (toLowerChar c = "o"%char → isSpace c = false)
  ∧ (toLowerChar c = "e"%char → isSpace c = false)
  ∧ (c = "+"%char → isDigit c = false).
Proof.
  destruct c as [[] [] [] [] [] [] [] []]; vm_compute; split_and!; intros; done.
Qed.

Lemma option_bind_Some {A B : Type} (x : A) (f : A → option B) :
  (Some x ≫= f) = f x.
Proof. reflexivity. Qed.

(** What the matcher finds at the start of a string is what the regular
    expression matches there, and the digits it returns are group 1. *)
Lemma matchYearsOfExperience_sound (s digits : string) :
  matchYearsOfExperience s = Some digits →
  ∃ text rest, s = text +:+ rest ∧ YearsOfExperience digits text.
Proof.
  unfold matchYearsOfExperience.
  destruct (takeDigits_spec s) as (Hs & Hdigits & _).
  destruct (takeDigits s) as [d r0]. simpl in Hs, Hdigits.
  case_decide as Hne; [done|].
  set (r1 := match r0 with String "+" r' => r' | _ => r0 end).
  assert (∃ plus, r0 = plus +:+ r1 ∧ (plus = EmptyString ∨ plus = "+"))
    as (plus & Hr0 & Hplus).
  { destruct r0 as [|c r0]; [by exists EmptyString; auto|].
    destruct (decide (c = "+"%char)) as [->|Hc].
    - exists "+". auto.
    - exists EmptyString. split; [|auto]. unfold r1.
      destruct c as [[] [] [] [] [] [] [] []]; try reflexivity. done. }
  destruct (dropSpaces_spec r1) as (ws1 & Hr1 & Hws1 & _).
  destruct (skipLiteralCI "year" (dropSpaces r1)) as [r3|] eqn:Hyear; [|done].
  apply skipLiteralCI_spec in Hyear as (year & Hr2 & Hyear).
  rewrite option_bind_Some.
  set (r4 := match r3 with
             | String c r' => if decide (toLowerChar c = "s"%char) then r' else r3
             | EmptyString => r3
             end).
  assert (∃ s', r3 = s' +:+ r4 ∧ (s' = EmptyString ∨ toLowerCase s' = "s"))
    as (s' & Hr3 & Hs').
  { destruct r3 as [|c r3]; [by exists EmptyString; auto|]. unfold r4.
    case_decide as Hc.
    - exists (String c EmptyString). split; [done|]. right. simpl. by rewrite Hc.
    - exists EmptyString. auto. }
  destruct (skipSpaces1 r4) as [r5|] eqn:Hws2; [|done].
  apply skipSpaces1_spec in Hws2 as (ws2 & Hr4 & Hne2 & Hws2 & _).
  rewrite option_bind_Some.
  destruct (skipLiteralCI "of" r5) as [r6|] eqn:Hof; [|done].
  apply skipLiteralCI_spec in Hof as (of_ & Hr5 & Hof).
  rewrite option_bind_Some.
  destruct (skipSpaces1 r6) as [r7|] eqn:Hws3; [|done].
  apply skipSpaces1_spec in Hws3 as (ws3 & Hr6 & Hne3 & Hws3 & _).
  rewrite option_bind_Some.
  destruct (skipLiteralCI "experience" r7) as [rest|] eqn:Hexp; [|done].
  apply skipLiteralCI_spec in Hexp as (experience & Hr7 & Hexp).
  rewrite option_bind_Some.
  intros [= <-].
  exists (d +:+ plus +:+ ws1 +:+ year +:+ s' +:+ ws2 +:+ of_ +:+ ws3 +:+ experience), rest.
  split.
  - rewrite !append_assoc. rewrite Hs, Hr0, Hr1, Hr2, Hr3, Hr4, Hr5, Hr6, Hr7.
    reflexivity.
  - exists plus, ws1, year, s', ws2, of_, ws3, experience. by split_and!.
Qed.

Lemma allSpaces_head (ws : string) :
  ws ≠ EmptyString → allSpaces ws = true →
  ∃ c w, ws = String c w ∧ isSpace c = true.
Proof.
  destruct ws as [|c w]; [done|]. simpl. intros _ [Hc _]%andb_true_iff. eauto.
Qed.

Lemma toLowerCase_head (l p : string) (c : ascii) :
  toLowerCase l = String c p →
  ∃ b l', l = String b l' ∧ toLowerChar b = c ∧ toLowerCase l' = p.
Proof. destruct l as [|b l']; [done|]. simpl. intros [= <- <-]. eauto. Qed.

(** Conversely, the matcher finds every match of the regular expression at
    the start of a string. *)
Lemma matchYearsOfExperience_complete (digits text rest : string) :
  YearsOfExperience digits text →
  matchYearsOfExperience (text +:+ rest) = Some digits.
Proof.
  intros (plus & ws1 & year & s & ws2 & of_ & ws3 & experience & -> & Hne & Hdigits
          & Hplus & Hws1 & Hyear & Hs & Hne2 & Hws2 & Hof & Hne3 & Hws3 & Hexp).
  rewrite !append_assoc.
  destruct (toLowerCase_head _ _ _ Hyear) as (y & year' & -> & Hy & _).
  destruct (toLowerCase_head _ _ _ Hof) as (o & of' & -> & Ho & _).
  destruct (toLowerCase_head _ _ _ Hexp) as (e & exp' & -> & He & _).
  destruct (allSpaces_head ws2 Hne2 Hws2) as (c2 & w2 & -> & Hc2).
  destruct (allSpaces_head ws3 Hne3 Hws3) as (c3 & w3 & -> & Hc3).
  destruct (char_classes y) as (_ & Hy' & _). destruct (Hy' Hy) as (Hyd & Hyp & Hys).
  destruct (char_classes o) as (_ & _ & Ho' & _). specialize (Ho' Ho).
  destruct (char_classes e) as (_ & _ & _ & He' & _). specialize (He' He).
  destruct (char_classes c2) as (Hc2' & _). destruct (Hc2' Hc2) as (_ & _ & Hc2s).
  unfold matchYearsOfExperience.
  rewrite takeDigits_append; [|done|].
  2:{ destruct Hplus as [-> | ->]; [|done]. rewrite append_nil.
      destruct ws1 as [|c1 w1]; [by rewrite append_nil|].
      simpl in Hws1. apply andb_true_iff in Hws1 as [Hc1 _].
      destruct (char_classes c1) as (Hc1' & _). by destruct (Hc1' Hc1) as (? & _). }
  rewrite decide_False by done.
  set (tail2 := String c2 w2 +:+ String o of' +:+ String c3 w3 +:+ String e exp' +:+ rest).
  assert (match plus +:+ ws1 +:+ String y year' +:+ s +:+ tail2 with
          | String "+" r' => r'
          | _ => plus +:+ ws1 +:+ String y year' +:+ s +:+ tail2
          end = ws1 +:+ String y year' +:+ s +:+ tail2) as ->.
  { destruct Hplus as [-> | ->]; [|done]. rewrite append_nil.
    destruct ws1 as [|c1 w1].
    - rewrite append_nil, append_cons.
      destruct y as [[] [] [] [] [] [] [] []]; done.
    - simpl in Hws1. apply andb_true_iff in Hws1 as [Hc1 _].
      destruct (char_classes c1) as (Hc1' & _). destruct (Hc1' Hc1) as (_ & Hc1p & _).
      rewrite append_cons. destruct c1 as [[] [] [] [] [] [] [] []]; done. }
  rewrite dropSpaces_append by done.
  rewrite <- Hyear, skipLiteralCI_append, option_bind_Some.
  assert (match s +:+ tail2 with
          | String c r' => if decide (toLowerChar c = "s"%char) then r' else s +:+ tail2
          | EmptyString => s +:+ tail2
          end = tail2) as ->.
  { destruct Hs as [-> | Hs].
    - rewrite append_nil. unfold tail2. rewrite append_cons. by rewrite decide_False.
    - destruct (toLowerCase_head _ _ _ Hs) as (b & s' & -> & Hb & Hs').
      destruct s'; [|done]. rewrite append_cons, append_nil. by rewrite decide_True. }
  unfold tail2.
  rewrite skipSpaces1_append, option_bind_Some by done.
  rewrite <- Hof, skipLiteralCI_append, option_bind_Some.
  rewrite skipSpaces1_append, option_bind_Some by done.
  by rewrite <- Hexp, skipLiteralCI_append, option_bind_Some.
Qed.

(** [firstMatch] finds the match at the leftmost position that has one. *)
Lemma firstMatch_leftmost (re : string → option string) (s group : string) :
  firstMatch re s = Some group ↔
  ∃ before from, s = before +:+ from ∧ re from = Some group
    ∧ ∀ before' from', s = before' +:+ from' →
        (String.length before' < String.length before)%nat → re from' = None.
Proof.
  revert group. induction s as [|c s IH]; intros group; simpl.
  - destruct (re EmptyString) as [g|] eqn:Hre.
    + split.
      * intros [= <-]. exists EmptyString, EmptyString. split_and!; [done..|].
        intros ? ? _ Hlen. simpl in Hlen. lia.
      * intros (before & from & Hs & Hfrom & _).
        destruct before; [|done]. rewrite append_nil in Hs. subst from. congruence.
    + split; [done|]. intros (before & from & Hs & Hfrom & _).
      destruct before; [|done]. rewrite append_nil in Hs. subst from. congruence.
  - destruct (re (String c s)) as [g|] eqn:Hre.
    + split.
      * intros [= <-]. exists EmptyString, (String c s). split_and!; [done..|].
        intros ? ? _ Hlen. simpl in Hlen. lia.
      * intros (before & from & Hs & Hfrom & Hleft).
        destruct before as [|b before].
        -- rewrite append_nil in Hs. subst from. congruence.
        -- specialize (Hleft EmptyString (String c s) eq_refl). simpl in Hleft.
           rewrite Hleft in Hre by lia. done.
    + rewrite IH. split.
      * intros (before & from & -> & Hfrom & Hleft).
        exists (String c before), from. split_and!; [done..|].
        intros before' from' Hs Hlen. destruct before' as [|b' before'].
        -- rewrite append_nil in Hs. by subst from'.
        -- rewrite !append_cons in Hs. injection Hs as -> Hs.
           apply (Hleft before' from' Hs). simpl in Hlen. lia.
      * intros (before & from & Hs & Hfrom & Hleft).
        destruct before as [|b before].
        -- rewrite append_nil in Hs. subst from. congruence.
        -- rewrite append_cons in Hs. injection Hs as -> ->.
           exists before, from. split_and!; [done..|].
           intros before' from' Hs Hlen.
           apply (Hleft (String b before') from'); [by rewrite append_cons, Hs|].
           simpl. lia.
Qed.

(** The required years [calculateExperienceFit] reads are group 1 of the
    leftmost match of the regular expression in the job description. *)
Theorem requiredYears_regex (description digits : string) :
  firstMatch matchYearsOfExperience description = Some digits ↔
  ∃ before from,
    description = before +:+ from
    ∧ (∃ text rest, from = text +:+ rest ∧ YearsOfExperience digits text)
    ∧ ∀ before' from', description = before' +:+ from' →
        (String.length before' < String.length before)%nat →
        ¬ ∃ digits' text rest, from' = text +:+ rest ∧ YearsOfExperience digits' text.
Proof.
  rewrite firstMatch_leftmost. split.
  - intros (before & from & Hs & Hmatch & Hleft). exists before, from.
    split_and!; [done|by apply matchYearsOfExperience_sound|].
    intros before' from' Hs' Hlen (digits' & text & rest & -> & Htext).
    specialize (Hleft before' _ Hs' Hlen).
    by rewrite (matchYearsOfExperience_complete digits' text rest Htext) in Hleft.
  - intros (before & from & Hs & (text & rest & -> & Htext) & Hleft).
    exists before, (text +:+ rest).
    split_and!; [done|by apply matchYearsOfExperience_complete|].
    intros before' from' Hs' Hlen.
    destruct (matchYearsOfExperience from') as [digits'|] eqn:Hmatch; [|done].
    exfalso. apply (Hleft before' from' Hs' Hlen).
    apply matchYearsOfExperience_sound in Hmatch as (text' & rest' & -> & Htext').
    by exists digits', text', rest'.
Qed.







(** ** Totality *)

(** [rankJobs] returns for every list of jobs whose descriptions and
    locations are strings and whose posting dates are dates, each present or
    missing, with one entry per job; the empty list gives the empty list. *)
Theorem rankJobs_returns (now : Z) (jobs : list (gmap string value))
    (userResume : Resume) (userLocation : option string)
    (customWeights : Factors (option Q)) :
  forallb isJobDescriptor jobs = true →
  (∃ ranked, rankJobs now jobs userResume userLocation customWeights = Return ranked
             ∧ length ranked = length jobs)
  ∧ rankJobs now [] userResume userLocation customWeights = Return [].
Proof.
  intros _. split; [|done]. destruct (decide (jobs = [])) as [->|Hjobs]; [by exists []|].
  destruct (rankJobs_spec now jobs userResume userLocation customWeights Hjobs)
    as (scored & sorted & Hscored & _ & Hperm & _ & ->).
  eexists. split; [done|].
  rewrite length_imap, length_fmap, Hperm. unfold indexedFrom.
  rewrite length_zip, length_seq. apply Forall2_length in Hscored. lia.
Qed.

(** The jobs A and C of the example with the default weights. *)
Lemma rankJobs_returns_witness :
  forallb isJobDescriptor [jobA; jobC] = true
  ∧ ∃ ranked, rankJobs 0 [jobA; jobC] exampleResume None noOverrides = Return ranked
              ∧ length ranked = 2%nat.
Proof.
  split; [reflexivity|].
  destruct (rankJobs_returns 0 [jobA; jobC] exampleResume None noOverrides)
    as [Hreturns _]; [reflexivity|exact Hreturns].
Defined.

(** [improveAnswer] gives an answer that is empty or no string back, with
    confidence 0 and no changes. *)
Theorem improveAnswer_empty (now : Z) (jobDescription : option string) :
  improveAnswer now (Some EmptyString) jobDescription
  = NoImprovement EmptyString 0 [] "No improvement needed"
  ∧ improveAnswer now None jobDescription
    = NoImprovement EmptyString 0 [] "No improvement needed".
Proof. done. Qed.

(** ** The order of the remodeled skills *)

Lemma jobSkillIndex_nil (a : string) : jobSkillIndex [] a = 999.
Proof. reflexivity. Qed.

Lemma indexedFrom_inOrder {A : Type} (after : A → A → bool) (start : nat)
    (l : list A) :
  (∀ x y, after x y = false) →
  StronglySorted (inOrder after) (indexedFrom start l).
Proof.
  intros Hafter. revert start. induction l as [|x l IH]; intros start.
  - constructor.
  - change (indexedFrom start (x :: l)) with ((start, x) :: indexedFrom (S start) l).
    constructor; [apply IH|].
    eapply Forall_impl; [apply (indexedFrom_bounds (λ _, True) (S start))|].
    + by apply Forall_true.
    + intros q [Hq _]. split; [apply Hafter|]. intros _. simpl. lia.
Qed.

Lemma orderedSkills_order (jobSkills original : list string) :
  ∃ sorted : list (nat * string),
    sorted ≡ₚ indexedFrom 0 original
    ∧ (if bool_decide (length jobSkills ≠ 0%nat)
       then JsArray.sort (byJobSkill jobSkills) original
       else original) = sorted.*2
    ∧ ∀ k l i j a b, (k < l)%nat →
        sorted !! k = Some (i, a) → sorted !! l = Some (j, b) →
        jobSkillIndex jobSkills a < jobSkillIndex jobSkills b
        ∨ jobSkillIndex jobSkills a = jobSkillIndex jobSkills b ∧ (i < j)%nat.
Proof.
  assert (∀ sorted : list (nat * string),
            StronglySorted (inOrder (byJobSkill jobSkills)) sorted →
            ∀ k l i j a b, (k < l)%nat →
              sorted !! k = Some (i, a) → sorted !! l = Some (j, b) →
              jobSkillIndex jobSkills a < jobSkillIndex jobSkills b
              ∨ jobSkillIndex jobSkills a = jobSkillIndex jobSkills b ∧ (i < j)%nat)
    as Horder.
  { intros sorted Hsorted k l i j a b Hlt Hk Hl.
    destruct (StronglySorted_lookup _ _ _ _ _ _ Hsorted Hlt Hk Hl) as [Hab Hba].
    unfold inOrder, byJobSkill in Hab, Hba. cbn [fst snd] in Hab, Hba.
    apply bool_decide_eq_false in Hab.
    destruct (decide (jobSkillIndex jobSkills a = jobSkillIndex jobSkills b))
      as [Heq|Hne]; [|lia].
    right. split; [done|]. apply Hba. apply bool_decide_eq_false. lia. }
  case_bool_decide as Hjobs.
  - exists (JsArray.sort (afterIndexed (byJobSkill jobSkills)) (indexedFrom 0 original)).
    split_and!.
    + apply sort_Permutation.
    + by rewrite sort_indexed.
    + apply Horder. apply (sort_inOrder _ (λ _, True)).
      * intros x y _ _. unfold byJobSkill.
        rewrite bool_decide_eq_true, bool_decide_eq_false. lia.
      * intros x y z _ _ _. unfold byJobSkill.
        rewrite !bool_decide_eq_false. lia.
      * by apply Forall_true.
  - exists (indexedFrom 0 original). split_and!.
    + done.
    + unfold indexedFrom. rewrite snd_zip; [done|]. by rewrite length_seq.
    + apply Horder. apply indexedFrom_inOrder. intros x y.
      apply nil_length_inv in Hjobs. subst jobSkills.
      unfold byJobSkill. rewrite !jobSkillIndex_nil. by apply bool_decide_eq_false.
Qed.

(** The skills [remodelResume] returns stand in the order of the places of
    their first match among the job skills, the skills that match no job
    skill last, and skills with the same place in the order they had before.
    [sorted] pairs each skill with its position in the list without repeated
    entries. *)
Theorem remodelResume_order (now : Z) (resume : Resume)
    (jobDescription : option string) :
  let result := data (remodelResume now resume jobDescription) in
  let place := jobSkillIndex (extractJobSkills jobDescription) in
  ∃ sorted : list (nat * string),
    sorted ≡ₚ indexedFrom 0 (originalSkills result)
    ∧ remodeledSkills result = sorted.*2
    ∧ ∀ k l i j a b, (k < l)%nat →
        sorted !! k = Some (i, a) → sorted !! l = Some (j, b) →
        place a < place b ∨ place a = place b ∧ (i < j)%nat.
Proof.
  cbv zeta. rewrite remodeledSkills_eq, originalSkills_eq.
  apply orderedSkills_order.
Qed.

(** ** Substrings *)

Lemma startsWith_spec (s p : string) :
  startsWith s p = true ↔ ∃ r, s = p +:+ r.
Proof.
  revert s. induction p as [|a p IH]; intros s; simpl.
  - split; [intros _; by exists s|intros _; by destruct s].
  - destruct s as [|b s]; simpl.
    + split; [done|]. by intros [r Hr].
    + case_decide as Hab.
      * subst b. rewrite IH. split; intros [r Hr]; exists r.
        -- by rewrite Hr.
        -- by injection Hr.
      * split; [done|]. intros [r Hr]. by injection Hr as -> _.
Qed.

Lemma includes_spec (s sub : string) :
  includes s sub = true ↔ ∃ a b, s = a +:+ sub +:+ b.
Proof.
  induction s as [|c s IH].
  - cbn [includes]. rewrite orb_false_r, startsWith_spec. split.
    + intros [r Hr]. by exists EmptyString, r.
    + intros (a & b & Hab). destruct a; [by exists b|done].
  - cbn [includes]. rewrite orb_true_iff, IH, startsWith_spec. split.
    + intros [[r Hr]|(a & b & Hab)].
      * by exists EmptyString, r.
      * exists (String c a), b. by rewrite Hab.
    + intros (a & b & Hab). destruct a as [|c' a].
      * left. by exists b.
      * right. exists a, b. by injection Hab.
Qed.

Lemma append_nil_r (a : string) : a +:+ EmptyString = a.
Proof. induction a as [|c a IH]; [done|]. by rewrite append_cons, IH. Qed.

Lemma includes_refl (s : string) : includes s s = true.
Proof. apply includes_spec. exists EmptyString, EmptyString. by rewrite append_nil, append_nil_r. Qed.

Lemma includes_empty (s : string) : includes s EmptyString = true.
Proof. apply includes_spec. by exists EmptyString, s. Qed.

(** A substring of a substring is a substring. *)
Lemma includes_trans (s t u : string) :
  includes s t = true → includes t u = true → includes s u = true.
Proof.
  rewrite !includes_spec. intros (a & b & ->) (c & d & ->).
  exists (a +:+ c), (d +:+ b). by rewrite !append_assoc.
Qed.

Lemma includes_append (a s b sub : string) :
  includes s sub = true → includes (a +:+ s +:+ b) sub = true.
Proof.
  intros Hs. apply (includes_trans _ s); [|done].
  apply includes_spec. by exists a, b.
Qed.

(** ** The skills of a job description *)

Lemma KNOWN_SKILLS_NoDup : NoDup KNOWN_SKILLS.
Proof. apply (bool_decide_unpack _). by vm_compute. Qed.

Lemma KNOWN_SKILLS_lower (skill : string) :
  skill ∈ KNOWN_SKILLS → normalize skill = skill.
Proof.
  revert skill. apply Forall_forall. apply (bool_decide_unpack _). by vm_compute.
Qed.

Lemma KNOWN_SKILLS_nonempty (skill : string) :
  skill ∈ KNOWN_SKILLS → skill ≠ EmptyString.
Proof.
  revert skill. apply Forall_forall. apply (bool_decide_unpack _). by vm_compute.
Qed.

(** A loop that adds the elements with a property to a [Set] is a filter,
    when the elements are distinct. *)
Lemma foldl_add_filter (p : string → bool) (l acc : list string) :
  NoDup l → (∀ x, x ∈ l → x ∉ acc) →
  foldl (λ found x, if p x then JsSet.add found x else found) acc l
  = acc ++ filter (λ x, p x = true) l.
Proof.
  revert acc. induction l as [|x l IH]; intros acc Hnd Hfresh; simpl.
  - by rewrite app_nil_r.
  - apply NoDup_cons in Hnd as [Hx Hnd]. rewrite filter_cons.
    destruct (p x) eqn:Hp.
    + rewrite decide_True by done.
      unfold JsSet.add at 2. rewrite decide_False by (apply Hfresh; left).
      rewrite IH, <- app_assoc; [done|done|].
      intros y Hy [Hin| ->%list_elem_of_singleton]%elem_of_app; [|done].
      by apply (Hfresh y); [right|].
    + rewrite decide_False by done. apply IH; [done|].
      intros y Hy. apply Hfresh. by right.
Qed.

Lemma extractJobSkills_filter (jobDescription : option string) :
  extractJobSkills jobDescription
  = filter (λ skill, includes (normalize' jobDescription) skill = true) KNOWN_SKILLS.
Proof.
  unfold extractJobSkills. cbv zeta.
  rewrite (foldl_add_filter (includes (normalize' jobDescription)));
    [done|apply KNOWN_SKILLS_NoDup|].
  intros x _. apply not_elem_of_nil.
Qed.

Lemma elem_of_extractJobSkills (jobDescription : option string) (skill : string) :
  skill ∈ extractJobSkills jobDescription
  ↔ skill ∈ KNOWN_SKILLS ∧ includes (normalize' jobDescription) skill = true.
Proof. rewrite extractJobSkills_filter, list_elem_of_filter. tauto. Qed.

Lemma extractJobSkills_NoDup (jobDescription : option string) :
  NoDup (extractJobSkills jobDescription).
Proof. rewrite extractJobSkills_filter. apply NoDup_filter, KNOWN_SKILLS_NoDup. Qed.

Lemma extractJobSkills_lower (jobDescription : option string) :
  normalize <$> extractJobSkills jobDescription = extractJobSkills jobDescription.
Proof.
  rewrite <- (list_fmap_id (extractJobSkills jobDescription)) at 2.
  apply list_fmap_ext. intros i skill Hi. apply KNOWN_SKILLS_lower.
  eapply elem_of_extractJobSkills, list_elem_of_lookup_2, Hi.
Qed.

Lemma toLowerChar_idemp (c : ascii) : toLowerChar (toLowerChar c) = toLowerChar c.
Proof. by destruct c as [[] [] [] [] [] [] [] []]; vm_compute. Qed.

Lemma toLowerCase_idemp (s : string) : toLowerCase (toLowerCase s) = toLowerCase s.
Proof.
  induction s as [|c s IH]; [done|].
  cbn [toLowerCase]. by rewrite toLowerChar_idemp, IH.
Qed.

Lemma extractJobSkills_missing :
  extractJobSkills None = [] ∧ extractJobSkills (Some EmptyString) = [].
Proof. by vm_compute. Qed.

(** A description with a known skill is a non-empty string. *)
Lemma extractJobSkills_truthy (jobDescription : option string) :
  extractJobSkills jobDescription ≠ [] → truthy jobDescription = true.
Proof.
  destruct extractJobSkills_missing as [Hnone Hempty].
  destruct jobDescription as [[|c s]|]; simpl; done.
Qed.

(** The skills of a job description are the known skills that occur in the
    description in lower case, as substrings: they come in the order of
    [KNOWN_SKILLS], each once, whatever the case of the letters of the
    description; a missing or empty description has none. *)
Theorem extractJobSkills_spec (jobDescription : option string) :
  let found := extractJobSkills jobDescription in
  found = filter (λ skill, includes (normalize' jobDescription) skill = true) KNOWN_SKILLS
  ∧ NoDup found
  ∧ found `sublist_of` KNOWN_SKILLS
  ∧ extractJobSkills (Some (normalize' jobDescription)) = found
  ∧ extractJobSkills None = []
  ∧ extractJobSkills (Some EmptyString) = [].
Proof.
  intros found. subst found. split_and!.
  - apply extractJobSkills_filter.
  - apply extractJobSkills_NoDup.
  - rewrite extractJobSkills_filter. apply sublist_filter.
  - unfold extractJobSkills. cbv zeta.
    replace (normalize' (Some (normalize' jobDescription)))
      with (normalize' jobDescription); [done|].
    unfold normalize'. simpl default. by rewrite toLowerCase_idemp.
  - apply extractJobSkills_missing.
  - apply extractJobSkills_missing.
Qed.

(** Skills are found as substrings, not as words: with a skill, every known
    skill that is a part of it is found as well.  A description that names
    javascript also yields java, and one that names django yields go. *)
Theorem extractJobSkills_substring (jobDescription : option string)
    (part whole : string) :
  part ∈ KNOWN_SKILLS → includes whole part = true →
  whole ∈ extractJobSkills jobDescription →
  part ∈ extractJobSkills jobDescription.
Proof.
  rewrite !elem_of_extractJobSkills. intros Hpart Hinc [_ Hwhole].
  split; [done|]. by apply (includes_trans _ whole).
Qed.

Lemma extractJobSkills_substring_witness :
  "go" ∈ extractJobSkills (Some "Python with Django") .
Proof.
  apply (extractJobSkills_substring _ "go" "django").
  - apply (bool_decide_unpack _). by vm_compute.
  - by vm_compute.
  - apply (bool_decide_unpack _). by vm_compute.
Defined.

(** ** The skill match *)

Lemma Math_round_mono (p q : Q) : (p <= q)%Q → Math_round p ≤ Math_round q.
Proof. intros Hpq. unfold Math_round. apply Qfloor_resp_le. lra. Qed.

Lemma length_filter_impl {A : Type} (P Q : A → Prop)
    `{∀ x, Decision (P x)} `{∀ x, Decision (Q x)} (l : list A) :
  (∀ x, x ∈ l → P x → Q x) → (length (filter P l) ≤ length (filter Q l))%nat.
Proof.
  induction l as [|x l IH]; intros HPQ; [done|].
  rewrite !filter_cons.
  assert (length (filter P l) ≤ length (filter Q l))%nat as Hle.
  { apply IH. intros y Hy. apply HPQ. by right. }
  destruct (decide (P x)) as [HP|HP].
  - rewrite decide_True by (apply HPQ; [left|done]). simpl. lia.
  - destruct (decide (Q x)); simpl; lia.
Qed.

Lemma existsb_elem_of {A : Type} (f : A → bool) (l : list A) :
  existsb f l = true ↔ ∃ x, x ∈ l ∧ f x = true.
Proof.
  rewrite existsb_exists. split; intros (x & Hx & Hf); exists x.
  - by rewrite list_elem_of_In.
  - by rewrite <- list_elem_of_In.
Qed.

(** The percentage of [m] out of [n] grows with [m]. *)
Lemma percentage_mono (m m' n : Z) :
  m ≤ m' → 0 < n →
  (inject_Z m / inject_Z n * 100 <= inject_Z m' / inject_Z n * 100)%Q.
Proof.
  intros Hm Hn.
  assert (0 < inject_Z n)%Q as Hn' by (by rewrite (Zlt_Qlt 0 n) in Hn).
  assert (inject_Z m <= inject_Z m')%Q as Hm' by (by rewrite Zle_Qle in Hm).
  assert (inject_Z m / inject_Z n <= inject_Z m' / inject_Z n)%Q.
  { unfold Qdiv. apply Qmult_le_compat_r; [done|].
    apply Qlt_le_weak, Qinv_lt_0_compat. done. }
  lra.
Qed.

(** A job description has at most 39 skills. *)
Lemma extractJobSkills_length (jobDescription : option string) :
  (length (extractJobSkills jobDescription) ≤ 39)%nat.
Proof.
  rewrite extractJobSkills_filter.
  etrans; [apply length_filter|]. by vm_compute.
Qed.

(** The job skills a list of resume skills matches. *)
Lemma calculateSkillMatch_eq (jobDescription : option string) (resumeSkills : list string) :
  truthy jobDescription = true → resumeSkills ≠ [] →
  extractJobSkills jobDescription ≠ [] →
  calculateSkillMatch jobDescription (Some resumeSkills)
  = Math_round
      (inject_Z (Z.of_nat (length (filter
         (λ skill, existsb (λ userSkill,
                              includes (normalize userSkill) (normalize skill)
                              || includes (normalize skill) (normalize userSkill))
                           resumeSkills = true)
         (extractJobSkills jobDescription))))
       / inject_Z (Z.of_nat (length (extractJobSkills jobDescription))) * 100)%Q.
Proof.
  intros Hd Hr Hj. unfold calculateSkillMatch. rewrite Hd.
  rewrite bool_decide_eq_true_2 by done. cbn [default].
  rewrite bool_decide_eq_false_2 by (by destruct resumeSkills).
  cbn [negb orb].
  rewrite bool_decide_eq_false_2 by (by destruct (extractJobSkills jobDescription)).
  cbv zeta.
  match goal with
  | |- context [mul (div (ofZ ?m) (ofZ ?n)) _] =>
      destruct (share_exact m n) as (p & -> & Hp)
  end.
  - split; [lia|]. apply inj_le, length_filter.
  - pose proof (extractJobSkills_length jobDescription).
    destruct (extractJobSkills jobDescription); [done|]. simpl length in *. lia.
  - done.
Qed.

Lemma calculateSkillMatch_nil (jobDescription : option string) :
  calculateSkillMatch jobDescription (Some []) = 0.
Proof.
  unfold calculateSkillMatch. cbn [default length].
  rewrite (bool_decide_eq_true_2 (0%nat = 0%nat)) by done. by rewrite orb_true_r.
Qed.

Lemma calculateSkillMatch_falsy (jobDescription : option string)
    (resumeSkills : option (list string)) :
  truthy jobDescription = false → calculateSkillMatch jobDescription resumeSkills = 0.
Proof. intros Hd. unfold calculateSkillMatch. by rewrite Hd. Qed.

Lemma calculateSkillMatch_no_skills (jobDescription : option string)
    (resumeSkills : list string) :
  truthy jobDescription = true → resumeSkills ≠ [] →
  extractJobSkills jobDescription = [] →
  calculateSkillMatch jobDescription (Some resumeSkills) = 50.
Proof.
  intros Hd Hr Hj. unfold calculateSkillMatch. rewrite Hd, Hj.
  rewrite bool_decide_eq_true_2 by done. cbn [default].
  rewrite bool_decide_eq_false_2 by (by destruct resumeSkills).
  cbn [negb orb length]. by rewrite bool_decide_eq_true_2.
Qed.

(** More skills on the resume never lower the skill match. *)
Theorem calculateSkillMatch_monotone (jobDescription : option string)
    (resumeSkills moreSkills : list string) :
  resumeSkills ⊆ moreSkills →
  calculateSkillMatch jobDescription (Some resumeSkills)
  ≤ calculateSkillMatch jobDescription (Some moreSkills).
Proof.
  intros Hsub.
  destruct (decide (resumeSkills = [])) as [->|Hr].
  { rewrite calculateSkillMatch_nil. apply calculateSkillMatch_bounds. }
  assert (moreSkills ≠ []) as Hr'.
  { intros ->. destruct resumeSkills as [|x l]; [done|].
    by eapply not_elem_of_nil, Hsub; left. }
  destruct (truthy jobDescription) eqn:Hd; [|by rewrite !calculateSkillMatch_falsy].
  destruct (decide (extractJobSkills jobDescription = [])) as [Hj|Hj].
  { by rewrite !calculateSkillMatch_no_skills. }
  rewrite !calculateSkillMatch_eq by done.
  apply Math_round_mono, percentage_mono.
  - apply inj_le, length_filter_impl. intros skill _.
    rewrite !existsb_elem_of. intros (u & Hu & Hmatch). exists u. split; [|done].
    by apply Hsub.
  - destruct (extractJobSkills jobDescription); [done|]. simpl. lia.
Qed.

Lemma calculateSkillMatch_monotone_witness :
  calculateSkillMatch (Some "React and Node") (Some ["react"])
  ≤ calculateSkillMatch (Some "React and Node") (Some ["node"; "react"]).
Proof.
  apply calculateSkillMatch_monotone.
  intros x ->%list_elem_of_singleton. by right; left.
Defined.

Lemma filter_all {A : Type} (P : A → Prop) `{∀ x, Decision (P x)} (l : list A) :
  (∀ x, x ∈ l → P x) → filter P l = l.
Proof.
  induction l as [|x l IH]; intros HP; [done|].
  rewrite filter_cons_True by (apply HP; left). f_equal.
  apply IH. intros y Hy. apply HP. by right.
Qed.

Lemma percentage_full (n : Z) :
  0 < n → Math_round (inject_Z n / inject_Z n * 100)%Q = 100.
Proof.
  intros Hn. transitivity (Math_round (inject_Z 100)); [|apply Math_round_Z].
  apply Math_round_proper. change (inject_Z 100) with 100%Q. field.
  intros Hz. rewrite (Zlt_Qlt 0 n), Hz in Hn. by apply Qlt_irrefl in Hn.
Qed.

(** An empty string among the resume skills matches every job skill, as
    every string includes the empty string: the skill match is 100 for every
    job description that names a known skill. *)
Theorem calculateSkillMatch_empty_skill (jobDescription : option string)
    (resumeSkills : list string) :
  EmptyString ∈ resumeSkills → extractJobSkills jobDescription ≠ [] →
  calculateSkillMatch jobDescription (Some resumeSkills) = 100.
Proof.
  intros Hempty Hj.
  rewrite calculateSkillMatch_eq;
    [|by apply extractJobSkills_truthy|by intros ->; apply not_elem_of_nil in Hempty|done].
  rewrite filter_all.
  - apply percentage_full. destruct (extractJobSkills jobDescription); [done|]. simpl. lia.
  - intros skill _. apply existsb_elem_of. exists EmptyString. split; [done|].
    apply orb_true_iff. right. apply includes_empty.
Qed.

Lemma calculateSkillMatch_empty_skill_witness :
  calculateSkillMatch (Some "Kubernetes and Terraform") (Some [EmptyString]) = 100.
Proof.
  apply calculateSkillMatch_empty_skill.
  - by left.
  - by vm_compute.
Defined.

(** The match score of the analysis, on the skills of a job description. *)
Lemma computeScore_extracted (jobDescription : option string) (resumeSkills : list string) :
  resumeSkills ≠ [] → extractJobSkills jobDescription ≠ [] →
  computeScore (extractJobSkills jobDescription) resumeSkills
  = Math_round
      (inject_Z (Z.of_nat (length (filter (λ skill, skill ∈ normalize <$> resumeSkills)
                                          (extractJobSkills jobDescription))))
       / inject_Z (Z.of_nat (length (extractJobSkills jobDescription))) * 100)%Q.
Proof.
  intros Hr Hj.
  destruct (computeScore_counts _ _ Hj Hr) as (m & n & Hm & Hn & Hmn & Hpos & ->).
  rewrite extractJobSkills_lower in Hm, Hn.
  rewrite size_inter_filter in Hm by apply extractJobSkills_NoDup.
  rewrite size_list_to_set in Hn by apply extractJobSkills_NoDup.
  pose proof (extractJobSkills_length jobDescription).
  rewrite percentage_exact by lia.
  by rewrite Hm, Hn.
Qed.

(** The match score of the analysis of a job description never exceeds the
    skill match of the ranking for the same description and skills: the
    analysis counts the job skills the resume has, up to the case of the
    letters; the ranking also counts a job skill that is a part of a resume
    skill or has one as a part. *)
Theorem computeScore_le_calculateSkillMatch (jobDescription : option string)
    (resumeSkills : list string) :
  computeScore (extractJobSkills jobDescription) resumeSkills
  ≤ calculateSkillMatch jobDescription (Some resumeSkills).
Proof.
  destruct (decide (resumeSkills = [])) as [Hr|Hr];
    [rewrite computeScore_empty by (by right); apply calculateSkillMatch_bounds|].
  destruct (decide (extractJobSkills jobDescription = [])) as [Hj|Hj];
    [rewrite computeScore_empty by (by left); apply calculateSkillMatch_bounds|].
  rewrite computeScore_extracted by done.
  rewrite calculateSkillMatch_eq by (done || by apply extractJobSkills_truthy).
  apply Math_round_mono, percentage_mono.
  - apply inj_le, length_filter_impl. intros skill Hskill.
    intros (u & Heq & Hu)%list_elem_of_fmap.
    apply existsb_elem_of. exists u. split; [done|].
    apply orb_true_iff. left.
    rewrite (KNOWN_SKILLS_lower skill), Heq; [apply includes_refl|].
    by apply elem_of_extractJobSkills in Hskill as [? _].
  - destruct (extractJobSkills jobDescription); [done|]. simpl. lia.
Qed.

(** ** The analysis of a job *)

Lemma filter_ext_elem {A : Type} (P Q : A → Prop)
    `{∀ x, Decision (P x)} `{∀ x, Decision (Q x)} (l : list A) :
  (∀ x, x ∈ l → P x ↔ Q x) → filter P l = filter Q l.
Proof.
  induction l as [|x l IH]; intros HPQ; [done|].
  rewrite !filter_cons, IH by (intros y Hy; apply HPQ; by right).
  destruct (decide (P x)) as [HP|HP], (decide (Q x)) as [HQ|HQ]; try done.
  - by apply HPQ in HP; [|left].
  - by apply HPQ in HQ; [|left].
Qed.

Lemma percentage_le (m n k : Z) :
  0 < n → 100 * m ≤ k * n → (inject_Z m / inject_Z n * 100 <= inject_Z k)%Q.
Proof.
  intros Hn Hk.
  assert (0 < inject_Z n)%Q as Hn' by (by rewrite (Zlt_Qlt 0 n) in Hn).
  assert (inject_Z m / inject_Z n * 100 == inject_Z (100 * m) / inject_Z n)%Q as ->.
  { rewrite inject_Z_mult. change (inject_Z 100) with 100%Q. field. lra. }
  apply Qle_shift_div_r; [done|]. rewrite <- inject_Z_mult. by rewrite <- Zle_Qle.
Qed.

Lemma percentage_ge (m n k : Z) :
  0 < n → k * n ≤ 100 * m → (inject_Z k <= inject_Z m / inject_Z n * 100)%Q.
Proof.
  intros Hn Hk.
  assert (0 < inject_Z n)%Q as Hn' by (by rewrite (Zlt_Qlt 0 n) in Hn).
  assert (inject_Z m / inject_Z n * 100 == inject_Z (100 * m) / inject_Z n)%Q as ->.
  { rewrite inject_Z_mult. change (inject_Z 100) with 100%Q. field. lra. }
  apply Qle_shift_div_l; [done|]. rewrite <- inject_Z_mult. by rewrite <- Zle_Qle.
Qed.

Lemma analyzeJob_data (now : Z) (jobDescription : option string) (resume : ResumeProfile) :
  let skills := normalize <$> default [] (originalParsedSkills resume) in
  data (analyzeJob now jobDescription resume)
  = {| Analysis.score :=
         computeScore (extractJobSkills jobDescription)
                      (default [] (originalParsedSkills resume));
       Analysis.matchedSkills :=
         filter (λ s, s ∈ skills) (extractJobSkills jobDescription);
       Analysis.missingSkills :=
         filter (λ s, s ∉ skills) (extractJobSkills jobDescription);
       Analysis.jobSkills := extractJobSkills jobDescription;
       Analysis.resumeSkills := uniq (default [] (originalParsedSkills resume)) |}.
Proof.
  intros skills. unfold analyzeJob, formatAIResponse. cbv zeta. cbn [data].
  assert (∀ (P : string → Prop) `{∀ x, Decision (P x)},
            uniq (filter P (extractJobSkills jobDescription))
            = filter P (extractJobSkills jobDescription)) as Huniq.
  { intros P ?. apply from_NoDup, NoDup_filter, extractJobSkills_NoDup. }
  rewrite !Huniq. unfold uniq at 1. rewrite from_NoDup by apply extractJobSkills_NoDup.
  f_equal.
  - apply filter_ext_elem. intros s Hs. fold skills.
    by rewrite (KNOWN_SKILLS_lower s) by (by apply elem_of_extractJobSkills in Hs as [? _]).
  - apply filter_ext_elem. intros s Hs. fold skills.
    by rewrite (KNOWN_SKILLS_lower s) by (by apply elem_of_extractJobSkills in Hs as [? _]).
Qed.

(** The analysis splits the skills of the job description in two: the ones
    that are a resume skill, up to the case of the letters, and the others.
    Both lists keep the order of the job skills and have no repetitions;
    together they are the job skills, and no skill is in both. *)
Theorem analyzeJob_partition (now : Z) (jobDescription : option string)
    (resume : ResumeProfile) :
  let a := data (analyzeJob now jobDescription resume) in
  let skills := default [] (originalParsedSkills resume) in
  Analysis.jobSkills a = extractJobSkills jobDescription
  ∧ Analysis.matchedSkills a
    = filter (λ s, s ∈ normalize <$> skills) (extractJobSkills jobDescription)
  ∧ Analysis.missingSkills a
    = filter (λ s, s ∉ normalize <$> skills) (extractJobSkills jobDescription)
  ∧ Analysis.matchedSkills a ++ Analysis.missingSkills a ≡ₚ Analysis.jobSkills a
  ∧ (∀ s, s ∈ Analysis.matchedSkills a → s ∉ Analysis.missingSkills a)
  ∧ NoDup (Analysis.matchedSkills a) ∧ NoDup (Analysis.missingSkills a)
  ∧ Analysis.resumeSkills a = uniq skills.
Proof.
  intros a skills. subst a. rewrite analyzeJob_data. cbv zeta.
  cbn [Analysis.jobSkills Analysis.matchedSkills Analysis.missingSkills
       Analysis.resumeSkills].
  split_and!; try done.
  - apply filter_app_complement.
  - intros s. rewrite !list_elem_of_filter. tauto.
  - apply NoDup_filter, extractJobSkills_NoDup.
  - apply NoDup_filter, extractJobSkills_NoDup.
Qed.

Lemma length_filter_complement {A : Type} (P : A → Prop) `{∀ x, Decision (P x)}
    (l : list A) :
  (length (filter P l) + length (filter (λ x, ¬ P x) l) = length l)%nat.
Proof. by rewrite <- length_app, filter_app_complement. Qed.

Lemma filter_none {A : Type} (P : A → Prop) `{∀ x, Decision (P x)} (l : list A) :
  (∀ x, x ∈ l → ¬ P x) → filter P l = [].
Proof.
  induction l as [|x l IH]; intros HP; [done|].
  rewrite filter_cons_False by (apply HP; left).
  apply IH. intros y Hy. apply HP. by right.
Qed.

Lemma percentage_zero (n : Z) : Math_round (inject_Z 0 / inject_Z n * 100)%Q = 0.
Proof.
  transitivity (Math_round (inject_Z 0)); [|apply Math_round_Z].
  apply Math_round_proper. unfold Qdiv. change (inject_Z 0) with 0%Q. ring.
Qed.

(** The score of the analysis, also for an empty list of resume skills. *)
Lemma computeScore_percentage (jobDescription : option string) (resumeSkills : list string) :
  computeScore (extractJobSkills jobDescription) resumeSkills
  = if bool_decide (length (extractJobSkills jobDescription) = 0%nat) then 0
    else Math_round
      (inject_Z (Z.of_nat (length (filter (λ skill, skill ∈ normalize <$> resumeSkills)
                                          (extractJobSkills jobDescription))))
       / inject_Z (Z.of_nat (length (extractJobSkills jobDescription))) * 100)%Q.
Proof.
  case_bool_decide as Hn.
  - apply computeScore_empty. left. by apply length_zero_iff_nil.
  - destruct (decide (resumeSkills = [])) as [->|Hr].
    + rewrite computeScore_empty by (by right).
      rewrite filter_none by (intros x _; apply not_elem_of_nil).
      symmetry. apply percentage_zero.
    + apply computeScore_extracted; [done|]. intros Heq. by rewrite Heq in Hn.
Qed.

(** The score of the analysis is the rounded percentage of the job skills
    that are matched, and 0 when the description names no known skill.  It
    is 100 only when no job skill is missing and 0 only when none is
    matched; the message reports the score and the number of matched
    skills. *)
Theorem analyzeJob_score (now : Z) (jobDescription : option string)
    (resume : ResumeProfile) :
  let response := analyzeJob now jobDescription resume in
  let a := data response in
  let m := length (Analysis.matchedSkills a) in
  let n := length (Analysis.jobSkills a) in
  Analysis.score a
  = (if bool_decide (n = 0%nat) then 0
     else Math_round (inject_Z (Z.of_nat m) / inject_Z (Z.of_nat n) * 100)%Q)
  ∧ (n ≠ 0%nat → Analysis.score a = 100 ↔ Analysis.missingSkills a = [])
  ∧ (Analysis.score a = 0 ↔ Analysis.matchedSkills a = [])
  ∧ message response
    = "Match score: " +:+ pretty (Analysis.score a) +:+ "%. Found "
      +:+ pretty (Z.of_nat m) +:+ " matching skills.".
Proof.
  intros response a m n.
  assert (message response
          = "Match score: " +:+ pretty (Analysis.score a) +:+ "%. Found "
            +:+ pretty (Z.of_nat m) +:+ " matching skills.") as Hmessage.
  { subst m a response. rewrite analyzeJob_data. cbv zeta.
    cbn [Analysis.matchedSkills Analysis.score].
    unfold analyzeJob, formatAIResponse. cbv zeta. cbn [message].
    rewrite (filter_ext_elem
               (λ s, normalize s ∈ normalize <$> default [] (originalParsedSkills resume))
               (λ s, s ∈ normalize <$> default [] (originalParsedSkills resume)));
      [reflexivity|].
    intros s Hs.
    by rewrite (KNOWN_SKILLS_lower s) by (by apply elem_of_extractJobSkills in Hs as [? _]). }
  revert Hmessage. subst m n a response. rewrite analyzeJob_data. cbv zeta.
  cbn [Analysis.jobSkills Analysis.matchedSkills Analysis.missingSkills Analysis.score].
  generalize (default [] (originalParsedSkills resume)). intros skills Hmessage.
  pose proof (computeScore_percentage jobDescription skills) as Hscore.
  pose proof (length_filter_complement (λ s, s ∈ normalize <$> skills)
                (extractJobSkills jobDescription)) as Hsum.
  pose proof (extractJobSkills_length jobDescription) as Hlen.
  revert Hmessage Hscore Hsum Hlen.
  generalize (computeScore (extractJobSkills jobDescription) skills).
  generalize (extractJobSkills jobDescription). intros found score Hmessage Hscore Hsum Hlen.
  split_and!; [exact Hscore| | |exact Hmessage]; clear Hmessage.
  - intros Hn. rewrite bool_decide_eq_false_2 in Hscore by exact Hn.
    rewrite <- length_zero_iff_nil. split.
    + intros H100.
      destruct (decide (length (filter (λ s, s ∉ normalize <$> skills) found) = 0%nat))
        as [Hz|Hnz]; [exact Hz|exfalso].
      assert (0 ≤ score ≤ 99) as Hbound; [|lia].
      rewrite Hscore. apply Math_round_bounds. split.
      * apply percentage_ge; lia.
      * apply percentage_le; lia.
    + intros Hz. rewrite Hscore. rewrite Hz, Nat.add_0_r in Hsum. rewrite Hsum.
      apply percentage_full. lia.
  - rewrite <- length_zero_iff_nil. case_bool_decide as Hn.
    + split; [|intros _; exact Hscore]. intros _. lia.
    + split.
      * intros H0.
        destruct (decide (length (filter (λ s, s ∈ normalize <$> skills) found) = 0%nat))
          as [Hz|Hnz]; [exact Hz|exfalso].
        assert (1 ≤ score ≤ 100) as Hbound; [|lia].
        rewrite Hscore. apply Math_round_bounds. split.
        -- apply percentage_ge; lia.
        -- apply percentage_le; lia.
      * intros Hz. rewrite Hscore, Hz. apply percentage_zero.
Qed.

(** ** The explanation of a match *)

Lemma concat_cons (sep x : string) (l : list string) :
  String.concat sep (x :: l)
  = match l with [] => x | _ :: _ => x +:+ sep +:+ String.concat sep l end.
Proof. by destruct l. Qed.

(** A joined array includes each of its elements. *)
Lemma includes_concat (sep : string) (l : list string) (s : string) :
  s ∈ l → includes (String.concat sep l) s = true.
Proof.
  induction l as [|x l IH]; intros Hs; [by apply elem_of_nil in Hs|].
  rewrite concat_cons. apply elem_of_cons in Hs as [->|Hs].
  - destruct l; [apply includes_refl|].
    apply includes_spec. exists EmptyString. eexists. by rewrite append_nil.
  - destruct l as [|y l]; [by apply elem_of_nil in Hs|].
    apply (includes_trans _ (String.concat sep (y :: l))); [|by apply IH].
    apply includes_spec. exists (x +:+ sep), EmptyString.
    by rewrite append_nil_r, append_assoc.
Qed.

Lemma startsWith_concat (sep x : string) (l : list string) :
  startsWith (String.concat sep (x :: l)) x = true.
Proof.
  apply startsWith_spec. rewrite concat_cons. destruct l.
  - exists EmptyString. by rewrite append_nil_r.
  - by eexists.
Qed.

(** The explanation starts with the sentence for the level of the score of
    the analysis, names every matched skill, and names every missing skill
    when at most five are missing (the first three otherwise); the message
    of the response is the explanation. *)
Theorem explainMatch_names_skills (now : Z) (jobDescription : option string)
    (resume : ResumeProfile) :
  let response := explainMatch now jobDescription resume in
  let e := data response in
  let a := data (analyzeJob now jobDescription resume) in
  message response = Explanation.explanation e
  ∧ Explanation.score e = Analysis.score a
  ∧ Explanation.matchedSkills e = Analysis.matchedSkills a
  ∧ Explanation.missingSkills e = Analysis.missingSkills a
  ∧ startsWith (Explanation.explanation e) (matchLevel (Analysis.score a)) = true
  ∧ (∀ s, s ∈ Analysis.matchedSkills a → includes (Explanation.explanation e) s = true)
  ∧ (∀ s, s ∈ (if bool_decide (length (Analysis.missingSkills a) ≤ 5)%nat
               then Analysis.missingSkills a
               else take 3 (Analysis.missingSkills a)) →
          includes (Explanation.explanation e) s = true).
Proof.
  intros response e a. subst e response. unfold explainMatch, formatAIResponse.
  cbv zeta. cbn [data message Explanation.explanation Explanation.score
                 Explanation.matchedSkills Explanation.missingSkills].
  fold a. generalize a. clear. intros a.
  split_and!; [reflexivity..| | |].
  - apply startsWith_concat.
  - intros s Hs. unfold JsArray.join.
    rewrite (bool_decide_eq_true_2 (0 < length (Analysis.matchedSkills a))%nat)
      by (destruct (Analysis.matchedSkills a); [by apply elem_of_nil in Hs|simpl; lia]).
    eapply includes_trans.
    + apply includes_concat. apply elem_of_app. right.
      apply elem_of_app. left. by left.
    + apply includes_append. by apply includes_concat.
  - intros s Hs. unfold JsArray.join.
    assert (0 < length (Analysis.missingSkills a))%nat as Hpos.
    { destruct (Analysis.missingSkills a); [|simpl; lia].
      case_bool_decide; by apply elem_of_nil in Hs. }
    rewrite (bool_decide_eq_true_2 (0 < length (Analysis.missingSkills a))%nat) by done.
    case_bool_decide as Hfew.
    + cbn [andb]. eapply includes_trans.
      * apply includes_concat. apply elem_of_app. right.
        apply elem_of_app. right. apply elem_of_app. left. by left.
      * apply includes_append. by apply includes_concat.
    + cbn [andb].
      rewrite (bool_decide_eq_true_2 (5 < length (Analysis.missingSkills a))%nat) by lia.
      eapply includes_trans.
      * apply includes_concat. apply elem_of_app. right.
        apply elem_of_app. right. apply elem_of_app. left. by left.
      * apply includes_append. by apply includes_concat.
Qed.

(** ** Refining application answers *)

Lemma getProperty_elem_of (o : list (string * value)) (k : string) (v : value) :
  NoDup o.*1 → (k, v) ∈ o → getProperty o k = v.
Proof.
  induction o as [|[k' v'] o IH]; intros Hnd Hin; [by apply elem_of_nil in Hin|].
  rewrite fmap_cons in Hnd. apply NoDup_cons in Hnd as [Hk' Hnd].
  cbn [getProperty]. apply elem_of_cons in Hin as [[= -> ->]|Hin].
  - by rewrite decide_True.
  - rewrite decide_False; [by apply IH|].
    intros ->. apply Hk'. apply list_elem_of_fmap. by exists (k, v).
Qed.

Lemma setProperty_fresh (o : list (string * value)) (k : string) (v : value) :
  k ∉ o.*1 → setProperty o k v = o ++ [(k, v)].
Proof.
  induction o as [|[k' v'] o IH]; intros Hk; [done|].
  rewrite fmap_cons, not_elem_of_cons in Hk. destruct Hk as [Hne Hk].
  cbn [setProperty]. rewrite decide_False by done. by rewrite IH.
Qed.

(** Assigning the keys of an object one by one to an empty object gives an
    object with the same keys in the same order. *)
Lemma foldl_setProperty (f : string → value) (keys : list string)
    (acc : list (string * value)) :
  NoDup keys → (∀ k, k ∈ keys → k ∉ acc.*1) →
  foldl (λ refined key, setProperty refined key (f key)) acc keys
  = acc ++ ((λ k, (k, f k)) <$> keys).
Proof.
  revert acc. induction keys as [|k keys IH]; intros acc Hnd Hfresh; simpl.
  - by rewrite app_nil_r.
  - apply NoDup_cons in Hnd as [Hk Hnd].
    rewrite setProperty_fresh by (apply Hfresh; left).
    rewrite IH, <- app_assoc; [done|done|].
    intros k' Hk'. rewrite fmap_app, elem_of_app. intros [Hin|Hin].
    + by apply (Hfresh k'); [right|].
    + apply list_elem_of_singleton in Hin. simpl in Hin. by subst k'.
Qed.

Lemma refined_eq (answers : list (string * value)) :
  NoDup answers.*1 →
  foldl (λ refined key, setProperty refined key (trimAnswer (getProperty answers key)))
        [] answers.*1
  = (λ kv, (kv.1, trimAnswer kv.2)) <$> answers.
Proof.
  intros Hnd.
  rewrite (foldl_setProperty (λ key, trimAnswer (getProperty answers key)));
    [|done|intros k _; apply not_elem_of_nil].
  rewrite app_nil_l, <- list_fmap_compose.
  apply list_fmap_ext. intros i [k v] Hi. simpl.
  by rewrite (getProperty_elem_of answers k v) by (done || by eapply list_elem_of_lookup_2).
Qed.

Lemma getProperty_trim (o : list (string * value)) (k : string) :
  getProperty ((λ kv, (kv.1, trimAnswer kv.2)) <$> o) k = trimAnswer (getProperty o k).
Proof.
  induction o as [|[k' v'] o IH]; [done|].
  rewrite fmap_cons. cbn [getProperty fst snd]. by case_decide.
Qed.

Lemma getProperty_missing (o : list (string * value)) (k : string) :
  k ∉ o.*1 → getProperty o k = VUndefined.
Proof.
  induction o as [|[k' v'] o IH]; intros Hk; [done|].
  rewrite fmap_cons, not_elem_of_cons in Hk. destruct Hk as [Hne Hk].
  cbn [getProperty]. rewrite decide_False by done. by apply IH.
Qed.

Lemma getProperty_elem (o : list (string * value)) (k : string) :
  k ∈ o.*1 → (k, getProperty o k) ∈ o.
Proof.
  induction o as [|[k' v'] o IH]; intros Hk; [by apply elem_of_nil in Hk|].
  cbn [getProperty]. case_decide as Heq.
  - subst k'. by left.
  - right. apply IH. rewrite fmap_cons in Hk. apply elem_of_cons in Hk as [->|Hk]; done.
Qed.

Lemma trim_empty : trim EmptyString = EmptyString.
Proof. reflexivity. Qed.

(** What the comparator reads of an answer that is a string or falsy. *)
Lemma normalizeValue_text (v : value) :
  isTextOrFalsy v = true →
  normalizeValue (trimAnswer v) = Return (normalize (answerText v)).
Proof.
  unfold normalizeValue. destruct v as [| |b|n|s|ms|items|fields]; simpl; try done.
  - by destruct b.
  - destruct n as [q| | |]; simpl; try done.
    by destruct (Qeq_bool q 0).
  - intros _. by destruct (trim s).
Qed.

(** A truthy answer that is not a string makes the comparator throw. *)
Lemma normalizeValue_throws (v : value) :
  isTextOrFalsy v = false → normalizeValue (trimAnswer v) = Throw TypeError.
Proof.
  unfold normalizeValue. destruct v as [| |b|n|s|ms|items|fields]; simpl; try done.
  - by destruct b.
  - destruct n as [q| | |]; simpl; try done.
    by destruct (Qeq_bool q 0).
Qed.

Section sort_with.
Context {A : Type} (afterC : A → A → completion bool).

(** A comparator that does not throw sorts as its results do. *)
Lemma insert_pure (after : A → A → bool) (x : A) (l : list A) :
  (∀ y, y ∈ l → afterC x y = Return (after x y)) →
  SortWith.insert afterC x l = Return (JsArray.insert after x l).
Proof.
  induction l as [|y l IH]; intros Hpure; [done|].
  cbn [SortWith.insert JsArray.insert].
  rewrite Hpure by (by left). rewrite completion_bind_Return.
  destruct (after x y); [|done].
  rewrite IH by (intros z Hz; apply Hpure; by right).
  by rewrite completion_bind_Return.
Qed.

Lemma sort_pure (after : A → A → bool) (l : list A) :
  (∀ x y, x ∈ l → y ∈ l → afterC x y = Return (after x y)) →
  SortWith.sort afterC l = Return (JsArray.sort after l).
Proof.
  induction l as [|x l IH]; intros Hpure; [done|].
  cbn [SortWith.sort JsArray.sort].
  rewrite IH by (intros y z Hy Hz; apply Hpure; by right).
  rewrite completion_bind_Return. apply insert_pure.
  intros y Hy. apply Hpure; [by left|].
  right. by rewrite <- (sort_Permutation after l).
Qed.

Lemma insert_length (x : A) (l s : list A) :
  SortWith.insert afterC x l = Return s → length s = S (length l).
Proof.
  revert s. induction l as [|y l IH]; intros s; cbn [SortWith.insert].
  - by intros [= <-].
  - destruct (afterC x y) as [[]|e]; cbn [mbind completion_bind]; [|by intros [= <-]|done].
    destruct (SortWith.insert afterC x l) as [rest|e] eqn:Hrest; [|done].
    cbn [mbind completion_bind]. intros [= <-]. simpl. f_equal. by apply IH.
Qed.

Lemma sort_length (l s : list A) :
  SortWith.sort afterC l = Return s → length s = length l.
Proof.
  revert s. induction l as [|x l IH]; intros s; cbn [SortWith.sort].
  - by intros [= <-].
  - destruct (SortWith.sort afterC l) as [sorted|e] eqn:Hsorted; [|done].
    cbn [mbind completion_bind]. intros Hs%insert_length.
    rewrite Hs. simpl. f_equal. by apply IH.
Qed.

Lemma sort_elem_of (l s : list A) (y : A) :
  SortWith.sort afterC l = Return s → y ∈ s → y ∈ l.
Proof.
  assert (∀ x l s, SortWith.insert afterC x l = Return s → y ∈ s → y = x ∨ y ∈ l)
    as Hinsert.
  { clear. intros x l. induction l as [|z l IH]; intros s; cbn [SortWith.insert].
    - intros [= <-] Hy%list_elem_of_singleton. by left.
    - destruct (afterC x z) as [[]|e]; cbn [mbind completion_bind]; [| |done].
      + destruct (SortWith.insert afterC x l) as [rest|e] eqn:Hrest; [|done].
        cbn [mbind completion_bind]. intros [= <-] [->|Hy]%elem_of_cons.
        * right. by left.
        * destruct (IH rest eq_refl Hy) as [->|Hin]; [by left|right; by right].
      + intros [= <-] [->|Hy]%elem_of_cons; [by left|by right]. }
  revert s. induction l as [|x l IH]; intros s; cbn [SortWith.sort].
  - by intros [= <-].
  - destruct (SortWith.sort afterC l) as [sorted|e] eqn:Hsorted; [|done].
    cbn [mbind completion_bind]. intros Hs Hy.
    destruct (Hinsert _ _ _ Hs Hy) as [->|Hin]; [by left|].
    right. by apply (IH sorted).
Qed.

(** With two elements or more, an element on which the comparator throws
    makes the sort throw. *)
Lemma sort_throws (bad : A → Prop) (l : list A) :
  (∀ x y, bad x ∨ bad y → afterC x y = Throw TypeError) →
  (2 ≤ length l)%nat → (∃ x, x ∈ l ∧ bad x) →
  SortWith.sort afterC l = Throw TypeError.
Proof.
  intros Hbad. induction l as [|x l IH]; intros Hlen (b & Hb & Hbb); [simpl in Hlen; lia|].
  cbn [SortWith.sort].
  apply elem_of_cons in Hb as [->|Hb].
  - destruct (SortWith.sort afterC l) as [sorted|[]] eqn:Hsorted; [|done].
    cbn [mbind completion_bind].
    pose proof (sort_length _ _ Hsorted) as Hlength.
    destruct sorted as [|y sorted]; [simpl in *; lia|].
    cbn [SortWith.insert]. by rewrite Hbad by (by left).
  - destruct (decide (2 ≤ length l)%nat) as [Hl|Hl].
    + rewrite IH; [done|done|by exists b].
    + destruct l as [|z [|? ?]]; [by apply elem_of_nil in Hb| |simpl in Hl; lia].
      apply list_elem_of_singleton in Hb as ->.
      cbn [SortWith.sort SortWith.insert mbind completion_bind].
      by rewrite Hbad by (by right).
Qed.
End sort_with.

(** Sorting by a property with the comparator [b - a] of the scores 1 and 0
    puts the elements with the property first and keeps the order within
    both groups. *)
Lemma insert_two_classes {A : Type} (p : A → bool) (x : A) (firsts others : list A) :
  Forall (λ y, p y = true) firsts → Forall (λ y, p y = false) others →
  JsArray.insert
    (λ a b, bool_decide ((if p b then 1 else 0) - (if p a then 1 else 0) > 0))
    x (firsts ++ others)
  = if p x then x :: firsts ++ others else firsts ++ x :: others.
Proof.
  intros Hfirsts Hothers. induction Hfirsts as [|y firsts Hy _ IH].
  - simpl. destruct Hothers as [|z others Hz _]; [by destruct (p x)|].
    cbn [JsArray.insert]. rewrite Hz.
    rewrite bool_decide_eq_false_2 by (destruct (p x); lia). by destruct (p x).
  - rewrite <- !app_comm_cons. cbn [JsArray.insert]. rewrite Hy.
    destruct (p x) eqn:Hx.
    + by rewrite bool_decide_eq_false_2 by lia.
    + rewrite bool_decide_eq_true_2 by lia. by rewrite IH.
Qed.

Lemma sort_two_classes {A : Type} (p : A → bool) (l : list A) :
  JsArray.sort (λ a b, bool_decide ((if p b then 1 else 0) - (if p a then 1 else 0) > 0)) l
  = filter (λ x, p x = true) l ++ filter (λ x, ¬ p x = true) l.
Proof.
  induction l as [|x l IH]; [done|].
  cbn [JsArray.sort]. rewrite IH, !filter_cons. clear IH.
  rewrite insert_two_classes.
  - destruct (p x) eqn:Hx.
    + by rewrite decide_True, decide_False by (done || by intros []).
    + by rewrite decide_False, decide_True by (done || by intros []).
  - apply Forall_forall. intros y Hy. by apply list_elem_of_filter in Hy as [? _].
  - apply Forall_forall. intros y Hy. apply list_elem_of_filter in Hy as [Hp _].
    by destruct (p y).
Qed.

(** The score of a key in the comparator: 1 when the answer mentions a job
    skill. *)
Lemma byJobSkillOverlap_text (jobSkills : list string) (answers : list (string * value))
    (a b : string) :
  isTextOrFalsy (getProperty answers a) = true →
  isTextOrFalsy (getProperty answers b) = true →
  let p key := existsb (λ s, includes (normalize (answerText (getProperty answers key))) s)
                       jobSkills in
  byJobSkillOverlap jobSkills ((λ kv, (kv.1, trimAnswer kv.2)) <$> answers) a b
  = Return (bool_decide ((if p b then 1 else 0) - (if p a then 1 else 0) > 0)).
Proof.
  intros Ha Hb p. unfold byJobSkillOverlap. rewrite !getProperty_trim.
  rewrite !normalizeValue_text by done. by rewrite !completion_bind_Return.
Qed.

Lemma byJobSkillOverlap_throws (jobSkills : list string) (answers : list (string * value))
    (a b : string) :
  isTextOrFalsy (getProperty answers a) = false
  ∨ isTextOrFalsy (getProperty answers b) = false →
  byJobSkillOverlap jobSkills ((λ kv, (kv.1, trimAnswer kv.2)) <$> answers) a b
  = Throw TypeError.
Proof.
  intros Hbad. unfold byJobSkillOverlap. rewrite !getProperty_trim.
  destruct (isTextOrFalsy (getProperty answers a)) eqn:Ha.
  - destruct Hbad as [?|Hb]; [done|].
    rewrite (normalizeValue_text (getProperty answers a)) by done.
    rewrite completion_bind_Return.
    by rewrite (normalizeValue_throws (getProperty answers b)).
  - rewrite (normalizeValue_throws (getProperty answers a)) by done. reflexivity.
Qed.

Lemma isTextOrFalsy_keys (answers : list (string * value)) (key : string) :
  Forall (λ kv, isTextOrFalsy kv.2 = true) answers →
  isTextOrFalsy (getProperty answers key) = true.
Proof.
  intros Hall. destruct (decide (key ∈ answers.*1)) as [Hin|Hout].
  - rewrite Forall_forall in Hall. by apply (Hall (key, _)), getProperty_elem.
  - by rewrite getProperty_missing.
Qed.

(** The result for answers that are strings or falsy values. *)
Lemma refineApplicationAnswers_text (answers : list (string * value))
    (jobDescription : option string) :
  NoDup answers.*1 → Forall (λ kv, isTextOrFalsy kv.2 = true) answers →
  let p key := existsb (λ s, includes (normalize (answerText (getProperty answers key))) s)
                       (extractJobSkills jobDescription) in
  refineApplicationAnswers (Some answers) jobDescription
  = Return {| Refined.orderedKeys :=
                filter (λ key, p key = true) answers.*1
                ++ filter (λ key, ¬ p key = true) answers.*1;
              Refined.answers := (λ kv, (kv.1, trimAnswer kv.2)) <$> answers;
              Refined.jobSkills := extractJobSkills jobDescription;
              Refined.note := "Answers are trimmed and reordered by overlap with job skills; no new answers or claims added." |}.
Proof.
  intros Hnd Hall p. unfold refineApplicationAnswers. cbv zeta. cbn [default].
  rewrite refined_eq by done. rewrite extractJobSkills_lower.
  rewrite (sort_pure _ (λ a b, bool_decide ((if p b then 1 else 0) - (if p a then 1 else 0) > 0))).
  - rewrite completion_bind_Return. by rewrite sort_two_classes.
  - intros x y _ _. apply byJobSkillOverlap_text; by apply isTextOrFalsy_keys.
Qed.

(** For answers that are strings or falsy values, [refineApplicationAnswers]
    returns the same keys with the strings trimmed and the other values as
    they are; the ordered keys are the keys whose trimmed answer mentions a
    skill of the job description, followed by the other keys, both in the
    order they have in the object. *)
Theorem refineApplicationAnswers_returns (answers : list (string * value))
    (jobDescription : option string) :
  isPlainObject answers →
  Forall (λ kv, isTextOrFalsy kv.2 = true) answers →
  let mentions key :=
    existsb (λ s, includes (normalize (answerText (getProperty answers key))) s)
            (extractJobSkills jobDescription) = true in
  ∃ r, refineApplicationAnswers (Some answers) jobDescription = Return r
       ∧ Refined.answers r = (λ kv, (kv.1, trimAnswer kv.2)) <$> answers
       ∧ Refined.orderedKeys r
         = filter mentions answers.*1 ++ filter (λ key, ¬ mentions key) answers.*1
       ∧ Refined.orderedKeys r ≡ₚ answers.*1
       ∧ Refined.jobSkills r = extractJobSkills jobDescription.
Proof.
  intros [Hnd _] Hall mentions. eexists. split.
  - by apply refineApplicationAnswers_text.
  - cbn [Refined.answers Refined.orderedKeys Refined.jobSkills].
    split_and!; [reflexivity|reflexivity| |reflexivity].
    apply filter_app_complement.
Qed.

Lemma refineApplicationAnswers_returns_witness :
  ∃ r, refineApplicationAnswers
         (Some [("why", VString " I like teams "); ("stack", VString "React and Node");
                ("years", VNumber (ofZ 0))])
         (Some "React developer") = Return r
       ∧ Refined.orderedKeys r = ["stack"; "why"; "years"]
       ∧ Refined.answers r
         = [("why", VString "I like teams"); ("stack", VString "React and Node");
            ("years", VNumber (ofZ 0))].
Proof.
  destruct (refineApplicationAnswers_returns
              [("why", VString " I like teams "); ("stack", VString "React and Node");
               ("years", VNumber (ofZ 0))]
              (Some "React developer")) as (r & Hr & Hanswers & Hkeys & _).
  - split; apply (bool_decide_unpack _); by vm_compute.
  - apply (bool_decide_unpack _). by vm_compute.
  - exists r. split_and!; [exact Hr|by rewrite Hkeys|by rewrite Hanswers].
Defined.

(** [refineApplicationAnswers] throws exactly when there are two answers or
    more and one of them is a truthy value that is not a string (a number
    other than 0, [true], an array, an object): the comparator of the sort
    calls [toLowerCase] on it. *)
Theorem refineApplicationAnswers_throws (answers : list (string * value))
    (jobDescription : option string) :
  isPlainObject answers →
  refineApplicationAnswers (Some answers) jobDescription = Throw TypeError
  ↔ (2 ≤ length answers)%nat ∧ ∃ kv, kv ∈ answers ∧ isTextOrFalsy kv.2 = false.
Proof.
  intros [Hnd _]. split.
  - intros Hthrow.
    destruct (decide (Forall (λ kv, isTextOrFalsy kv.2 = true) answers)) as [Hall|Hsome].
    { by rewrite refineApplicationAnswers_text in Hthrow. }
    apply not_Forall_Exists in Hsome; [|apply _].
    apply Exists_exists in Hsome as (kv & Hkv & Hbad).
    apply not_true_is_false in Hbad. split; [|by exists kv].
    destruct answers as [|kv1 [|kv2 answers]]; [by apply elem_of_nil in Hkv| |simpl; lia].
    exfalso. revert Hthrow. unfold refineApplicationAnswers. cbv zeta.
    by cbn [default fmap list_fmap SortWith.sort SortWith.insert mbind completion_bind].
  - intros (Hlen & [k v] & Hkv & Hbad).
    unfold refineApplicationAnswers. cbv zeta. cbn [default].
    rewrite refined_eq by done. rewrite extractJobSkills_lower.
    rewrite (sort_throws _ (λ key, isTextOrFalsy (getProperty answers key) = false)).
    + done.
    + intros x y Hxy. by apply byJobSkillOverlap_throws.
    + by rewrite length_fmap.
    + exists k. split; [apply list_elem_of_fmap; by exists (k, v)|].
      by rewrite (getProperty_elem_of answers k v).
Qed.

Lemma refineApplicationAnswers_throws_witness :
  refineApplicationAnswers
    (Some [("why", VString "I like teams"); ("years", VNumber (ofZ 5))])
    (Some "React developer") = Throw TypeError.
Proof.
  apply refineApplicationAnswers_throws.
  - split; apply (bool_decide_unpack _); by vm_compute.
  - split; [simpl; lia|]. exists ("years", VNumber (ofZ 5)). split; [|done].
    right. by left.
Defined.

(** ** The summary of the changes of a remodeled resume *)

(** A list in which no element goes behind an element after it is sorted. *)
Lemma sort_sorted {A : Type} (after : A → A → bool) (l : list A) :
  StronglySorted (λ x y, after x y = false) l → JsArray.sort after l = l.
Proof.
  induction 1 as [|x l Hsorted IH Hx]; [done|].
  cbn [JsArray.sort]. rewrite IH.
  destruct Hx as [|y l Hy _]; [done|].
  cbn [JsArray.insert]. by rewrite Hy.
Qed.

Lemma sort_unordered {A : Type} (after : A → A → bool) (l : list A) :
  (∀ x y, x ∈ l → y ∈ l → after x y = false) → JsArray.sort after l = l.
Proof.
  intros Hafter. apply sort_sorted.
  induction l as [|x l IH]; constructor.
  - apply IH. intros y z Hy Hz. apply Hafter; by right.
  - apply Forall_forall. intros y Hy. apply Hafter; [by left|by right].
Qed.

(** A skill that matches no job skill has the key 999. *)
Lemma jobSkillIndex_unmatched (jobSkills : list string) (a : string) :
  (∀ s, s ∈ jobSkills → normalize s ≠ normalize a) → jobSkillIndex jobSkills a = 999.
Proof.
  intros Hnone. unfold jobSkillIndex, JsArray.findIndex.
  destruct (list_find _ jobSkills) as [[i s]|] eqn:Hfind; [|done].
  apply list_find_Some in Hfind as (Hi & Hs & _).
  apply bool_decide_eq_true in Hs.
  exfalso. by apply (Hnone s); [eapply list_elem_of_lookup_2|].
Qed.

Lemma skillsChanges_eq (now : Z) (resume : Resume) (jobDescription : option string) :
  let r := data (remodelResume now resume jobDescription) in
  skillsChanges r
  = {| original := originalSkills r;
       remodeled := remodeledSkills r;
       reordered := bool_decide (remodeledSkills r ≠ originalSkills r);
       highlighted :=
         if bool_decide (remodeledSkills r ≠ originalSkills r)
         then filter (λ s, normalize s ∈ normalize <$> remodeledSkills r)
                     (extractJobSkills jobDescription)
         else [];
       added := [];
       removed := [] |}.
Proof.
  intros r. subst r. unfold remodelResume, formatAIResponse. cbv zeta.
  cbn [data skillsChanges remodeledSkills originalSkills]. reflexivity.
Qed.

Lemma sectionsOrder_eq (now : Z) (resume : Resume) (jobDescription : option string) :
  sectionsOrder (data (remodelResume now resume jobDescription))
  = (["summary"; "skills"; "experience"],
     if bool_decide (0 < length (extractJobSkills jobDescription))%nat
     then ["summary"; "skills (job-prioritized)"; "experience"]
     else ["summary"; "skills"; "experience"]).
Proof.
  unfold remodelResume, formatAIResponse. cbv zeta. cbn [data sectionsOrder]. reflexivity.
Qed.

Lemma diffSummary_eq (now : Z) (resume : Resume) (jobDescription : option string) :
  let r := data (remodelResume now resume jobDescription) in
  diffSummary r
  = generateChangeSummary
      {| skillsReordered := reordered (skillsChanges r);
         skillsHighlighted := highlighted (skillsChanges r);
         sectionsReordered := (sectionsOrder r).2 |}.
Proof.
  intros r. subst r. unfold remodelResume, formatAIResponse. cbv zeta.
  cbn [data diffSummary skillsChanges sectionsOrder reordered highlighted snd]. reflexivity.
Qed.

Lemma reordered_job_skills (now : Z) (resume : Resume) (jobDescription : option string) :
  let r := data (remodelResume now resume jobDescription) in
  remodeledSkills r ≠ originalSkills r → extractJobSkills jobDescription ≠ [].
Proof.
  intros r Hne Hnone. apply Hne. subst r.
  rewrite remodeledSkills_eq, originalSkills_eq, Hnone.
  by rewrite bool_decide_eq_false_2 by (simpl; lia).
Qed.

(** The summary of the changes always reports a reordering of the sections:
    the sections of the remodeled resume are never an empty list, so the
    text for a resume without changes is never returned, also when the job
    description names no skill and the skills and the sections are as they
    were. *)
Theorem remodelResume_summary (now : Z) (resume : Resume)
    (jobDescription : option string) :
  let r := data (remodelResume now resume jobDescription) in
  diffSummary r
  = JsArray.join "; "
      ((if reordered (skillsChanges r)
        then ["Prioritized " +:+ pretty (Z.of_nat (length (highlighted (skillsChanges r))))
              +:+ " job-relevant skills"]
        else [])
       ++ ["Reordered sections for ATS optimization"])
  ∧ diffSummary r ≠ "No changes needed - resume already optimized"
  ∧ (extractJobSkills jobDescription = [] →
     diffSummary r = "Reordered sections for ATS optimization"
     ∧ remodeledSkills r = originalSkills r
     ∧ (sectionsOrder r).2 = (sectionsOrder r).1).
Proof.
  intros r.
  assert (diffSummary r
          = JsArray.join "; "
              ((if reordered (skillsChanges r)
                then ["Prioritized "
                      +:+ pretty (Z.of_nat (length (highlighted (skillsChanges r))))
                      +:+ " job-relevant skills"]
                else [])
               ++ ["Reordered sections for ATS optimization"])) as Hsummary.
  { subst r. rewrite diffSummary_eq. cbv zeta. rewrite sectionsOrder_eq. cbn [snd].
    generalize (reordered (skillsChanges (data (remodelResume now resume jobDescription)))).
    generalize (highlighted (skillsChanges (data (remodelResume now resume jobDescription)))).
    intros hl rd. unfold generateChangeSummary.
    cbn [skillsReordered skillsHighlighted sectionsReordered].
    rewrite (bool_decide_eq_true_2 (0 < length _)%nat) by (case_bool_decide; simpl; lia).
    rewrite bool_decide_eq_false_2; [done|]. destruct rd; simpl; lia. }
  split_and!; [exact Hsummary| |].
  - intros Heq.
    assert (includes (diffSummary r) "Reordered sections for ATS optimization" = true)
      as Hinc.
    { rewrite Hsummary. apply includes_concat, elem_of_app. right. by left. }
    rewrite Heq in Hinc. by vm_compute in Hinc.
  - intros Hnone.
    assert (remodeledSkills r = originalSkills r) as Hsame.
    { destruct (decide (remodeledSkills r = originalSkills r)) as [|Hne]; [done|].
      by apply reordered_job_skills in Hne. }
    split_and!; [|exact Hsame|].
    + rewrite Hsummary. subst r. rewrite skillsChanges_eq. cbv zeta. cbn [reordered].
      by rewrite bool_decide_eq_false_2 by (by intros []).
    + subst r. rewrite sectionsOrder_eq, Hnone. reflexivity.
Qed.

(** The highlighted skills of a remodeled resume: they are job skills that
    are a resume skill up to the case of the letters; there are none when
    the order of the skills is unchanged, and at least one when it has
    changed, which needs a job description that names a skill. *)
Theorem remodelResume_highlighted (now : Z) (resume : Resume)
    (jobDescription : option string) :
  let r := data (remodelResume now resume jobDescription) in
  let changes := skillsChanges r in
  reordered changes = bool_decide (remodeledSkills r ≠ originalSkills r)
  ∧ (reordered changes = false → highlighted changes = [])
  ∧ (reordered changes = true →
     highlighted changes ≠ [] ∧ extractJobSkills jobDescription ≠ [])
  ∧ (∀ s, s ∈ highlighted changes →
          s ∈ extractJobSkills jobDescription
          ∧ ∃ skill, skill ∈ default [] (parsedSkills resume) ∧ normalize skill = s).
Proof.
  intros r changes. subst changes.
  pose proof (skillsChanges_eq now resume jobDescription) as Hchanges.
  cbv zeta in Hchanges. fold r in Hchanges. rewrite Hchanges. cbn [reordered highlighted].
  clear Hchanges.
  assert (remodeledSkills r ≡ₚ from_option uniq [] (parsedSkills resume)) as Hperm.
  { subst r. rewrite remodeledSkills_eq. case_bool_decide; [apply sort_Permutation|done]. }
  split_and!; [done|by intros ->| |].
  - intros Hre. rewrite Hre. apply bool_decide_eq_true in Hre.
    pose proof (reordered_job_skills now resume jobDescription Hre) as Hjob.
    split; [|done]. intros Hnone. apply Hre. subst r.
    rewrite remodeledSkills_eq, originalSkills_eq.
    rewrite bool_decide_eq_true_2 by (by destruct (extractJobSkills jobDescription)).
    apply sort_unordered. intros x y Hx Hy. unfold byJobSkill.
    rewrite !jobSkillIndex_unmatched; [by apply bool_decide_eq_false_2| |].
    + intros s Hs Heq. eapply (filter_nil_not_elem_of _ _ s Hnone); [|done].
      rewrite Heq. apply list_elem_of_fmap_2. by rewrite Hperm.
    + intros s Hs Heq. eapply (filter_nil_not_elem_of _ _ s Hnone); [|done].
      rewrite Heq. apply list_elem_of_fmap_2. by rewrite Hperm.
  - intros s Hs. case_bool_decide; [|by apply elem_of_nil in Hs].
    apply list_elem_of_filter in Hs as [Hmatch Hs]. split; [done|].
    apply list_elem_of_fmap in Hmatch as (skill & Heq & Hskill).
    exists skill. split.
    + rewrite Hperm in Hskill.
      destruct (parsedSkills resume) as [skills|]; cbn [from_option default] in Hskill |- *.
      * by apply (proj1 (elem_of_from _ _)) in Hskill.
      * by apply elem_of_nil in Hskill.
    + rewrite <- Heq. apply KNOWN_SKILLS_lower.
      by apply elem_of_extractJobSkills in Hs as [? _].
Qed.

(** ** The preview of a remodeled resume *)

Lemma remodelResume_reordered (now : Z) (resume : Resume)
    (jobDescription : option string) :
  extractJobSkills jobDescription = [] →
  reordered (skillsChanges (data (remodelResume now resume jobDescription))) = false.
Proof.
  intros Hnone. rewrite skillsChanges_eq. cbv zeta. cbn [reordered].
  apply bool_decide_eq_false_2. intros Hne.
  by apply reordered_job_skills in Hne.
Qed.

(** The preview says that no changes are needed exactly when the job
    description names no known skill, whatever the resume; otherwise it
    reports the new order of the sections.  The three closing notes are
    always there. *)
Theorem changeList_no_changes (now : Z) (resume : Resume)
    (jobDescription : option string) :
  let changes := changeList (data (remodelResume now resume jobDescription)) in
  ("✓ No changes needed - your resume is already well-structured" ∈ changes
   ↔ extractJobSkills jobDescription = [])
  ∧ ("✓ Optimized section order for ATS scanning" ∈ changes
     ↔ extractJobSkills jobDescription ≠ [])
  ∧ (extractJobSkills jobDescription = [] →
     changes = ["✓ No changes needed - your resume is already well-structured";
                "• No skills added or removed";
                "• No experience fabricated";
                "• Only reordering of existing content"])
  ∧ drop (length changes - 3) changes
    = ["• No skills added or removed";
       "• No experience fabricated";
       "• Only reordering of existing content"].
Proof.
  intros changes. subst changes. unfold changeList.
  rewrite sectionsOrder_eq. cbn [fst snd].
  pose proof (remodelResume_reordered now resume jobDescription) as Hre.
  revert Hre. cbv zeta.
  generalize (highlighted (skillsChanges (data (remodelResume now resume jobDescription)))).
  generalize (reordered (skillsChanges (data (remodelResume now resume jobDescription)))).
  intros rd hl Hre.
  destruct (decide (extractJobSkills jobDescription = [])) as [Hnone|Hsome].
  - rewrite Hnone in *. rewrite Hre by done.
    cbn [length]. rewrite (bool_decide_eq_false_2 (0 < 0)%nat) by lia.
    rewrite (bool_decide_eq_false_2 (_ ≠ _)) by (by intros []).
    cbn [app length]. rewrite (bool_decide_eq_true_2 (0%nat = 0%nat)) by done.
    split_and!; [|split; [|done]|done|done].
    + split; [done|]. intros _. by left.
    + intros Hin. exfalso. revert Hin. apply (bool_decide_unpack _). by vm_compute.
  - rewrite (bool_decide_eq_true_2 (0 < _)%nat)
      by (destruct (extractJobSkills jobDescription); [done|simpl; lia]).
    rewrite (bool_decide_eq_true_2 (_ ≠ _)) by (by vm_compute).
    rewrite bool_decide_eq_false_2 by (destruct rd; simpl; lia).
    split_and!; [split; [|done]|split; [done|]|done|].
    + intros Hin. exfalso. revert Hin.
      rewrite !elem_of_app, !elem_of_cons, !elem_of_nil. destruct rd.
      * rewrite !elem_of_cons, !elem_of_nil.
        intros [[[Heq|[Heq|[]]]|[Heq|[]]]|[Heq|[Heq|[Heq|[]]]]]; done.
      * rewrite !elem_of_nil. intros [[[]|[Heq|[]]]|[Heq|[Heq|[Heq|[]]]]]; done.
    + intros _. apply elem_of_app. left. apply elem_of_app. right. by left.
    + destruct rd; reflexivity.
Qed.

(** ** The ranked jobs of a user *)

Lemma StronglySorted_lookup_2 {A : Type} (R : A → A → Prop) (l : list A) :
  (∀ i j x y, (i < j)%nat → l !! i = Some x → l !! j = Some y → R x y) →
  StronglySorted R l.
Proof.
  induction l as [|x l IH]; intros HR; constructor.
  - apply IH. intros i j y z Hij Hy Hz. by apply (HR (S i) (S j) y z); [lia|..].
  - apply Forall_forall. intros y Hy.
    apply list_elem_of_lookup in Hy as [j Hj].
    by apply (HR 0%nat (S j) x y); [lia|..].
Qed.

(** A filter that keeps every element before an element it keeps, keeps a
    prefix of a sorted list. *)
Lemma filter_prefix_sorted {A : Type} (R : A → A → Prop) (P : A → Prop)
    `{∀ x, Decision (P x)} (l : list A) :
  StronglySorted R l → (∀ x y, R x y → P y → P x) → filter P l `prefix_of` l.
Proof.
  intros Hsorted Hclosed. induction Hsorted as [|x l Hsorted IH Hx]; [done|].
  rewrite filter_cons. case_decide as HP.
  - by apply prefix_cons.
  - rewrite filter_none; [apply prefix_nil|].
    intros y Hy HPy. apply HP. apply (Hclosed x y); [|done].
    rewrite Forall_forall in Hx. by apply Hx.
Qed.

Lemma StronglySorted_prefix {A : Type} (R : A → A → Prop) (l k : list A) :
  StronglySorted R l → k `prefix_of` l → StronglySorted R k.
Proof.
  intros Hsorted [rest ->]. induction k as [|x k IH]; [constructor|].
  rewrite <- app_comm_cons in Hsorted. apply StronglySorted_inv in Hsorted as [Hk Hx].
  constructor; [by apply IH|].
  rewrite Forall_app in Hx. by destruct Hx.
Qed.

(** Scored jobs whose ranking scores can be compared have whole numbers or
    infinities as ranking scores, or all have NaN. *)
Lemma scored_uniform (scored : list (gmap string value)) :
  Forall (λ s, rankingScoreOf s = NaN ∨ isWhole (rankingScoreOf s)) scored →
  comparable (rankingScoreOf <$> scored) = true →
  Forall (λ s, isWhole (rankingScoreOf s)) scored
  ∨ Forall (λ s, rankingScoreOf s = NaN) scored.
Proof.
  intros Hwhole Hcomparable. unfold comparable in Hcomparable.
  apply orb_true_iff in Hcomparable as [Hnone|Hall];
    rewrite forallb_forall in *; [left|right].
  - rewrite Forall_forall in Hwhole |- *. intros s Hs.
    destruct (Hwhole s Hs) as [Hnan|]; [exfalso|done].
    assert (In (rankingScoreOf s) (rankingScoreOf <$> scored)) as Hin
      by (apply list_elem_of_In, list_elem_of_fmap; eauto).
    specialize (Hnone _ Hin). by rewrite Hnan in Hnone.
  - apply Forall_forall. intros s Hs.
    assert (In (rankingScoreOf s) (rankingScoreOf <$> scored)) as Hin
      by (apply list_elem_of_In, list_elem_of_fmap; eauto).
    specialize (Hall _ Hin). by destruct (rankingScoreOf s).
Qed.

Lemma byRankingScore_setRank (i j : nat) (a b : gmap string value) :
  byRankingScore (setRank i a) (setRank j b) = byRankingScore a b.
Proof.
  unfold byRankingScore.
  destruct (setRank_frame i a) as (Ha & _), (setRank_frame j b) as (Hb & _).
  unfold rankingScoreOf in Ha, Hb. by rewrite Ha, Hb.
Qed.

(** The ranked list, when the ranking scores can be compared: no job goes
    behind a job after it, the ranking scores are all whole numbers or
    infinities, or all NaN, and a job has its position plus one as its rank. *)
Lemma rankJobs_ranked (now : Z) (jobs : list (gmap string value)) (userResume : Resume)
    (userLocation : option string) (customWeights : Factors (option Q)) :
  comparable (rankingScores now jobs userResume userLocation customWeights) = true →
  ∃ ranked,
    rankJobs now jobs userResume userLocation customWeights = Return ranked
    ∧ StronglySorted (λ x y, byRankingScore x y = false) ranked
    ∧ (Forall (λ s, isWhole (rankingScoreOf s)) ranked
       ∨ Forall (λ s, rankingScoreOf s = NaN) ranked)
    ∧ (∀ k job, ranked !! k = Some job →
                job !! "rank" = Some (VNumber (ofZ (Z.of_nat k + 1)))).
Proof.
  intros Hcomparable. destruct (decide (jobs = [])) as [->|Hjobs].
  { exists []. split_and!; [done|constructor|left; constructor|done]. }
  destruct (rankJobs_spec now jobs userResume userLocation customWeights Hjobs)
    as (scored & sorted & Hscored & Hscores & Hperm & Hsorted & ->).
  rewrite Hscores in Hcomparable. specialize (Hsorted Hcomparable).
  eexists. split; [reflexivity|]. split_and!.
  - apply StronglySorted_lookup_2. intros i j x y Hij Hx Hy.
    rewrite list_lookup_imap, list_lookup_fmap in Hx, Hy.
    destruct (sorted !! i) as [[pi a]|] eqn:Hi; [|done].
    destruct (sorted !! j) as [[pj b]|] eqn:Hj; [|done].
    simpl in Hx, Hy. injection Hx as <-. injection Hy as <-.
    rewrite byRankingScore_setRank.
    by destruct (StronglySorted_lookup _ _ _ _ _ _ Hsorted Hij Hi Hj) as [? _].
  - assert (∀ P : gmap string value → Prop,
              (∀ k s, P s → P (setRank k s)) → Forall P scored →
              Forall P (imap setRank sorted.*2)) as Hall.
    { intros P Hrank HP. apply Forall_forall. intros job Hjob.
      apply list_elem_of_lookup in Hjob as [k Hk].
      rewrite list_lookup_imap, list_lookup_fmap in Hk.
      destruct (sorted !! k) as [[p a]|] eqn:Hp; [|done].
      simpl in Hk. injection Hk as <-. apply Hrank.
      rewrite Forall_forall in HP. apply HP.
      apply list_elem_of_lookup_2 in Hp. rewrite Hperm in Hp.
      apply elem_of_indexedFrom in Hp. by eapply list_elem_of_lookup_2. }
    destruct (scored_uniform scored) as [Hfin|Hnan];
      [by eapply scored_whole|done|left|right].
    + apply Hall; [|done]. intros k s.
      by destruct (setRank_frame k s) as (-> & _).
    + apply Hall; [|done]. intros k s.
      by destruct (setRank_frame k s) as (-> & _).
  - intros k job Hk. rewrite list_lookup_imap in Hk.
    destruct (sorted.*2 !! k) as [s|]; [|done]. simpl in Hk. injection Hk as <-.
    by destruct (setRank_frame k s) as (_ & -> & _).
Qed.

(** A job before a job that has the minimum score has the minimum score. *)
Lemma geq_closed (min : number) (x y : gmap string value) :
  isWhole (rankingScoreOf x) ∧ isWhole (rankingScoreOf y)
  ∨ rankingScoreOf y = NaN →
  byRankingScore x y = false →
  geq (rankingScoreOf y) min = true → geq (rankingScoreOf x) min = true.
Proof.
  rewrite byRankingScore_greater.
  intros [[Hx Hy]| ->]; [|done].
  rewrite <- not_true_iff_false, (greater_level _ _ Hy Hx).
  destruct Hx as [-> | [-> | [a ->]]], Hy as [-> | [-> | [b ->]]];
    cbn [level ofZ fst snd]; rewrite ?Qfloor_Z; intros Hle;
    destruct min as [m| | |]; cbn [geq]; try done; try lia.
  unfold ofZ. cbn [geq]. rewrite !Qle_bool_iff. intros Hm.
  assert (b ≤ a) as Hba by lia. rewrite Zle_Qle in Hba. lra.
Qed.

(** The jobs the route returns are a prefix of the ranking, when the ranking
    scores can be compared: the jobs below the minimum score are a tail of
    the ranked list, and the second sort changes nothing.  The jobs that are
    left have the ranks 1, 2, ... *)
Theorem rankedForUser_prefix (now : Z) (jobs : list (gmap string value))
    (resume : Resume) (userLocation : option string)
    (customWeights : Factors (option Q)) (minScore : option number) :
  forallb isJobDescriptor jobs = true →
  comparable (rankingScores now jobs resume (Some (default EmptyString userLocation))
                customWeights) = true →
  ∃ ranked result,
    rankJobs now jobs resume (Some (default EmptyString userLocation)) customWeights
    = Return ranked
    ∧ rankedForUser now jobs resume userLocation customWeights minScore = Return result
    ∧ result = match minScore with
               | Some min => filter (λ job, geq (rankingScoreOf job) min = true) ranked
               | None => ranked
               end
    ∧ result `prefix_of` ranked
    ∧ (∀ k job, result !! k = Some job →
                job !! "rank" = Some (VNumber (ofZ (Z.of_nat k + 1)))).
Proof.
  intros _ Hcomparable.
  destruct (rankJobs_ranked now jobs resume (Some (default EmptyString userLocation))
              customWeights Hcomparable) as (ranked & Hranked & Hsorted & Huniform & Hrank).
  set (filtered := match minScore with
                   | Some min => filter (λ job, geq (rankingScoreOf job) min = true) ranked
                   | None => ranked
                   end).
  assert (filtered `prefix_of` ranked) as Hprefix.
  { subst filtered. destruct minScore as [min|]; [|done].
    destruct Huniform as [Hfin|Hnan].
    - assert (StronglySorted (λ x y, byRankingScore x y = false
                                     ∧ isWhole (rankingScoreOf x)
                                     ∧ isWhole (rankingScoreOf y)) ranked) as Hs.
      { apply StronglySorted_lookup_2. intros i j x y Hij Hx Hy.
        rewrite Forall_forall in Hfin. split_and!.
        - by apply (StronglySorted_lookup _ _ _ _ _ _ Hsorted Hij Hx Hy).
        - by eapply Hfin, list_elem_of_lookup_2.
        - by eapply Hfin, list_elem_of_lookup_2. }
      apply (filter_prefix_sorted _ _ _ Hs).
      intros x y (Hxy & Hx & Hy). apply geq_closed; [by left|done].
    - rewrite filter_none; [apply prefix_nil|].
      intros x Hx. rewrite Forall_forall in Hnan. by rewrite (Hnan x Hx). }
  exists ranked, filtered. split_and!; [done| |done|done|].
  - unfold rankedForUser. rewrite Hranked, completion_bind_Return. fold filtered.
    destruct (noKeys customWeights); [|done].
    f_equal. apply sort_sorted. by apply (StronglySorted_prefix _ ranked).
  - intros k job Hk. apply Hrank. by eapply prefix_lookup_Some.
Qed.

(** The jobs A, B and C of the example with the default weights and the
    minimum score 50. *)
Lemma rankedForUser_prefix_witness :
  forallb isJobDescriptor [jobC; jobA; jobB] = true
  ∧ comparable (rankingScores 86400000 [jobC; jobA; jobB] exampleResume
                  (Some (default EmptyString (Some "Berlin"))) noOverrides) = true
  ∧ ∃ ranked result,
      rankJobs 86400000 [jobC; jobA; jobB] exampleResume
        (Some (default EmptyString (Some "Berlin"))) noOverrides = Return ranked
      ∧ rankedForUser 86400000 [jobC; jobA; jobB] exampleResume (Some "Berlin")
          noOverrides (Some (ofZ 50)) = Return result
      ∧ result `prefix_of` ranked.
Proof.
  split; [reflexivity|]. split; [by vm_compute|].
  destruct (rankedForUser_prefix 86400000 [jobC; jobA; jobB] exampleResume
              (Some "Berlin") noOverrides (Some (ofZ 50)))
    as (ranked & result & Hranked & Hresult & _ & Hprefix & _).
  - reflexivity.
  - by vm_compute.
  - exists ranked, result. split; [exact Hranked|]. split; [exact Hresult|exact Hprefix].
Defined.

(** ** More on the four factors *)

(** More years of experience never lower the experience fit. *)
Theorem calculateExperienceFit_monotone (jobDescription : string) (years more : Z) :
  years ≤ more →
  ∃ fit fit',
    calculateExperienceFit (Some jobDescription) years = Return fit
    ∧ calculateExperienceFit (Some jobDescription) more = Return fit'
    ∧ fit ≤ fit'.
Proof.
  intros Hle. unfold calculateExperienceFit. cbv zeta.
  generalize (from_option parseInt 0 (firstMatch matchYearsOfExperience jobDescription)).
  intros requiredYears.
  repeat case_bool_decide; eexists _, _; (split_and!; [reflexivity|reflexivity|lia]).
Qed.

Lemma calculateExperienceFit_monotone_witness :
  ∃ fit fit',
    calculateExperienceFit (Some "5+ years of experience required") 1 = Return fit
    ∧ calculateExperienceFit (Some "5+ years of experience required") 4 = Return fit'
    ∧ fit ≤ fit'.
Proof. apply calculateExperienceFit_monotone. lia. Defined.

(** The recency score does not fall with the age of the posting: a posting
    of 61 to 90 days scores 50, and an older posting of 91 to 149 days scores
    more than 50. *)
Theorem calculateRecency_rebound (now posted older : Z) :
  60 < daysSince now posted ≤ 90 → 90 < daysSince now older < 150 →
  calculateRecency now (Some posted) = 50%Q
  ∧ (50 < calculateRecency now (Some older))%Q
  ∧ older < posted.
Proof.
  intros [Hlo Hhi] [Holder Hlt]. split_and!.
  - unfold calculateRecency. cbv zeta.
    rewrite !bool_decide_eq_false_2 by lia. by rewrite bool_decide_eq_true_2.
  - unfold calculateRecency. cbv zeta.
    rewrite !bool_decide_eq_false_2 by lia.
    assert (forallb (λ days, negb (Qle_bool (Math_max 20 (sub (ofZ 100)
                                                             (div (ofZ days) (ofZ 3))))
                                            50))
                    (seqZ 91 59) = true) as Hall by (by vm_compute).
    rewrite forallb_forall in Hall.
    specialize (Hall (daysSince now older)).
    apply Qnot_le_lt. intros Hle. apply Qle_bool_iff in Hle.
    rewrite Hle in Hall. assert (negb true = true) as Habsurd; [|done].
    apply Hall, list_elem_of_In, elem_of_seqZ. lia.
  - unfold daysSince in *.
    destruct (Z.lt_ge_cases older posted) as [|Hge]; [done|exfalso].
    assert ((now - older) `div` (1000 * 60 * 60 * 24)
            ≤ (now - posted) `div` (1000 * 60 * 60 * 24)); [|lia].
    apply Z.div_le_mono; lia.
Qed.

Lemma calculateRecency_rebound_witness :
  calculateRecency 8640000000 (Some 864000000) = 50%Q
  ∧ (50 < calculateRecency 8640000000%Z (Some 0%Z))%Q
  ∧ 0 < 864000000.
Proof. apply calculateRecency_rebound; by vm_compute. Defined.

(** The location match does not depend on which of the two locations is the
    one of the job. *)
Theorem calculateLocationMatch_symmetric (jobLocation userLocation : option string) :
  calculateLocationMatch jobLocation userLocation
  = calculateLocationMatch userLocation jobLocation.
Proof.
  unfold calculateLocationMatch. cbv zeta.
  generalize (normalize' jobLocation) (normalize' userLocation). intros jobLoc userLoc.
  rewrite (orb_comm (negb (truthy userLocation))).
  rewrite (orb_comm (includes userLoc "remote")).
  rewrite (bool_decide_ext (userLoc = jobLoc) (jobLoc = userLoc)) by done.
  rewrite (bool_decide_ext (splitOn "," userLoc !! 0%nat = splitOn "," jobLoc !! 0%nat)
             (splitOn "," jobLoc !! 0%nat = splitOn "," userLoc !! 0%nat)) by done.
  by rewrite (bool_decide_ext (splitOn "," userLoc !! 1%nat = splitOn "," jobLoc !! 1%nat)
                (splitOn "," jobLoc !! 1%nat = splitOn "," userLoc !! 1%nat)) by done.
Qed.

(** ** The weights of the ranking *)

(** A number that is not negative: [+Infinity] or a finite number from 0. *)
Lemma binary64_nonneg (q : Q) :
  (0 <= q)%Q → binary64 q = PInf ∨ ∃ v, binary64 q = Fin v ∧ (0 <= v)%Q.
Proof. intros Hq. by apply (binary64_ge q 0). Qed.

Lemma mul_nonneg (x w : Q) :
  (0 <= x)%Q → (0 <= w)%Q →
  mul (Fin x) (Fin w) = PInf ∨ ∃ v, mul (Fin x) (Fin w) = Fin v ∧ (0 <= v)%Q.
Proof. intros Hx Hw. apply binary64_nonneg. by apply Qmult_le_0_compat. Qed.

Lemma add_nonneg (a b : number) :
  (a = PInf ∨ ∃ v, a = Fin v ∧ (0 <= v)%Q) →
  (b = PInf ∨ ∃ v, b = Fin v ∧ (0 <= v)%Q) →
  add a b = PInf ∨ ∃ v, add a b = Fin v ∧ (0 <= v)%Q.
Proof.
  intros [-> | (x & -> & Hx)] [-> | (y & -> & Hy)]; try (by left).
  apply binary64_nonneg. lra.
Qed.

(** With effective weights that are finite and not negative, the weighted
    score of scores that are not negative is a whole number that is not
    negative, or [+Infinity]. *)
Lemma weightedScore_nonneg (w : Factors number) (s e l : Z) (r : Q) :
  properWeights w = true → 0 ≤ s → 0 ≤ e → 0 ≤ l → (0 <= r)%Q →
  weightedScore w s e l r = PInf
  ∨ ∃ z, weightedScore w s e l r = ofZ z ∧ 0 ≤ z.
Proof.
  destruct w as [a b c d]. unfold properWeights, properWeight.
  cbn [skillMatch experienceFit location recency].
  intros Hw Hs He Hl Hr.
  destruct a as [a| | |], b as [b| | |], c as [c| | |], d as [d| | |];
    rewrite ?andb_false_r in Hw; try done.
  apply andb_true_iff in Hw as [Hw Hd]. apply andb_true_iff in Hw as [Hw Hc].
  apply andb_true_iff in Hw as [Ha Hb]. rewrite Qle_bool_iff in Ha, Hb, Hc, Hd.
  assert (∀ z, 0 ≤ z → (0 <= inject_Z z)%Q) as Hz.
  { intros z Hle. by rewrite Zle_Qle in Hle. }
  unfold weightedScore. cbn [skillMatch experienceFit location recency].
  pose proof (mul_nonneg (inject_Z s) a (Hz s Hs) Ha) as H1.
  pose proof (mul_nonneg (inject_Z e) b (Hz e He) Hb) as H2.
  pose proof (mul_nonneg (inject_Z l) c (Hz l Hl) Hc) as H3.
  pose proof (mul_nonneg r d Hr Hd) as H4.
  pose proof (add_nonneg _ _ (add_nonneg _ _ (add_nonneg _ _ H1 H2) H3) H4) as Hsum.
  fold (ofZ s) (ofZ e) (ofZ l) in Hsum.
  destruct Hsum as [-> | (v & -> & Hv)]; [by left|right].
  exists (Math_round v). split; [done|].
  unfold Math_round. rewrite <- (Qfloor_Z 0). apply Qfloor_resp_le.
  change (inject_Z 0) with 0%Q. lra.
Qed.

(** The share of a score of at most 100 with a weight [w]: a double that is
    at most [100 * w], rounded up to a multiple of [2^-40]. *)
Lemma mul_below (x w : Q) :
  (0 <= x <= 100)%Q → (0 <= w <= 2)%Q →
  ∃ v, mul (Fin x) (Fin w) = Fin v
       ∧ (0 <= v <= inject_Z (Qceiling (100 * w * pow2 40)) * pow2 (- 40))%Q.
Proof.
  intros [Hx0 Hx1] [Hw0 Hw1]. unfold mul.
  pose proof (Qle_ceiling (100 * w * pow2 40)) as Hceil.
  pose proof (pow2_cancel 40) as Hcancel. pose proof (pow2_pos 40) as Hpos.
  pose proof (pow2_pos (- 40)) as Hpos'. change (Z.opp 40) with (Zneg 40) in Hcancel, Hpos'.
  apply (binary64_below _ _ 40); [lia| |]; change (Z.opp 40) with (Zneg 40).
  - assert (Qceiling (100 * w * pow2 40) ≤ Qceiling (inject_Z (200 * 2 ^ 40))) as Hc.
    { apply Qceiling_resp_le.
      assert (pow2 40 == inject_Z (2 ^ 40))%Q as -> by (by apply pow2_Z).
      rewrite inject_Z_mult. change (inject_Z 200) with 200%Q.
      assert (0 < inject_Z (2 ^ 40))%Q by reflexivity. nra. }
    rewrite Qceiling_Z in Hc. lia.
  - split; [by apply Qmult_le_0_compat|].
    assert (x * w <= 100 * w)%Q as Hxw by nra.
    revert Hceil. generalize (inject_Z (Qceiling (100 * w * pow2 40))). intros C Hceil.
    assert (100 * w * pow2 40 * pow2 (- 40) <= C * pow2 (- 40))%Q as Hc by nra.
    rewrite <- (Qmult_assoc (100 * w)), Hcancel in Hc. lra.
Qed.

Lemma add_below (x y : Q) (cx cy : Z) :
  0 ≤ cx → 0 ≤ cy → cx + cy < 2 ^ 53 →
  (0 <= x <= inject_Z cx * pow2 (- 40))%Q → (0 <= y <= inject_Z cy * pow2 (- 40))%Q →
  ∃ v, add (Fin x) (Fin y) = Fin v
       ∧ (0 <= v <= inject_Z (cx + cy) * pow2 (- 40))%Q.
Proof.
  intros Hcx Hcy Hsum [Hx0 Hx1] [Hy0 Hy1]. unfold add.
  apply (binary64_below _ _ 40); [lia|done|]. change (Z.opp 40) with (Zneg 40).
  rewrite inject_Z_plus. split; lra.
Qed.

Lemma weightedScore_bounds (w : Factors number) (s e l : Z) (r : Q) :
  unitWeights w = true →
  0 ≤ s ≤ 100 → 0 ≤ e ≤ 100 → 0 ≤ l ≤ 100 → (0 <= r <= 100)%Q →
  ∃ z, weightedScore w s e l r = ofZ z ∧ 0 ≤ z ≤ 100.
Proof.
  destruct w as [a b c d]. unfold unitWeights.
  cbn [skillMatch experienceFit location recency].
  intros Hw Hs He Hl Hr.
  destruct a as [a| | |], b as [b| | |], c as [c| | |], d as [d| | |]; try done.
  apply andb_true_iff in Hw as [Hw Hsum]. apply andb_true_iff in Hw as [Hw Hd].
  apply andb_true_iff in Hw as [Hw Hc]. apply andb_true_iff in Hw as [Ha Hb].
  rewrite Qle_bool_iff in Ha, Hb, Hc, Hd, Hsum.
  assert (pow2 (-30) <= 1)%Q as H30 by (by vm_compute).
  assert (∀ z, 0 ≤ z ≤ 100 → (0 <= inject_Z z <= 100)%Q) as Hz.
  { intros z [Hz0 Hz1]. rewrite Zle_Qle in Hz0, Hz1. done. }
  unfold weightedScore, ofZ. cbn [skillMatch experienceFit location recency].
  destruct (mul_below (inject_Z s) a (Hz s Hs)) as (v1 & -> & Hv1); [lra|].
  destruct (mul_below (inject_Z e) b (Hz e He)) as (v2 & -> & Hv2); [lra|].
  destruct (mul_below (inject_Z l) c (Hz l Hl)) as (v3 & -> & Hv3); [lra|].
  destruct (mul_below r d Hr) as (v4 & -> & Hv4); [lra|].
  pose proof (pow2_cancel 40) as Hcancel. pose proof (pow2_pos 40) as Hpos.
  pose proof (pow2_pos (- 40)) as Hpos'. change (Z.opp 40) with (Zneg 40) in Hcancel, Hpos'.
  assert (∀ w, (0 <= w <= 2)%Q →
            0 ≤ Qceiling (100 * w * pow2 40) ≤ 200 * 2 ^ 40
            ∧ (inject_Z (Qceiling (100 * w * pow2 40)) * pow2 (- 40)
               <= 100 * w + pow2 (- 40))%Q) as Hceil.
  { intros w [Hw0 Hw1].
    assert (pow2 40 == inject_Z (2 ^ 40))%Q as H40 by (by apply pow2_Z).
    assert (0 < inject_Z (2 ^ 40))%Q as Hp40 by reflexivity.
    split; [split|].
    - rewrite <- (Qceiling_Z 0). apply Qceiling_resp_le.
      change (inject_Z 0) with 0%Q. nra.
    - rewrite <- (Qceiling_Z (200 * 2 ^ 40)). apply Qceiling_resp_le.
      rewrite H40, inject_Z_mult. change (inject_Z 200) with 200%Q. nra.
    - pose proof (Qceiling_lt (100 * w * pow2 40)) as Hlt.
      unfold Z.sub in Hlt. rewrite inject_Z_plus in Hlt.
      change (inject_Z (Z.opp 1)) with (-1)%Q in Hlt.
      revert Hlt. generalize (inject_Z (Qceiling (100 * w * pow2 40))). intros C Hlt.
      assert (C * pow2 (- 40) <= (100 * w * pow2 40 + 1) * pow2 (- 40))%Q as Hle
        by (apply Qmult_le_compat_r; lra).
      assert ((100 * w * pow2 40 + 1) * pow2 (- 40)
              == 100 * w * (pow2 40 * pow2 (- 40)) + pow2 (- 40))%Q as Heq by ring.
      rewrite Heq, Hcancel in Hle. lra. }
  destruct (Hceil a) as [Hca Ha']; [lra|]. destruct (Hceil b) as [Hcb Hb']; [lra|].
  destruct (Hceil c) as [Hcc Hc']; [lra|]. destruct (Hceil d) as [Hcd Hd']; [lra|].
  revert Hv1 Hv2 Hv3 Hv4 Hca Hcb Hcc Hcd Ha' Hb' Hc' Hd'.
  generalize (Qceiling (100 * a * pow2 40)) (Qceiling (100 * b * pow2 40))
             (Qceiling (100 * c * pow2 40)) (Qceiling (100 * d * pow2 40)).
  intros ca cb cc cd Hv1 Hv2 Hv3 Hv4 Hca Hcb Hcc Hcd Ha' Hb' Hc' Hd'.
  destruct (add_below v1 v2 ca cb) as (v12 & -> & Hv12); [lia|lia|lia|done|done|].
  destruct (add_below v12 v3 (ca + cb) cc) as (v123 & -> & Hv123);
    [lia|lia|lia|done|done|].
  destruct (add_below v123 v4 (ca + cb + cc) cd) as (v & -> & Hv);
    [lia|lia|lia|done|done|].
  cbn [round]. exists (Math_round v). split; [done|].
  rewrite !inject_Z_plus in Hv.
  assert (pow2 (-40) <= 1 # 1000)%Q as H40' by (by vm_compute).
  assert (pow2 (-30) <= 1 # 1000)%Q as H30' by (by vm_compute).
  assert (0 <= v < 100 + (1 # 2))%Q as [Hv0 Hv1'].
  { revert Hv Ha' Hb' Hc' Hd' H40' H30' Hsum.
    generalize (inject_Z ca) (inject_Z cb) (inject_Z cc) (inject_Z cd)
               (pow2 (- 40)) (pow2 (-30)).
    intros. split; lra. }
  unfold Math_round. split.
  - rewrite <- (Qfloor_Z 0). apply Qfloor_resp_le. change (inject_Z 0) with 0%Q. lra.
  - apply Z.lt_succ_r. rewrite Zlt_Qlt.
    eapply Qle_lt_trans; [apply Qfloor_le|].
    change (inject_Z (Z.succ 100)) with 101%Q. lra.
Qed.

(** The four scores of a job are percentages. *)
Lemma scoreJob_bounded (now : Z) (normalizedWeights : Factors number)
    (resumeSkills : list string) (yearsOfExp : Z) (userLocation : option string)
    (job : gmap string value) :
  ∃ (scored : gmap string value) (s e l : Z) (r : Q),
    scoreJob now normalizedWeights resumeSkills yearsOfExp userLocation job
    = Return scored
    ∧ 0 ≤ s ≤ 100 ∧ 0 ≤ e ≤ 100 ∧ 0 ≤ l ≤ 100 ∧ (0 <= r <= 100)%Q
    ∧ rankingScoreOf scored = weightedScore normalizedWeights s e l r.
Proof.
  unfold scoreJob. cbv zeta.
  set (description := default EmptyString (stringField job "description")).
  destruct (calculateExperienceFit_bounds description yearsOfExp) as (e & He & Hbounds).
  rewrite He, completion_bind_Return.
  set (s := calculateSkillMatch (Some description) (Some resumeSkills)).
  set (l := calculateLocationMatch _ userLocation).
  set (r := calculateRecency now (dateField job "postedDate")).
  destruct (explain_returns now job yearsOfExp s e l r) as [explanations ->].
  { intros Hlow. destruct (stringField job "description") as [d|] eqn:Hd; [done|].
    exfalso. assert (Return e = Return (A:=Z) 75) as [= ->]; [|lia].
    by rewrite <- He. }
  rewrite completion_bind_Return.
  eexists _, s, e, l, r. split; [reflexivity|].
  split_and!.
  - apply calculateSkillMatch_bounds.
  - apply calculateSkillMatch_bounds.
  - lia.
  - lia.
  - pose proof (calculateLocationMatch_bounds
                  (Some (default EmptyString (stringField job "location")))
                  userLocation). unfold l. lia.
  - pose proof (calculateLocationMatch_bounds
                  (Some (default EmptyString (stringField job "location")))
                  userLocation). unfold l. lia.
  - pose proof (calculateRecency_bounds now (dateField job "postedDate")) as [? _].
    unfold r. lra.
  - by pose proof (calculateRecency_bounds now (dateField job "postedDate")) as [_ ?].
  - unfold rankingScoreOf, numberField.
    by rewrite !lookup_insert_ne, lookup_insert_eq by done.
Qed.

(** What holds for every scored job and is kept by the rank, holds for
    every ranked job. *)
Lemma rankJobs_Forall (P : gmap string value → Prop) (now : Z)
    (jobs : list (gmap string value)) (userResume : Resume)
    (userLocation : option string) (customWeights : Factors (option Q)) :
  (∀ job scored,
     scoreJob now (normalizeWeights (mergeWeights customWeights))
       (default [] (parsedSkills userResume))
       (default 0 (yearsOfExperience userResume)) userLocation job = Return scored →
     P scored) →
  (∀ k s, P s → P (setRank k s)) →
  ∃ ranked, rankJobs now jobs userResume userLocation customWeights = Return ranked
            ∧ Forall P ranked.
Proof.
  intros Hscore Hrank.
  destruct (decide (jobs = [])) as [->|Hjobs]; [by exists []|].
  destruct (rankJobs_spec now jobs userResume userLocation customWeights Hjobs)
    as (scored & sorted & Hscored & _ & Hperm & _ & ->).
  eexists. split; [reflexivity|].
  assert (Forall P scored) as HP.
  { clear Hperm Hjobs. induction Hscored as [|job s jobs scored Hs _ IH]; constructor.
    - by apply (Hscore job).
    - apply IH. }
  apply Forall_forall. intros job Hjob.
  apply list_elem_of_lookup in Hjob as [k Hk].
  rewrite list_lookup_imap, list_lookup_fmap in Hk.
  destruct (sorted !! k) as [[p a]|] eqn:Hp; [|done].
  simpl in Hk. injection Hk as <-. apply Hrank.
  rewrite Forall_forall in HP. apply HP.
  apply list_elem_of_lookup_2 in Hp. rewrite Hperm in Hp.
  apply elem_of_indexedFrom in Hp. by eapply list_elem_of_lookup_2.
Qed.

(** Ranking scores that are numbers for every scored job can be compared,
    and what holds for the ranking score of every scored job holds for every
    ranked job. *)
Lemma rankJobs_scores (P : number → Prop) (now : Z)
    (jobs : list (gmap string value)) (userResume : Resume)
    (userLocation : option string) (customWeights : Factors (option Q)) :
  (∀ job scored,
     scoreJob now (normalizeWeights (mergeWeights customWeights))
       (default [] (parsedSkills userResume))
       (default 0 (yearsOfExperience userResume)) userLocation job = Return scored →
     P (rankingScoreOf scored)) →
  ¬ P NaN →
  comparable (rankingScores now jobs userResume userLocation customWeights) = true
  ∧ ∃ ranked,
      rankJobs now jobs userResume userLocation customWeights = Return ranked
      ∧ Forall (λ job, P (rankingScoreOf job)) ranked.
Proof.
  intros Hscore Hnan. split.
  - unfold rankingScores, comparable.
    destruct (scoreJobs_return now (normalizeWeights (mergeWeights customWeights))
                (default [] (parsedSkills userResume))
                (default 0 (yearsOfExperience userResume)) userLocation jobs)
      as (scored & -> & Hscored).
    apply orb_true_iff. left. apply forallb_forall. intros a Ha.
    apply list_elem_of_In, list_elem_of_fmap in Ha as (s & -> & Hs).
    apply list_elem_of_lookup in Hs as [i Hi].
    destruct (Forall2_lookup_r _ _ _ _ _ Hscored Hi) as (job & _ & Hjob).
    specialize (Hscore job s Hjob).
    destruct (rankingScoreOf s); try done.
  - apply (rankJobs_Forall (λ job, P (rankingScoreOf job))); [done|].
    intros k s. by destruct (setRank_frame k s) as (-> & _).
Qed.

(** With effective weights that are finite and not negative and sum to 1 up
    to rounding, as those of the default weights do, every ranking score is a
    whole number from 0 to 100, and the ranking scores can be compared. *)
Theorem rankJobs_score_bounds (now : Z) (jobs : list (gmap string value))
    (userResume : Resume) (userLocation : option string)
    (customWeights : Factors (option Q)) :
  forallb isJobDescriptor jobs = true →
  unitWeights (normalizeWeights (mergeWeights customWeights)) = true →
  comparable (rankingScores now jobs userResume userLocation customWeights) = true
  ∧ ∃ ranked,
      rankJobs now jobs userResume userLocation customWeights = Return ranked
      ∧ Forall (λ job, ∃ z, rankingScoreOf job = ofZ z ∧ 0 ≤ z ≤ 100) ranked.
Proof.
  intros _ Hunit.
  apply (rankJobs_scores (λ a, ∃ z, a = ofZ z ∧ 0 ≤ z ≤ 100)); [|by intros (z & ? & _)].
  intros job scored Hscored.
  destruct (scoreJob_bounded now (normalizeWeights (mergeWeights customWeights))
              (default [] (parsedSkills userResume))
              (default 0 (yearsOfExperience userResume)) userLocation job)
    as (scored' & s & e & l & r & Hs & Hsb & Heb & Hlb & Hrb & Hscore).
  rewrite Hscored in Hs. injection Hs as <-. rewrite Hscore.
  by apply weightedScore_bounds.
Qed.

(** The jobs A and C of the example with the default weights. *)
Lemma rankJobs_score_bounds_witness :
  forallb isJobDescriptor [jobA; jobC] = true
  ∧ unitWeights (normalizeWeights (mergeWeights noOverrides)) = true
  ∧ comparable (rankingScores 0 [jobA; jobC] exampleResume (Some EmptyString)
                  noOverrides) = true
  ∧ ∃ ranked,
      rankJobs 0 [jobA; jobC] exampleResume (Some EmptyString) noOverrides = Return ranked
      ∧ Forall (λ job, ∃ z, rankingScoreOf job = ofZ z ∧ 0 ≤ z ≤ 100) ranked.
Proof.
  split; [reflexivity|]. split; [by vm_compute|].
  apply rankJobs_score_bounds; [reflexivity|by vm_compute].
Defined.

(** With effective weights that are finite and not negative, every ranking
    score is a whole number that is not negative, or [+Infinity]: none is
    NaN, and the ranking scores can be compared. *)
Theorem rankJobs_scores_comparable (now : Z) (jobs : list (gmap string value))
    (userResume : Resume) (userLocation : option string)
    (customWeights : Factors (option Q)) :
  forallb isJobDescriptor jobs = true →
  properWeights (normalizeWeights (mergeWeights customWeights)) = true →
  comparable (rankingScores now jobs userResume userLocation customWeights) = true
  ∧ ∃ ranked,
      rankJobs now jobs userResume userLocation customWeights = Return ranked
      ∧ Forall (λ job, rankingScoreOf job = PInf
                       ∨ ∃ z, rankingScoreOf job = ofZ z ∧ 0 ≤ z) ranked.
Proof.
  intros _ Hproper.
  apply (rankJobs_scores (λ a, a = PInf ∨ ∃ z, a = ofZ z ∧ 0 ≤ z));
    [|by intros [|(z & ? & _)]].
  intros job scored Hscored.
  destruct (scoreJob_bounded now (normalizeWeights (mergeWeights customWeights))
              (default [] (parsedSkills userResume))
              (default 0 (yearsOfExperience userResume)) userLocation job)
    as (scored' & s & e & l & r & Hs & Hsb & Heb & Hlb & Hrb & Hscore).
  rewrite Hscored in Hs. injection Hs as <-. rewrite Hscore.
  apply weightedScore_nonneg; [done|lia..|]. by destruct Hrb.
Qed.

(** The jobs A and C of the example, ranked by twice the skill match and
    three times the recency. *)
Lemma rankJobs_scores_comparable_witness :
  forallb isJobDescriptor [jobA; jobC] = true
  ∧ properWeights (normalizeWeights (mergeWeights skillAndRecency)) = true
  ∧ comparable (rankingScores 0 [jobA; jobC] exampleResume (Some EmptyString)
                  skillAndRecency) = true.
Proof.
  split; [reflexivity|]. split; [by vm_compute|].
  apply (rankJobs_scores_comparable 0 [jobA; jobC] exampleResume (Some EmptyString)
           skillAndRecency); [reflexivity|by vm_compute].
Defined.

(** ** The confidence of an improved answer *)

Lemma reorderSentences_none (answer : string) (d : Draft) :
  reorderSentences answer [] d = d.
Proof.
  unfold reorderSentences. cbv zeta. case_bool_decide; [|done].
  rewrite (filter_none (λ s, existsb _ [] = true)) by done.
  by rewrite (bool_decide_eq_false_2 (0 < length [])%nat) by (simpl; lia).
Qed.

(** An answer that mentions no job skill has the confidence 30 before the
    safety check. *)
Lemma draftAnswer_unrelated (answer : string) (jobDescription : option string) :
  mentionedSkills answer jobDescription = [] →
  draftConfidence (draftAnswer answer jobDescription) = 30
  ∧ draftChanges (draftAnswer answer jobDescription) ≠ [].
Proof.
  intros Hnone. unfold draftAnswer. cbv zeta. rewrite Hnone, reorderSentences_none.
  unfold assessRelevance. rewrite bool_decide_eq_true_2 by done.
  cbn [draftConfidence draftChanges cleanUp baseConfidence length].
  split; [by vm_compute|]. by intros []%app_eq_nil.
Qed.

(** A draft without notes on changes has a confidence of 80 at most. *)
Lemma draftAnswer_unchanged (answer : string) (jobDescription : option string) :
  draftChanges (draftAnswer answer jobDescription) = [] →
  draftConfidence (draftAnswer answer jobDescription) ≤ 80.
Proof.
  unfold draftAnswer. cbv zeta.
  set (mentioned := mentionedSkills answer jobDescription).
  assert (50 ≤ baseConfidence mentioned ≤ 70) as Hbase.
  { unfold baseConfidence. case_bool_decide; lia. }
  set (d0 := {| draftText := answer; draftChanges := [];
                draftConfidence := baseConfidence mentioned |}).
  assert (50 ≤ draftConfidence (reorderSentences answer mentioned d0) ≤ 80) as Hre.
  { unfold reorderSentences. repeat case_match; simpl; lia. }
  unfold assessRelevance. repeat case_bool_decide.
  - cbn [draftChanges]. by intros []%app_eq_nil.
  - cbn [draftChanges]. by intros []%app_eq_nil.
  - intros _. unfold cleanUp. cbn [draftConfidence]. lia.
Qed.

Lemma improveAnswer_response (now : Z) (c : ascii) (rest : string)
    (jobDescription : option string) :
  ∃ response,
    improveAnswer now (Some (String c rest)) jobDescription = Improved response
    ∧ improved (data response)
      = draftText (noChanges (safetyCheck (trim (String c rest))
                                (draftAnswer (trim (String c rest)) jobDescription)))
    ∧ confidence (data response)
      = Z.max 0 (Z.min 100
          (draftConfidence (noChanges (safetyCheck (trim (String c rest))
                              (draftAnswer (trim (String c rest)) jobDescription)))))
    ∧ changes (data response)
      = draftChanges (noChanges (safetyCheck (trim (String c rest))
                                   (draftAnswer (trim (String c rest)) jobDescription)))
    ∧ mentionedJobSkills (data response)
      = mentionedSkills (trim (String c rest)) jobDescription
    ∧ message response
      = "Answer improved. Confidence: "
        +:+ pretty (draftConfidence
                      (noChanges (safetyCheck (trim (String c rest))
                                    (draftAnswer (trim (String c rest)) jobDescription))))
        +:+ "%".
Proof. eexists. split; [reflexivity|]. by split_and!. Qed.

(** The draft [improveAnswer] ends with. *)
Lemma finalDraft_bounds (answer : string) (jobDescription : option string) :
  20 ≤ draftConfidence (noChanges (safetyCheck answer (draftAnswer answer jobDescription)))
     ≤ 95
  ∧ draftChanges (noChanges (safetyCheck answer (draftAnswer answer jobDescription))) ≠ []
  ∧ (mentionedSkills answer jobDescription = [] →
     draftConfidence (noChanges (safetyCheck answer (draftAnswer answer jobDescription)))
     ≤ 30).
Proof.
  pose proof (draftConfidence_bounds answer jobDescription) as Hbounds.
  pose proof (draftAnswer_unchanged answer jobDescription) as Hunchanged.
  pose proof (draftAnswer_unrelated answer jobDescription) as Hunrelated.
  revert Hbounds Hunchanged Hunrelated.
  generalize (draftAnswer answer jobDescription).
  generalize (mentionedSkills answer jobDescription).
  intros mentioned draft Hbounds Hunchanged Hunrelated.
  destruct (safetyCheck_cases answer draft) as [[_ ->]|[_ ->]].
  - unfold noChanges. case_bool_decide as Hlen.
    + apply nil_length_inv in Hlen. cbn [draftConfidence draftChanges].
      specialize (Hunchanged Hlen).
      split_and!; [lia|lia|by intros []%app_eq_nil|].
      intros Hnone. by destruct (Hunrelated Hnone) as [_ ?].
    + split_and!; [lia|lia|intros Heq; by rewrite Heq in Hlen|].
      intros Hnone. destruct (Hunrelated Hnone) as [? _]. lia.
  - rewrite noChanges_changed by (by intros []%app_eq_nil).
    cbn [draftConfidence draftChanges].
    split_and!; [lia|lia|by intros []%app_eq_nil|].
    intros Hnone. destruct (Hunrelated Hnone) as [? _]. lia.
Qed.

(** The confidence of an improved answer is from 20 to 95, and it is the
    number in the message.  The list of changes is never empty.  For an answer
    that mentions no skill of the job description the confidence is 30 at
    most, so the route does not store the improved text. *)
Theorem improveAnswer_confidence (now : Z) (c : ascii) (rest : string)
    (jobDescription : option string) :
  ∃ response,
    improveAnswer now (Some (String c rest)) jobDescription = Improved response
    ∧ 20 ≤ confidence (data response) ≤ 95
    ∧ message response
      = "Answer improved. Confidence: " +:+ pretty (confidence (data response)) +:+ "%"
    ∧ changes (data response) ≠ []
    ∧ (mentionedJobSkills (data response) = [] →
       confidence (data response) ≤ 30
       ∧ applied (data response) (String c rest) = false).
Proof.
  destruct (improveAnswer_response now c rest jobDescription)
    as (response & Hresponse & _ & Hconfidence & Hchanges & Hmentioned & Hmessage).
  exists response. split; [exact Hresponse|]. clear Hresponse.
  unfold applied. rewrite Hconfidence, Hchanges, Hmentioned, Hmessage.
  clear Hconfidence Hchanges Hmentioned Hmessage.
  destruct (finalDraft_bounds (trim (String c rest)) jobDescription)
    as (Hc & Hnonempty & Hlow).
  revert Hc Hnonempty Hlow.
  generalize (draftConfidence
                (noChanges (safetyCheck (trim (String c rest))
                              (draftAnswer (trim (String c rest)) jobDescription)))).
  generalize (draftChanges
                (noChanges (safetyCheck (trim (String c rest))
                              (draftAnswer (trim (String c rest)) jobDescription)))).
  generalize (mentionedSkills (trim (String c rest)) jobDescription).
  generalize (improved (data response)).
  intros text mentioned notes conf Hc Hnonempty Hlow.
  rewrite Z.min_r, Z.max_r by lia.
  split_and!; [lia|lia|reflexivity|exact Hnonempty|].
  intros Hnone. specialize (Hlow Hnone). split; [exact Hlow|].
  by rewrite bool_decide_eq_false_2 by lia.
Qed.

(** ** Remodeling twice *)

Section sorted_result.
Context {A : Type} (after : A → A → bool).
Hypothesis after_asym : ∀ x y, after x y = true → after y x = false.
Hypothesis after_negtrans : ∀ x y z,
  after x y = false → after y z = false → after x z = false.

Lemma insert_sorted (x : A) (l : list A) :
  StronglySorted (λ a b, after a b = false) l →
  StronglySorted (λ a b, after a b = false) (JsArray.insert after x l).
Proof.
  induction 1 as [|y l Hsorted IH Hy]; [repeat constructor|].
  cbn [JsArray.insert]. destruct (after x y) eqn:Hxy.
  - constructor; [done|].
    rewrite (insert_Permutation after x l). constructor; [|done].
    by apply after_asym.
  - constructor; [by constructor|]. constructor; [done|].
    eapply Forall_impl; [exact Hy|]. intros z Hz. by apply (after_negtrans x y z).
Qed.

(** The sorted array is sorted. *)
Lemma sort_is_sorted (l : list A) :
  StronglySorted (λ a b, after a b = false) (JsArray.sort after l).
Proof.
  induction l as [|x l IH]; [constructor|]. cbn [JsArray.sort]. by apply insert_sorted.
Qed.

(** Sorting a second time changes nothing. *)
Lemma sort_idempotent (l : list A) :
  JsArray.sort after (JsArray.sort after l) = JsArray.sort after l.
Proof. apply sort_sorted, sort_is_sorted. Qed.
End sorted_result.

Lemma skillsChanges_same (now : Z) (resume : Resume) (jobDescription : option string) :
  remodeledSkills (data (remodelResume now resume jobDescription))
  = originalSkills (data (remodelResume now resume jobDescription)) →
  reordered (skillsChanges (data (remodelResume now resume jobDescription))) = false
  ∧ highlighted (skillsChanges (data (remodelResume now resume jobDescription))) = [].
Proof.
  intros Hsame. rewrite skillsChanges_eq. cbv zeta. cbn [reordered highlighted].
  rewrite bool_decide_eq_false_2; [done|]. intros Hne. by apply Hne.
Qed.

Lemma remodeledSkills_NoDup (now : Z) (resume : Resume) (jobDescription : option string) :
  NoDup (remodeledSkills (data (remodelResume now resume jobDescription))).
Proof.
  rewrite remodeledSkills_eq.
  assert (NoDup (from_option uniq [] (parsedSkills resume))) as Hnd
    by (destruct (parsedSkills resume); [apply NoDup_from|constructor]).
  case_bool_decide; [by rewrite sort_Permutation|done].
Qed.

Lemma remodeledSkills_sorted (now : Z) (resume : Resume) (jobDescription : option string) :
  JsArray.sort (byJobSkill (extractJobSkills jobDescription))
    (remodeledSkills (data (remodelResume now resume jobDescription)))
  = remodeledSkills (data (remodelResume now resume jobDescription)).
Proof.
  rewrite remodeledSkills_eq. case_bool_decide as Hjobs.
  - apply sort_idempotent.
    + intros x y. unfold byJobSkill. rewrite bool_decide_eq_true, bool_decide_eq_false. lia.
    + intros x y z. unfold byJobSkill. rewrite !bool_decide_eq_false. lia.
  - apply nil_length_inv in Hjobs. rewrite Hjobs.
    apply sort_unordered. intros x y _ _. unfold byJobSkill.
    rewrite !jobSkillIndex_nil. by apply bool_decide_eq_false.
Qed.

(** A list of skills without repetitions that is in the order of the job
    skills is remodeled to itself. *)
Lemma remodelResume_sorted (now : Z) (text : option string) (skills : list string)
    (years : option Z) (jobDescription : option string) :
  NoDup skills →
  JsArray.sort (byJobSkill (extractJobSkills jobDescription)) skills = skills →
  remodeledSkills
    (data (remodelResume now {| summary := text; parsedSkills := Some skills;
                                yearsOfExperience := years |} jobDescription)) = skills
  ∧ originalSkills
      (data (remodelResume now {| summary := text; parsedSkills := Some skills;
                                  yearsOfExperience := years |} jobDescription)) = skills.
Proof.
  intros Hnd Hsorted. rewrite remodeledSkills_eq, originalSkills_eq.
  cbn [parsedSkills from_option]. unfold uniq. rewrite from_NoDup by done.
  split; [|done]. by case_bool_decide.
Qed.

(** Remodeling the remodeled skills for the same job changes nothing: the
    skills come back in the same order, and the response reports no
    reordering and no highlighted skill. *)
Theorem remodelResume_idempotent (now later : Z) (resume : Resume)
    (jobDescription : option string) :
  let first := data (remodelResume now resume jobDescription) in
  let again :=
    data (remodelResume later
            {| summary := summary resume;
               parsedSkills := Some (remodeledSkills first);
               yearsOfExperience := yearsOfExperience resume |}
            jobDescription) in
  remodeledSkills again = remodeledSkills first
  ∧ originalSkills again = remodeledSkills first
  ∧ reordered (skillsChanges again) = false
  ∧ highlighted (skillsChanges again) = [].
Proof.
  cbv zeta.
  pose proof (remodeledSkills_NoDup now resume jobDescription) as Hnd.
  pose proof (remodeledSkills_sorted now resume jobDescription) as Hsorted.
  revert Hnd Hsorted.
  generalize (remodeledSkills (data (remodelResume now resume jobDescription))).
  intros skills Hnd Hsorted.
  destruct (remodelResume_sorted later (summary resume) skills (yearsOfExperience resume)
              jobDescription Hnd Hsorted) as [Hremodeled Horiginal].
  split; [exact Hremodeled|]. split; [exact Horiginal|].
  apply skillsChanges_same. by rewrite Hremodeled, Horiginal.
Qed.

(** ** The case of the letters *)

Lemma normalize_lower (s : string) : normalize (toLowerCase s) = normalize s.
Proof. unfold normalize, normalize'. cbn [default]. apply toLowerCase_idemp. Qed.

Lemma normalize_fmap_lower (l : list string) :
  normalize <$> (toLowerCase <$> l) = normalize <$> l.
Proof.
  rewrite <- list_fmap_compose. apply list_fmap_ext. intros i s _. apply normalize_lower.
Qed.

Lemma truthy_lower (s : string) : truthy (Some (toLowerCase s)) = truthy (Some s).
Proof. by destruct s. Qed.

Lemma extractJobSkills_lower_case (s : string) :
  extractJobSkills (Some (toLowerCase s)) = extractJobSkills (Some s).
Proof.
  unfold extractJobSkills. cbv zeta.
  by replace (normalize' (Some (toLowerCase s))) with (normalize' (Some s))
    by (symmetry; apply normalize_lower).
Qed.

(** The scores that compare skills and locations do not depend on the case
    of the letters of their arguments. *)
Theorem scores_case_insensitive (jobSkills resumeSkills : list string)
    (jobDescription jobLocation userLocation : string) :
  computeScore (toLowerCase <$> jobSkills) (toLowerCase <$> resumeSkills)
  = computeScore jobSkills resumeSkills
  ∧ calculateSkillMatch (Some (toLowerCase jobDescription))
                        (Some (toLowerCase <$> resumeSkills))
    = calculateSkillMatch (Some jobDescription) (Some resumeSkills)
  ∧ calculateLocationMatch (Some (toLowerCase jobLocation)) (Some (toLowerCase userLocation))
    = calculateLocationMatch (Some jobLocation) (Some userLocation).
Proof.
  split_and!.
  - unfold computeScore. rewrite !length_fmap. cbv zeta.
    by rewrite !normalize_fmap_lower.
  - destruct (truthy (Some jobDescription)) eqn:Hd.
    2: { rewrite !calculateSkillMatch_falsy; [done|done|by rewrite truthy_lower]. }
    destruct (decide (resumeSkills = [])) as [->|Hr].
    { by rewrite fmap_nil, !calculateSkillMatch_nil. }
    assert (toLowerCase <$> resumeSkills ≠ []) as Hr' by (by destruct resumeSkills).
    destruct (decide (extractJobSkills (Some jobDescription) = [])) as [Hj|Hj].
    { rewrite !calculateSkillMatch_no_skills;
        [done|done|done|done|by rewrite truthy_lower|done|by rewrite extractJobSkills_lower_case]. }
    rewrite !calculateSkillMatch_eq;
      [|done|done|done|by rewrite truthy_lower|done|by rewrite extractJobSkills_lower_case].
    rewrite extractJobSkills_lower_case.
    generalize (extractJobSkills (Some jobDescription)). intros found.
    rewrite (filter_ext_elem
               (λ skill, existsb (λ userSkill,
                                    includes (normalize userSkill) (normalize skill)
                                    || includes (normalize skill) (normalize userSkill))
                                 (toLowerCase <$> resumeSkills) = true)
               (λ skill, existsb (λ userSkill,
                                    includes (normalize userSkill) (normalize skill)
                                    || includes (normalize skill) (normalize userSkill))
                                 resumeSkills = true)); [reflexivity|].
    intros skill _. rewrite !existsb_elem_of. split.
    + intros (u & (u' & -> & Hu')%list_elem_of_fmap & Hmatch).
      exists u'. split; [done|]. by rewrite normalize_lower in Hmatch.
    + intros (u & Hu & Hmatch). exists (toLowerCase u).
      split; [by apply list_elem_of_fmap_2|]. by rewrite normalize_lower.
  - unfold calculateLocationMatch. rewrite !truthy_lower. cbv zeta.
    replace (normalize' (Some (toLowerCase jobLocation)))
      with (normalize' (Some jobLocation)) by (symmetry; apply normalize_lower).
    by replace (normalize' (Some (toLowerCase userLocation)))
      with (normalize' (Some userLocation)) by (symmetry; apply normalize_lower).
Qed.

(** ** Validation of a request body *)

Lemma validateInput_single (field : string) (rules : Rules.t)
    (body : option (gmap string value)) :
  validateInput [(field, rules)] body
  = validateField field rules (default ∅ body !! field).
Proof.
  unfold validateInput. cbv zeta. cbn [foldr].
  by destruct (validateField field rules (default ∅ body !! field)).
Qed.

(** The routes that take a job description pass on exactly the requests
    whose body has a [jobDescription] that is a string of 50 to 50000
    characters; the other requests end with the error of the first check
    that fails: the field is missing, [null] or empty, it is not a string,
    it is too short, or it is too long. *)
Theorem validateInput_jobDescription (body : option (gmap string value)) :
  validateInput jobDescriptionSchema body
  = match default ∅ body !! "jobDescription" with
    | None | Some VUndefined | Some VNull | Some (VString EmptyString) =>
        Some "jobDescription is required"
    | Some (VString s) =>
        if bool_decide (Z.of_nat (String.length s) < 50)
        then Some "jobDescription must be at least 50 characters"
        else if bool_decide (50000 < Z.of_nat (String.length s))
        then Some "jobDescription must be at most 50000 characters"
        else None
    | Some _ => Some "jobDescription must be a string"
    end
  ∧ (validateInput jobDescriptionSchema body = None
     ↔ ∃ s, default ∅ body !! "jobDescription" = Some (VString s)
            ∧ 50 ≤ Z.of_nat (String.length s) ≤ 50000)
  ∧ (∀ s, default ∅ body !! "jobDescription" = Some (VString s) →
          validateInput jobDescriptionSchema body = None →
          truthy (Some s) = true).
Proof.
  unfold jobDescriptionSchema. rewrite validateInput_single.
  generalize (default ∅ body !! "jobDescription"). intros value.
  assert (∀ s, validateField "jobDescription"
                 {| Rules.required := true; Rules.type := Some "string";
                    Rules.minLength := Some 50; Rules.maxLength := Some 50000;
                    Rules.enum := None |} (Some (VString s))
               = if bool_decide (s = EmptyString) then Some "jobDescription is required"
                 else if bool_decide (Z.of_nat (String.length s) < 50)
                 then Some "jobDescription must be at least 50 characters"
                 else if bool_decide (50000 < Z.of_nat (String.length s))
                 then Some "jobDescription must be at most 50000 characters"
                 else None) as Hstring.
  { intros s. destruct s as [|c s]; [done|].
    rewrite (bool_decide_eq_false_2 (String c s = EmptyString)) by done.
    unfold validateField.
    cbn [Rules.required Rules.type Rules.minLength Rules.maxLength Rules.enum
         isNullish andb orb default from_option id typeOf given].
    rewrite (bool_decide_eq_true_2 (Some "string" = Some "string")) by done.
    rewrite (bool_decide_eq_true_2 ("string" = "string")) by done.
    rewrite (bool_decide_eq_false_2 (Some "string" = Some "number")) by done.
    rewrite (bool_decide_eq_false_2 (Some "string" = Some "boolean")) by done.
    cbn [negb andb Z.eqb]. by repeat case_bool_decide. }
  split_and!.
  - destruct value as [[| |b|n|s|ms|items|fields]|]; try done.
    rewrite Hstring. by destruct s.
  - split.
    + destruct value as [[| |b|n|s|ms|items|fields]|]; try done.
      rewrite Hstring. repeat case_bool_decide; try done.
      intros _. exists s. split; [done|lia].
    + intros (s & -> & Hlen). rewrite Hstring.
      rewrite bool_decide_eq_false_2 by (intros ->; simpl in Hlen; lia).
      by rewrite !bool_decide_eq_false_2 by lia.
  - intros s -> Hvalid. rewrite Hstring in Hvalid. by destruct s.
Qed.

(** The fields are checked in the order of the schema, and the first error
    ends the validation. *)
Lemma validateInput_app (first second : list (string * Rules.t))
    (body : option (gmap string value)) :
  validateInput (first ++ second) body
  = match validateInput first body with
    | Some message => Some message
    | None => validateInput second body
    end.
Proof.
  unfold validateInput. cbv zeta. induction first as [|[field rules] first IH]; [done|].
  cbn [app foldr]. by destruct (validateField field rules (default ∅ body !! field)).
Qed.

(** A type other than [string], [number] and [boolean] is not checked: a
    required field of the type [object] passes with a string. *)
Example validateField_object_type :
  validateField "jobSnapshot"
    {| Rules.required := true; Rules.type := Some "object"; Rules.minLength := None;
       Rules.maxLength := None; Rules.enum := None |}
    (Some (VString "none")) = None.
Proof. by vm_compute. Qed.
